(** * bun-sqlite-migrate: declarative schema migration for SQLite

    A shallow embedding of [src/migrate.ts] and the properties its
    specification states about it.

    - Part I    JavaScript strings and [normaliseSql] (the canonicalizer).
    - Part II   The database handle, the [DBMigrator] state and [migrate],
                and a catalog-level engine to run them on.
    - Part III  The notions the properties are stated with.
    - Part IV   The canonicalizer: lemmas and claims C7, C8.
    - Part V    The migration run: lemmas.
    - Part VI   The migration run: claims C1-C6, C9, C10.
    - Part VII  Further properties of the canonicalizer, the log text,
                the classification, the rebuild and the run. *)

From Stdlib Require Import List NArith ZArith Bool Lia String Ascii.
From Stdlib Require Import Numbers.DecimalString Relations.
Import ListNotations.

Local Open Scope N_scope.
Local Open Scope list_scope.

(* ================================================================== *)
(** * Part I. Strings and the canonicalizer *)
(* ================================================================== *)

(** A JavaScript string is a sequence of UTF-16 code units.  The regular
    expressions of [normaliseSql] carry no [u] flag, so they work code unit
    by code unit; a code unit is an [N] below 65536. *)
Definition jsstring := list N.

(** [js] turns a literal into the string written as an (ASCII) literal in the source. *)
Definition js (s : string) : jsstring :=
  map N_of_ascii (list_ascii_of_string s).

Module Char.
Definition newline : N := 10.      (* \n *)
Definition space : N := 32.
Definition dquote : N := 34.       (* the double quote *)
Definition lparen : N := 40.
Definition rparen : N := 41.
Definition comma : N := 44.
Definition dash : N := 45.         (* - *)

(** [\s] of ECMAScript: WhiteSpace and LineTerminator. [String.prototype.trim]
    strips the same set. *)
Definition is_space (c : N) : bool :=
  ((9 <=? c) && (c <=? 13))
  || (c =? 32) || (c =? 160) || (c =? 5760)
  || ((8192 <=? c) && (c <=? 8202))
  || (c =? 8232) || (c =? 8233) || (c =? 8239) || (c =? 8287)
  || (c =? 12288) || (c =? 65279).

(** [\w] without the [u] and [i] flags: [A-Za-z0-9_]. *)
Definition is_word (c : N) : bool :=
  ((48 <=? c) && (c <=? 57))
  || ((65 <=? c) && (c <=? 90))
  || (c =? 95)
  || ((97 <=? c) && (c <=? 122)).

(** The class [[(),]]. *)
Definition is_punct (c : N) : bool :=
  (c =? lparen) || (c =? rparen) || (c =? comma).

Definition is_newline (c : N) : bool := c =? newline.
Definition is_blank (c : N) : bool := c =? space.
Definition is_dash (c : N) : bool := c =? dash.
Definition is_dquote (c : N) : bool := c =? dquote.
End Char.

(** ** [String.prototype.replace] with a global regular expression

    A matcher answers, for the text starting at the current position,
    whether the regular expression matches there, and if so with which
    replacement text and which remaining input.  [replace_all] is the loop
    of [replace] with the [g] flag: try at the current position; on a match
    emit the replacement and continue after the match, otherwise copy one
    code unit and move on.  None of the four expressions of [normaliseSql]
    can match the empty string, so every match consumes input. *)
Definition matcher := jsstring -> option (jsstring * jsstring).

Fixpoint replace_fuel (m : matcher) (fuel : nat) (s : jsstring) : jsstring :=
  match fuel with
  | O => []
  | S f =>
      match s with
      | [] => []
      | c :: r =>
          match m s with
          | Some (out, rest) => out ++ replace_fuel m f rest
          | None => c :: replace_fuel m f r
          end
      end
  end.

Definition replace_all (m : matcher) (s : jsstring) : jsstring :=
  replace_fuel m (List.length s) s.

(** The longest prefix of [s] made of [p], and what follows it. *)
Fixpoint drop_while (p : N -> bool) (s : jsstring) : jsstring :=
  match s with
  | [] => []
  | c :: r => if p c then drop_while p r else s
  end.

Fixpoint take_while (p : N -> bool) (s : jsstring) : jsstring :=
  match s with
  | [] => []
  | c :: r => if p c then c :: take_while p r else []
  end.

(** [[^\n]*\n]: the input after the first newline, if there is one. *)
Fixpoint after_newline (s : jsstring) : option jsstring :=
  match s with
  | [] => None
  | c :: r => if Char.is_newline c then Some r else after_newline r
  end.

(** [/--[^\n]*\n/], replaced by the empty string. *)
Definition m_comment : matcher := fun s =>
  match s with
  | c1 :: c2 :: r =>
      if Char.is_dash c1 && Char.is_dash c2
      then match after_newline r with
           | Some rest => Some ([], rest)
           | None => None
           end
      else None
  | _ => None
  end.

(** [/\s+/], replaced by one space.  The [+] is greedy. *)
Definition m_space : matcher := fun s =>
  match s with
  | c :: r =>
      if Char.is_space c
      then Some ([Char.space], drop_while Char.is_space r)
      else None
  | [] => None
  end.

(** [/ *([(),]) */], replaced by [$1].  Both [ *] are greedy; giving back
    blanks of the first one cannot help, since what then follows is a blank
    and not one of [(),]. *)
Definition m_punct : matcher := fun s =>
  match drop_while Char.is_blank s with
  | p :: r =>
      if Char.is_punct p
      then Some ([p], drop_while Char.is_blank r)
      else None
  | [] => None
  end.

(** A double quote, [\w+], a double quote; replaced by [$1].  [\w+] is greedy; giving back word
    characters cannot help, since what then follows is a word character
    and not the closing quote. *)
Definition m_quoted : matcher := fun s =>
  match s with
  | q :: r =>
      if Char.is_dquote q
      then match take_while Char.is_word r, drop_while Char.is_word r with
           | w :: ws, q' :: rest =>
               if Char.is_dquote q' then Some (w :: ws, rest) else None
           | _, _ => None
           end
      else None
  | [] => None
  end.

Definition strip_comments : jsstring -> jsstring := replace_all m_comment.
Definition collapse_spaces : jsstring -> jsstring := replace_all m_space.
Definition tighten_punct : jsstring -> jsstring := replace_all m_punct.
Definition unquote_words : jsstring -> jsstring := replace_all m_quoted.

(** [String.prototype.trim]. *)
Definition trim (s : jsstring) : jsstring :=
  rev (drop_while Char.is_space (rev (drop_while Char.is_space s))).

(** [sql] read from [sqlite_master] is a string or [null]; [Map.get] may
    also answer [undefined].  Both are falsy, as is the empty string. *)
Definition sqlval := option jsstring.

(** [normaliseSql], src/migrate.ts lines 315-325. *)
Definition normaliseSql (sql : sqlval) : jsstring :=
  match sql with
  | None => []
  | Some [] => []
  | Some s =>
      let s := strip_comments s in
      let s := collapse_spaces s in
      let s := tighten_punct s in
      let s := unquote_words s in
      trim s
  end.

(** The canonicalizer on a plain string. *)
Definition canonicalize (s : jsstring) : jsstring := normaliseSql (Some s).

(** [testNormaliseSql], src/migrate.ts lines 327-336.  [dq w] is [w]
    between double quotes. *)
Definition dq (w : jsstring) : jsstring :=
  [Char.dquote] ++ w ++ [Char.dquote].

Definition testNormaliseSql_input : jsstring :=
  [Char.newline]
  ++ js "        CREATE TABLE " ++ dq (js "Node") ++ js "( -- This is my table"
  ++ [Char.newline]
  ++ js "            -- There are many like it but this one is mine"
  ++ [Char.newline]
  ++ js "            A b, C D, " ++ dq (js "E F G") ++ js ", h)"
  ++ [Char.newline]
  ++ js "    ".

Definition testNormaliseSql_expected : jsstring :=
  js "CREATE TABLE Node(A b,C D," ++ dq (js "E F G") ++ js ",h)".

(* ================================================================== *)
(** * Part II. The migrator *)
(* ================================================================== *)

(** ** Strings: equality, [endsWith], [join], numbers in template literals *)

Fixpoint str_eqb (a b : jsstring) : bool :=
  match a, b with
  | [], [] => true
  | x :: a', y :: b' => (x =? y) && str_eqb a' b'
  | _, _ => false
  end.

(** [s.endsWith(suffix)]. *)
Definition endsWith (s suffix : jsstring) : bool :=
  (List.length suffix <=? List.length s)%nat
  && str_eqb (skipn (List.length s - List.length suffix) s) suffix.

(** [Array.prototype.join]; also how an array of strings is printed inside
    a template literal (separator [","]). *)
Fixpoint join (sep : jsstring) (l : list jsstring) : jsstring :=
  match l with
  | [] => []
  | [x] => x
  | x :: r => x ++ sep ++ join sep r
  end.

(** An integer in a template literal. *)
Definition show_int (z : Z) : jsstring :=
  js (NilEmpty.string_of_int (Z.to_int z)).

(** A possibly [undefined] number in a template literal. *)
Definition show_num (v : option Z) : jsstring :=
  match v with
  | Some z => show_int z
  | None => js "undefined"
  end.

Definition migration_suffix : jsstring := js "_migration_new".

(** ** [Map] and [Set] of JavaScript, which iterate in insertion order *)

Section JsCollections.
Context {V : Type}.

Definition JsMap := list (jsstring * V).

(** [m.set(k, v)]: an existing key keeps its place. *)
Fixpoint map_set (k : jsstring) (v : V) (m : JsMap) : JsMap :=
  match m with
  | [] => [(k, v)]
  | (k', v') :: r =>
      if str_eqb k k' then (k, v) :: r else (k', v') :: map_set k v r
  end.

(** [new Map(entries)]. *)
Definition Map_of (entries : list (jsstring * V)) : JsMap :=
  fold_left (fun m e => map_set (fst e) (snd e) m) entries [].

(** [m.get(k)]; [None] is [undefined]. *)
Fixpoint map_get (k : jsstring) (m : JsMap) : option V :=
  match m with
  | [] => None
  | (k', v) :: r => if str_eqb k k' then Some v else map_get k r
  end.

Definition map_has (k : jsstring) (m : JsMap) : bool :=
  match map_get k m with Some _ => true | None => false end.

Definition map_keys (m : JsMap) : list jsstring := map fst m.
End JsCollections.
Arguments JsMap V : clear implicits.

Definition JsSet := list jsstring.

Definition set_has (k : jsstring) (s : JsSet) : bool :=
  existsb (str_eqb k) s.

Definition set_add (k : jsstring) (s : JsSet) : JsSet :=
  if set_has k s then s else s ++ [k].

Definition set_delete (k : jsstring) (s : JsSet) : JsSet :=
  filter (fun x => negb (str_eqb x k)) s.

(** [new Set(iterable)]. *)
Definition Set_of (l : list jsstring) : JsSet :=
  fold_left (fun s k => set_add k s) l [].

(** ** The database handle

    [bun:sqlite] and SQLite itself are outside the repository.  The
    migrator reaches them through the few calls below; each field is the
    answer of the live engine to one of them. *)

(** A row of [SELECT name, sql FROM sqlite_master]. *)
Record TableInfo := { name : jsstring; sql : sqlval }.

(** A row of a [PRAGMA] query: an object keyed by column name. *)
Definition PragmaResult := list (jsstring * Z).

(** [row[key]]; [None] is [undefined]. *)
Fixpoint row_get (row : PragmaResult) (key : jsstring) : option Z :=
  match row with
  | [] => None
  | (k, v) :: r => if str_eqb key k then Some v else row_get r key
  end.

Record Engine := {
  DB : Type;
  (** [SELECT name, sql FROM sqlite_master WHERE type = 'table' AND name !=
      'sqlite_sequence'], all rows. *)
  master_tables : DB -> list TableInfo;
  (** [SELECT name, sql FROM sqlite_master WHERE type = 'index'], all rows. *)
  master_indices : DB -> list TableInfo;
  (** [SELECT name FROM sqlite_master WHERE type = 'table' AND name LIKE
      '%_migration_new'], all rows. *)
  leftover_temp_tables : DB -> list jsstring;
  (** The [name] column of [PRAGMA table_info(?)] bound to a table name;
      [None] when the engine raises. *)
  table_info_names : DB -> jsstring -> option (list jsstring);
  (** The value in the first row of [PRAGMA p], if there is a row. *)
  pragma_value : DB -> jsstring -> option Z;
  (** The number of rows of [PRAGMA foreign_key_check]. *)
  foreign_key_check_rows : DB -> nat;
  (** [db.run(sql)]: the database afterwards; [None] when the engine raises. *)
  run : DB -> jsstring -> option DB;
  (** [new Database(":memory:")] followed by [exec(schema)]; [None] when
      the schema text does not execute. *)
  exec_schema : jsstring -> option DB;
  (** [sql.replace(new RegExp("\\b" + tbl + "\\b", "g"), tbl +
      "_migration_new")], given [sql] and [tbl]; [None] when the table name
      is not a valid pattern and [RegExp] raises. *)
  retarget_sql : jsstring -> jsstring -> option jsstring
}.

(** What a call can raise. *)
Inductive exn :=
| Error (message : jsstring)     (* [throw new Error(message)] *)
| EngineError                    (* raised inside bun:sqlite *)
| RegExpError.                   (* raised by [new RegExp] *)

Inductive res (A : Type) :=
| Ret (a : A)
| Throw (e : exn).
Arguments Ret {A} a.
Arguments Throw {A} e.

(** One call of [logExecute]: what [console.log] is given. *)
Record LogEntry := { log_msg : jsstring; log_sql : sqlval }.

Section Migrator.
Variable E : Engine.

(** [Statement.get()] on [PRAGMA p]: the first row as an object.  The
    single column of [PRAGMA p] is named [p]. *)
Definition pragma_get (d : DB E) (p : jsstring) : option PragmaResult :=
  match pragma_value E d p with
  | Some v => Some [(p, v)]
  | None => None
  end.

(** The mutable part of a [DBMigrator] during [migrate]: the live
    database, [nChanges], and the console. *)
Record Run := { db : DB E; nChanges : nat; console : list LogEntry }.

Definition M (A : Type) := Run -> res A * Run.

Definition ret {A} (a : A) : M A := fun st => (Ret a, st).
Definition throw {A} (e : exn) : M A := fun st => (Throw e, st).
Definition bind {A B} (m : M A) (k : A -> M B) : M B := fun st =>
  match m st with
  | (Ret a, st') => k a st'
  | (Throw e, st') => (Throw e, st')
  end.
Definition get_db : M (DB E) := fun st => (Ret (db st), st).

Notation "x <- m ;; k" := (bind m (fun x => k))
  (at level 61, m at next level, right associativity).
Notation "m ;; k" := (bind m (fun _ => k))
  (at level 61, right associativity).

(** [for (const x of l) body]. *)
Fixpoint for_of {A} (l : list A) (body : A -> M unit) : M unit :=
  match l with
  | [] => ret tt
  | x :: r => body x ;; for_of r body
  end.

(** [this.db.run(sql)] outside [logExecute]. *)
Definition db_run (q : jsstring) : M unit := fun st =>
  match run E (db st) q with
  | Some d => (Ret tt, {| db := d; nChanges := nChanges st;
                          console := console st |})
  | None => (Throw EngineError, st)
  end.

(** [sql && sql.trim()]. *)
Definition nonblank (q : sqlval) : bool :=
  match q with
  | Some (c :: r) =>
      match trim (c :: r) with [] => false | _ :: _ => true end
  | _ => false
  end.

(** [logExecute], src/migrate.ts lines 94-118.  The message goes to the
    console whatever the SQL; a non-blank SQL is run and counted. *)
Definition logExecute (msg : jsstring) (q : sqlval) : M unit := fun st =>
  let st1 := {| db := db st; nChanges := nChanges st;
                console := console st ++ [{| log_msg := msg; log_sql := q |}] |} in
  match q with
  | Some s =>
      if nonblank q then
        match run E (db st1) s with
        | Some d => (Ret tt, {| db := d; nChanges := S (nChanges st1);
                                console := console st1 |})
        | None => (Throw EngineError, st1)
        end
      else (Ret tt, st1)
  | None => (Ret tt, st1)
  end.

(** [if (sql)] on a value read from a map. *)
Definition truthy_sql (v : option sqlval) : bool :=
  match v with
  | Some (Some (_ :: _)) => true
  | _ => false
  end.

(** [undefined] and [null] both reach [logExecute] as a falsy [sql]. *)
Definition flat (v : option sqlval) : sqlval :=
  match v with Some q => q | None => None end.

Definition rows (l : list TableInfo) : list (jsstring * sqlval) :=
  map (fun item => (name item, sql item)) l.

(** *** Classification, src/migrate.ts lines 124-160 *)

Definition newTables_of (pristineTables tables : JsMap sqlval) : JsSet :=
  fold_left (fun s tableName => set_delete tableName s)
    (map_keys tables) (Set_of (map_keys pristineTables)).

(** The third loop walks [removedTables] while deleting from it; only the
    element being visited is ever deleted, so every element present at
    the start is visited. *)
Definition removedTables_of (pristineTables tables : JsMap sqlval) : JsSet :=
  let removed :=
    fold_left (fun s tableName => set_delete tableName s)
      (map_keys pristineTables) (Set_of (map_keys tables)) in
  fold_left (fun s tableName =>
               if endsWith tableName migration_suffix
               then set_delete tableName s else s)
    removed removed.

Definition modifiedTables_of (pristineTables tables : JsMap sqlval) : JsSet :=
  Set_of
    (map fst
       (filter (fun entry =>
                  match map_get (fst entry) tables with
                  | Some existingTableSql =>
                      negb (str_eqb (normaliseSql existingTableSql)
                                    (normaliseSql (snd entry)))
                  | None => false
                  end)
               pristineTables)).

(** The three errors [migrate] throws itself: lines 150 and 207 (the
    specification's DestructiveChangeRejected) and line 259 (its
    ForeignKeyViolation). *)
Definition refusing_to_delete_tables (removedTables : JsSet) : exn :=
  Error (js "Database migration: Refusing to delete tables "
         ++ join (js ",") removedTables).

Definition refusing_to_remove_columns (removedColumns : JsSet)
    (tblName : jsstring) : exn :=
  Error (js "Database migration: Refusing to remove columns "
         ++ join (js ",") removedColumns ++ js " from table " ++ tblName).

Definition would_fail_foreign_key_check : exn :=
  Error (js "Database migration: Would fail foreign_key_check").

(** *** The phases of [migrate], in source order *)

Variable pristine : DB E.
Variable allowDeletions : bool.

(** Lines 170-177: new tables. *)
Definition create_new_tables (pristineTables : JsMap sqlval)
    (newTables : JsSet) : M unit :=
  for_of newTables (fun tblName =>
    let tableSql := map_get tblName pristineTables in
    if truthy_sql tableSql
    then logExecute (js "Create table " ++ tblName) (flat tableSql)
    else ret tt).

(** Lines 178-180: removed tables. *)
Definition drop_removed_tables (removedTables : JsSet) : M unit :=
  for_of removedTables (fun tblName =>
    logExecute (js "Drop table " ++ tblName)
               (Some (js "DROP TABLE " ++ tblName))).

(** [PRAGMA table_info(?)] as a set of column names. *)
Definition table_columns (d : DB E) (tblName : jsstring) : M JsSet :=
  match table_info_names E d tblName with
  | Some names => ret (Set_of names)
  | None => throw EngineError
  end.

(** Lines 182-230: the rebuild of one modified table. *)
Definition rebuild_table (pristineTables : JsMap sqlval)
    (tblName : jsstring) : M unit :=
  match map_get tblName pristineTables with
  | Some (Some (c :: r)) =>
      let createTableSql := c :: r in
      match retarget_sql E createTableSql tblName with
      | None => throw RegExpError
      | Some newTableSql =>
          logExecute
            (js "Columns change: Create table " ++ tblName
             ++ js " with updated schema")
            (Some newTableSql) ;;
          d <- get_db ;;
          cols <- table_columns d tblName ;;
          pristineCols <- table_columns pristine tblName ;;
          let removedColumns :=
            filter (fun x => negb (set_has x pristineCols)) cols in
          if negb allowDeletions && (0 <? List.length removedColumns)%nat
          then throw (refusing_to_remove_columns removedColumns tblName)
          else
            let common :=
              join (js ", ") (filter (fun x => set_has x pristineCols) cols) in
            logExecute
              (js "Migrate data for table " ++ tblName)
              (Some (js "INSERT INTO " ++ tblName ++ js "_migration_new ("
                     ++ common ++ js ")" ++ [Char.newline]
                     ++ js "                SELECT " ++ common
                     ++ js " FROM " ++ tblName)) ;;
            logExecute
              (js "Drop old table " ++ tblName
               ++ js " now data has been migrated")
              (Some (js "DROP TABLE " ++ tblName)) ;;
            logExecute
              (js "Columns change: Move new table " ++ tblName
               ++ js " over old")
              (Some (js "ALTER TABLE " ++ tblName
                     ++ js "_migration_new RENAME TO " ++ tblName))
      end
  | _ => ret tt
  end.

Definition rebuild_modified_tables (pristineTables : JsMap sqlval)
    (modifiedTables : JsSet) : M unit :=
  for_of modifiedTables (rebuild_table pristineTables).

(** [sql !== indices.get(name)]. *)
Definition sqlval_eqb (a b : sqlval) : bool :=
  match a, b with
  | None, None => true
  | Some x, Some y => str_eqb x y
  | _, _ => false
  end.

Definition strict_neq (q : sqlval) (v : option sqlval) : bool :=
  match v with
  | Some q' => negb (sqlval_eqb q q')
  | None => true
  end.

Definition drop_index_sql (idx : jsstring) : sqlval :=
  Some (js "DROP INDEX " ++ idx).

(** Lines 233-253: the indices, read from the live database after the
    table phases. *)
Definition migrate_indices (pristineIndices : JsMap sqlval) : M unit :=
  d <- get_db ;;
  let indices := Map_of (rows (master_indices E d)) in
  for_of (map_keys indices) (fun idx =>
    if negb (map_has idx pristineIndices)
    then logExecute (js "Dropping obsolete index " ++ idx) (drop_index_sql idx)
    else ret tt) ;;
  for_of pristineIndices (fun entry =>
    let idx := fst entry in
    let q := snd entry in
    if negb (map_has idx indices)
    then logExecute (js "Creating new index " ++ idx) q
    else if strict_neq q (map_get idx indices)
    then
      logExecute (js "Index " ++ idx ++ js " changed: Dropping old version")
                 (drop_index_sql idx) ;;
      logExecute
        (js "Index " ++ idx
         ++ js " changed: Creating updated version in its place") q
    else ret tt).

(** [===] on two numbers, either of which may be [undefined]. *)
Definition num_strict_eqb (a b : option Z) : bool :=
  match a, b with
  | Some x, Some y => (x =? y)%Z
  | None, None => true
  | _, _ => false
  end.

(** [migratePragma], lines 270-285. *)
Definition migratePragma (pragma : jsstring) : M unit :=
  d <- get_db ;;
  match pragma_get pristine pragma, pragma_get d pragma with
  | Some pristineVal, Some val =>
      let pristinePragmaValue := row_get pristineVal pragma in
      let currentPragmaValue := row_get val pragma in
      if num_strict_eqb currentPragmaValue pristinePragmaValue
      then ret tt
      else
        logExecute
          (js "Set " ++ pragma ++ js " to " ++ show_num pristinePragmaValue
           ++ js " from " ++ show_num currentPragmaValue)
          (Some (js "PRAGMA " ++ pragma ++ js " = "
                 ++ show_num pristinePragmaValue))
  | _, _ => ret tt
  end.

(** Lines 257-261.  [get()?.[0]] reads the property named [0] of the row
    object; a number is truthy when it is not zero. *)
Definition check_foreign_keys : M unit :=
  d <- get_db ;;
  let enabled :=
    match pragma_get pristine (js "foreign_keys") with
    | Some row =>
        match row_get row (js "0") with
        | Some v => negb (v =? 0)%Z
        | None => false
        end
    | None => false
    end in
  if enabled
  then
    if (0 <? foreign_key_check_rows E d)%nat
    then throw would_fail_foreign_key_check
    else ret tt
  else ret tt.

(** Lines 263-267: leftover temporary tables. *)
Definition drop_leftover_tables : M unit :=
  d <- get_db ;;
  for_of (leftover_temp_tables E d) (fun leftover =>
    logExecute (js "Removing leftover temporary table")
               (Some (js "DROP TABLE IF EXISTS " ++ leftover))).

(** Everything between the deletion guard and the leftover cleanup,
    lines 162-261. *)
Definition apply_plan (pristineTables pristineIndices : JsMap sqlval)
    (newTables removedTables modifiedTables : JsSet) : M unit :=
  db_run (js "PRAGMA defer_foreign_keys = TRUE") ;;
  create_new_tables pristineTables newTables ;;
  drop_removed_tables removedTables ;;
  rebuild_modified_tables pristineTables modifiedTables ;;
  migrate_indices pristineIndices ;;
  migratePragma (js "user_version") ;;
  check_foreign_keys.

(** [DBMigrator.migrate], src/migrate.ts lines 120-268. *)
Definition migrate : M unit :=
  let pristineTables := Map_of (rows (master_tables E pristine)) in
  let pristineIndices := Map_of (rows (master_indices E pristine)) in
  d <- get_db ;;
  let tables := Map_of (rows (master_tables E d)) in
  let newTables := newTables_of pristineTables tables in
  let removedTables := removedTables_of pristineTables tables in
  if (0 <? List.length removedTables)%nat && negb allowDeletions
  then throw (refusing_to_delete_tables removedTables)
  else
    let modifiedTables := modifiedTables_of pristineTables tables in
    apply_plan pristineTables pristineIndices
               newTables removedTables modifiedTables ;;
    drop_leftover_tables.
End Migrator.

Arguments db {E} r.
Arguments nChanges {E} r.
Arguments console {E} r.
Arguments ret {E A} a.
Arguments throw {E A} e.
Arguments bind {E A B} m k.
Arguments get_db {E}.
Arguments for_of {E A} l body.
Arguments db_run {E} q.
Arguments logExecute {E} msg q.

(** The state a fresh [DBMigrator] starts [migrate] in. *)
Definition start (E : Engine) (d : DB E) : Run E :=
  {| db := d; nChanges := 0; console := [] |}.

(** [dumbMigrateDb], src/migrate.ts lines 68-72: the constructor builds the
    pristine database from the schema text, then [migrate] runs and the
    answer is [nChanges > 0]. *)
Definition dumbMigrateDb (E : Engine) (d : DB E) (schema : jsstring)
    (allowDeletions : bool) : res bool * Run E :=
  match exec_schema E schema with
  | None => (Throw EngineError, start E d)
  | Some pristine =>
      match migrate E pristine allowDeletions (start E d) with
      | (Ret _, st) => (Ret (0 <? nChanges st)%nat, st)
      | (Throw e, st) => (Throw e, st)
      end
  end.

(** ** The text [logExecute] prints: [leftPad] and [dedent]

    A truthy [sql] reaches [console.log] as [leftPad(dedent(sql))], line
    101. *)

(** [s.split(sep)] for a separator of one code unit: the pieces between
    the separators; there is always at least one. *)
Fixpoint split_at (sep : N) (s : jsstring) : list jsstring :=
  match s with
  | [] => [[]]
  | c :: r =>
      if c =? sep then [] :: split_at sep r
      else match split_at sep r with
           | piece :: pieces => (c :: piece) :: pieces
           | [] => [[c]]
           end
  end.

(** [text.split('\n')] and [lines.join('\n')]. *)
Definition split_lines (text : jsstring) : list jsstring :=
  split_at Char.newline text.

Definition join_lines (lines : list jsstring) : jsstring :=
  join [Char.newline] lines.

(** The default value of [indent]. *)
Definition default_indent : jsstring := js "    ".

(** [leftPad], src/migrate.ts lines 305-307. *)
Definition leftPad (text indent : jsstring) : jsstring :=
  join_lines (map (fun line => indent ++ line) (split_lines text)).

(** [line.trim()] as the condition of [filter]: the trimmed line is not
    empty. *)
Definition truthy_trim (line : jsstring) : bool :=
  match trim line with [] => false | _ :: _ => true end.

(** [line.match(/^\s*/)?.[0].length].  The expression matches every
    string, so the [?? Infinity] is never taken. *)
Definition leading_space (line : jsstring) : nat :=
  List.length (take_while Char.is_space line).

(** [Math.min(...l)]; [None] is [Infinity], the answer for no argument. *)
Fixpoint math_min (l : list nat) : option nat :=
  match l with
  | [] => None
  | n :: r =>
      match math_min r with
      | Some m => Some (Nat.min n m)
      | None => Some n
      end
  end.

(** [line.slice(start)] for a [start] that is not negative;
    [slice(Infinity)] is the empty string. *)
Definition slice_from (start : option nat) (line : jsstring) : jsstring :=
  match start with
  | Some n => skipn n line
  | None => []
  end.

(** [dedent], src/migrate.ts lines 309-313. *)
Definition dedent (text : jsstring) : jsstring :=
  let lines := split_lines text in
  let minIndent :=
    math_min (map leading_space (filter truthy_trim lines)) in
  join_lines (map (slice_from minIndent) lines).

(** What line 101 hands to [console.log]. *)
Definition printed_sql (q : jsstring) : jsstring :=
  leftPad (dedent q) default_indent.

(* ================================================================== *)
(** * A catalog-level engine

    A small executable stand-in for bun:sqlite, used to run the migrator on
    concrete databases.  It keeps what [sqlite_master] and the two pragmas
    show, and understands the statements the migrator issues on plain
    schemas (names made of word characters).  The table rebuild is not
    supported: [PRAGMA table_info(?)] and the table-name [RegExp] raise. *)
(* ================================================================== *)

Module Catalog.

Record t := {
  tables : list TableInfo;
  indices : list TableInfo;
  user_version : Z;
  foreign_keys : Z;
  fk_violations : nat
}.

Definition empty : t :=
  {| tables := []; indices := []; user_version := 0; foreign_keys := 0;
     fk_violations := 0 |}.

Fixpoint strip_prefix (p s : jsstring) : option jsstring :=
  match p, s with
  | [], _ => Some s
  | x :: p', y :: s' => if x =? y then strip_prefix p' s' else None
  | _ :: _, [] => None
  end.

Definition has_row (n : jsstring) (l : list TableInfo) : bool :=
  existsb (fun r => str_eqb (name r) n) l.

Definition remove_row (n : jsstring) (l : list TableInfo) : list TableInfo :=
  filter (fun r => negb (str_eqb (name r) n)) l.

Definition with_tables (d : t) (l : list TableInfo) : t :=
  {| tables := l; indices := indices d; user_version := user_version d;
     foreign_keys := foreign_keys d; fk_violations := fk_violations d |}.

Definition with_indices (d : t) (l : list TableInfo) : t :=
  {| tables := tables d; indices := l; user_version := user_version d;
     foreign_keys := foreign_keys d; fk_violations := fk_violations d |}.

Definition with_user_version (d : t) (v : Z) : t :=
  {| tables := tables d; indices := indices d; user_version := v;
     foreign_keys := foreign_keys d; fk_violations := fk_violations d |}.

Definition with_foreign_keys (d : t) (v : Z) : t :=
  {| tables := tables d; indices := indices d;
     user_version := user_version d; foreign_keys := v;
     fk_violations := fk_violations d |}.

(** A run of decimal digits as a number. *)
Definition parse_digits (s : jsstring) : option Z :=
  match s with
  | [] => None
  | _ =>
      fold_left (fun acc c =>
                   match acc with
                   | Some z =>
                       if (48 <=? c) && (c <=? 57)
                       then Some (10 * z + Z.of_N (c - 48))%Z
                       else None
                   | None => None
                   end) s (Some 0%Z)
  end.

Definition parse_int (s : jsstring) : option Z :=
  match s with
  | c :: r => if Char.is_dash c
              then option_map Z.opp (parse_digits r)
              else parse_digits s
  | [] => None
  end.

(** The name that follows [CREATE TABLE ] or [CREATE INDEX ]. *)
Definition leading_name (s : jsstring) : jsstring :=
  take_while Char.is_word s.

(** SQLite's [LIKE '%_migration_new']: [%] is any text, [_] any one
    character, letters compare without case. *)
Definition lower (c : N) : N :=
  if (65 <=? c) && (c <=? 90) then c + 32 else c.

Fixpoint like_tail (pat s : jsstring) : bool :=
  match pat, s with
  | [], [] => true
  | p :: pat', c :: s' =>
      ((p =? 95) || (lower p =? lower c)) && like_tail pat' s'
  | _, _ => false
  end.

Definition like_migration_new (n : jsstring) : bool :=
  (List.length migration_suffix <=? List.length n)%nat
  && like_tail migration_suffix
       (skipn (List.length n - List.length migration_suffix) n).

Definition step (d : t) (q : jsstring) : option t :=
  match strip_prefix (js "DROP TABLE IF EXISTS ") q with
  | Some n => Some (with_tables d (remove_row n (tables d)))
  | None =>
  match strip_prefix (js "DROP TABLE ") q with
  | Some n =>
      if has_row n (tables d)
      then Some (with_tables d (remove_row n (tables d)))
      else None
  | None =>
  match strip_prefix (js "DROP INDEX ") q with
  | Some n =>
      if has_row n (indices d)
      then Some (with_indices d (remove_row n (indices d)))
      else None
  | None =>
  match strip_prefix (js "CREATE TABLE ") q with
  | Some r =>
      let n := leading_name r in
      if has_row n (tables d) then None
      else Some (with_tables d (tables d ++ [{| name := n; sql := Some q |}]))
  | None =>
  match strip_prefix (js "CREATE INDEX ") q with
  | Some r =>
      let n := leading_name r in
      if has_row n (indices d) then None
      else Some (with_indices d (indices d ++ [{| name := n; sql := Some q |}]))
  | None =>
  match strip_prefix (js "PRAGMA user_version = ") q with
  | Some v => option_map (with_user_version d) (parse_int v)
  | None =>
  match strip_prefix (js "PRAGMA foreign_keys = ") q with
  | Some v => option_map (with_foreign_keys d) (parse_int v)
  | None =>
  match strip_prefix (js "PRAGMA defer_foreign_keys = ") q with
  | Some _ => Some d
  | None => None
  end end end end end end end end.

Definition read_pragma (d : t) (p : jsstring) : option Z :=
  if str_eqb p (js "user_version") then Some (user_version d)
  else if str_eqb p (js "foreign_keys") then Some (foreign_keys d)
  else None.

(** Statements of a schema text, separated by [;]. *)
Fixpoint statements (cur : jsstring) (s : jsstring) : list jsstring :=
  match s with
  | [] => [trim (rev cur)]
  | c :: r => if c =? 59 then trim (rev cur) :: statements [] r
              else statements (c :: cur) r
  end.

Definition load (schema : jsstring) : option t :=
  fold_left (fun acc stmt =>
               match acc, stmt with
               | Some d, _ :: _ => step d stmt
               | _, _ => acc
               end)
    (statements [] schema) (Some empty).

Definition engine : Engine := {|
  DB := t;
  master_tables := tables;
  master_indices := indices;
  leftover_temp_tables := fun d =>
    filter like_migration_new (map name (tables d));
  table_info_names := fun _ _ => None;
  pragma_value := read_pragma;
  foreign_key_check_rows := fk_violations;
  run := step;
  exec_schema := load;
  retarget_sql := fun _ _ => None
|}.

End Catalog.

(* ================================================================== *)
(** * An engine with the table-name substitution

    The catalog-level engine with the substitution of line 192 for table
    names made of word characters, so that the rebuild of a table gets as
    far as its first statement.  Like SQLite, it accepts no parameter in
    a [PRAGMA]: the query [PRAGMA table_info(?)] of lines 198 and 199
    raises. *)
(* ================================================================== *)

Module Retarget.

Fixpoint starts_with (p s : jsstring) : bool :=
  match p, s with
  | [], _ => true
  | x :: p', y :: s' => (x =? y) && starts_with p' s'
  | _ :: _, [] => false
  end.

(** [\bNAME\b] replaced throughout by [NAME_migration_new], for a [NAME]
    made of word characters: [NAME] matches where it neither follows nor
    precedes a word character.  [skip] counts the characters of a match
    still to pass over. *)
Fixpoint retarget_from (tbl : jsstring) (skip : nat) (after_word : bool)
    (s : jsstring) : jsstring :=
  match s with
  | [] => []
  | c :: r =>
      match skip with
      | S k => retarget_from tbl k (Char.is_word c) r
      | O =>
          if negb after_word && starts_with tbl s
             && negb match skipn (List.length tbl) s with
                     | x :: _ => Char.is_word x
                     | [] => false
                     end
          then tbl ++ migration_suffix
               ++ retarget_from tbl (List.length tbl - 1) (Char.is_word c) r
          else c :: retarget_from tbl 0 (Char.is_word c) r
      end
  end.

Definition retarget (q tbl : jsstring) : option jsstring :=
  match tbl with
  | [] => None
  | _ :: _ =>
      if forallb Char.is_word tbl
      then Some (retarget_from tbl 0 false q)
      else None
  end.

Definition retargeting_engine : Engine := {|
  DB := Catalog.t;
  master_tables := Catalog.tables;
  master_indices := Catalog.indices;
  leftover_temp_tables := fun d =>
    filter Catalog.like_migration_new (map name (Catalog.tables d));
  table_info_names := fun _ _ => None;
  pragma_value := Catalog.read_pragma;
  foreign_key_check_rows := Catalog.fk_violations;
  run := Catalog.step;
  exec_schema := Catalog.load;
  retarget_sql := retarget
|}.

End Retarget.

(* ================================================================== *)
(** * Part III. What the properties are stated with *)
(* ================================================================== *)

(** ** The shape of a canonical string *)

Definition head_char (s : jsstring) : option N :=
  match s with
  | [] => None
  | c :: _ => Some c
  end.

Fixpoint last_char (s : jsstring) : option N :=
  match s with
  | [] => None
  | c :: r => match r with [] => Some c | _ :: _ => last_char r end
  end.

(** No two neighbours of [s] are related by [bad]. *)
Fixpoint no_pair (bad : N -> N -> bool) (s : jsstring) : Prop :=
  match s with
  | [] => True
  | a :: r =>
      match r with [] => True | b :: _ => bad a b = false end /\ no_pair bad r
  end.

(** Two blanks in a row. *)
Definition twoblank (a b : N) : bool :=
  Char.is_blank a && Char.is_blank b.

(** A blank next to a blank or to one of [(),]. *)
Definition clash (a b : N) : bool :=
  (Char.is_blank a && (Char.is_blank b || Char.is_punct b))
  || (Char.is_punct a && Char.is_blank b).

(** Every white space character is a plain blank. *)
Definition blank_only (s : jsstring) : Prop :=
  Forall (fun c => Char.is_space c = true -> c = Char.space) s.

(** What [normaliseSql] produces: blanks are the only white space, none is
    doubled, none touches [(),], none starts or ends the string. *)
Definition tidy (s : jsstring) : Prop :=
  blank_only s /\ no_pair clash s
  /\ match head_char s with Some c => Char.is_space c = false | None => True end
  /\ match last_char s with Some c => Char.is_space c = false | None => True end.

(** A match of each regular expression consumes input, so the replace
    loop never runs out of fuel. *)
Definition shrinking (m : matcher) : Prop :=
  forall s out rest,
    m s = Some (out, rest) -> (List.length rest < List.length s)%nat.

(** ** Strings that differ only in layout *)

Definition no_newline (s : jsstring) : bool :=
  forallb (fun x => negb (Char.is_newline x)) s.

(** The two dashes that open a comment. *)
Definition dashes : jsstring := [Char.dash; Char.dash].

(** Some [--] of [s] has no newline after it within [s]: what follows [s]
    would still be inside that comment, or end it. *)
Fixpoint unclosed_comment (s : jsstring) : bool :=
  match s with
  | [] => false
  | c :: r =>
      (Char.is_dash c
       && match r with
          | d :: r' => Char.is_dash d && no_newline r'
          | [] => false
          end)
      || unclosed_comment r
  end.

(** [s] is empty, or ends with a character that is neither a word
    character, nor a double quote, nor a newline. *)
Definition quote_ok (s : jsstring) : bool :=
  match last_char s with
  | None => true
  | Some c =>
      negb (Char.is_word c || Char.is_dquote c || Char.is_newline c)
  end.

(** Word characters and double quotes pass the first three stages as they
    are. *)
Definition plain (q : jsstring) : bool :=
  forallb (fun c => Char.is_word c || Char.is_dquote c) q.

(** [s] ends with a dash, which would join a [--] put after it. *)
Definition ends_in_dash (s : jsstring) : bool :=
  match last_char s with
  | Some c => Char.is_dash c
  | None => false
  end.

(** What follows [u] meets no open comment of [u]: no [--] of [u] is left
    unclosed, or [rest] has no newline to close it with. *)
Definition settled (u rest : jsstring) : bool :=
  negb (unclosed_comment u) || no_newline rest.

(** One difference of layout between two strings:
    - the text of a [--] comment that a newline closes;
    - the length and the characters of a run of white space;
    - double quotes around a run of word characters, where the run of
      word characters before the opening quote, if any, follows the start
      of the string or a character other than a word character, a double
      quote and a newline;
    - a [--] comment with the newline that closes it, where no comment is
      open and no dash comes before it;
    - white space on either side of one of the characters [(] [)] [,];
    - white space at the start of the string;
    - white space at the end of the string.
    White space and quotes are compared where they are [settled]: where
    they lie in no comment, or in one that the text after them does not
    close. *)
Inductive layout_step : jsstring -> jsstring -> Prop :=
| comment_text u c1 c2 v :
    no_newline c1 = true -> no_newline c2 = true ->
    layout_step (u ++ dashes ++ c1 ++ Char.newline :: v)
                (u ++ dashes ++ c2 ++ Char.newline :: v)
| space_run u w1 w2 v :
    w1 <> [] -> w2 <> [] ->
    forallb Char.is_space w1 = true -> forallb Char.is_space w2 = true ->
    settled u (w1 ++ w2 ++ v) = true ->
    layout_step (u ++ w1 ++ v) (u ++ w2 ++ v)
| quoted_word u r w v :
    w <> [] -> forallb Char.is_word w = true ->
    forallb Char.is_word r = true ->
    settled u v = true -> quote_ok u = true ->
    layout_step (u ++ r ++ dq w ++ v) (u ++ r ++ w ++ v)
| comment_gone u c v :
    no_newline c = true ->
    unclosed_comment u = false -> ends_in_dash u = false ->
    layout_step (u ++ dashes ++ c ++ Char.newline :: v) (u ++ v)
| space_at_punct u w p w' v :
    forallb Char.is_space w = true -> forallb Char.is_space w' = true ->
    Char.is_punct p = true -> settled u (w ++ w' ++ v) = true ->
    layout_step (u ++ w ++ p :: w' ++ v) (u ++ p :: v)
| space_at_start w v :
    forallb Char.is_space w = true -> layout_step (w ++ v) v
| space_at_end u w :
    forallb Char.is_space w = true -> settled u w = true ->
    layout_step (u ++ w) u.

(** Any number of such differences, in either direction. *)
Definition same_layout : jsstring -> jsstring -> Prop :=
  clos_refl_sym_trans jsstring layout_step.

(** ** What a phase of [migrate] logs *)

Definition entry (msg : jsstring) (q : sqlval) : LogEntry :=
  {| log_msg := msg; log_sql := q |}.

(** A list of [logExecute] calls, in order. *)
Definition log_all {E : Engine} (ops : list LogEntry) : M E unit :=
  for_of ops (fun e => logExecute (log_msg e) (log_sql e)).

(** The console only grows. *)
Definition grows {E : Engine} {A} (m : M E A) : Prop :=
  forall st r st', m st = (r, st') ->
                   exists l, console st' = console st ++ l.

(** The calls of lines 173, 179, 237, 242, 244-251, 266 and 279-282. *)
Definition create_entry (t : jsstring) (q : sqlval) : LogEntry :=
  entry (js "Create table " ++ t) q.

Definition drop_entry (t : jsstring) : LogEntry :=
  entry (js "Drop table " ++ t) (Some (js "DROP TABLE " ++ t)).

Definition obsolete_index_entry (idx : jsstring) : LogEntry :=
  entry (js "Dropping obsolete index " ++ idx) (drop_index_sql idx).

Definition new_index_entry (idx : jsstring) (q : sqlval) : LogEntry :=
  entry (js "Creating new index " ++ idx) q.

Definition changed_index_drop (idx : jsstring) : LogEntry :=
  entry (js "Index " ++ idx ++ js " changed: Dropping old version")
        (drop_index_sql idx).

Definition changed_index_create (idx : jsstring) (q : sqlval) : LogEntry :=
  entry (js "Index " ++ idx
         ++ js " changed: Creating updated version in its place") q.

Definition leftover_entry (t : jsstring) : LogEntry :=
  entry (js "Removing leftover temporary table")
        (Some (js "DROP TABLE IF EXISTS " ++ t)).

Definition set_pragma_entry (pragma : jsstring) (target current : Z)
    : LogEntry :=
  entry (js "Set " ++ pragma ++ js " to " ++ show_int target
         ++ js " from " ++ show_int current)
        (Some (js "PRAGMA " ++ pragma ++ js " = " ++ show_int target)).

(** The messages that [migrate] can log about the index [idx]. *)
Definition index_messages (idx : jsstring) : list jsstring :=
  [ js "Dropping obsolete index " ++ idx;
    js "Creating new index " ++ idx;
    js "Index " ++ idx ++ js " changed: Dropping old version";
    js "Index " ++ idx
    ++ js " changed: Creating updated version in its place" ].

(** The calls of the new-tables loop, in order. *)
Definition create_plan (pristineTables : JsMap sqlval) (newTables : JsSet)
    : list LogEntry :=
  flat_map (fun t =>
              if truthy_sql (map_get t pristineTables)
              then [create_entry t (flat (map_get t pristineTables))]
              else [])
           newTables.

(** The calls of the two index loops, in order. *)
Definition index_plan_one (indices : JsMap sqlval)
    (e : jsstring * sqlval) : list LogEntry :=
  if negb (map_has (fst e) indices)
  then [new_index_entry (fst e) (snd e)]
  else if strict_neq (snd e) (map_get (fst e) indices)
       then [changed_index_drop (fst e); changed_index_create (fst e) (snd e)]
       else [].

Definition index_plan (indices pristineIndices : JsMap sqlval)
    : list LogEntry :=
  flat_map (fun idx =>
              if negb (map_has idx pristineIndices)
              then [obsolete_index_entry idx] else [])
           (map_keys indices)
  ++ flat_map (index_plan_one indices) pristineIndices.

(** ** The table of a run, from its creation to the cleanup *)








(** ** A database that matches its target *)



(** ** What the engine is relied on for *)



(** ** Example databases for the catalog-level engine *)

Definition table_row (n q : string) : TableInfo :=
  {| name := js n; sql := Some (js q) |}.

(** A user table and a leftover of an interrupted rebuild. *)
Definition db_old_and_leftover : Catalog.t :=
  Catalog.with_tables Catalog.empty
    [ table_row "old" "CREATE TABLE old(a)";
      table_row "x_migration_new" "CREATE TABLE x_migration_new(a)" ].



(** A target with one plain table. *)
Definition db_plain_target : Catalog.t :=
  Catalog.with_tables Catalog.empty [ table_row "t" "CREATE TABLE t(a)" ].


(** A live database with the plain table and a leftover. *)
Definition db_with_leftover : Catalog.t :=
  Catalog.with_tables Catalog.empty
    [ table_row "t" "CREATE TABLE t(a)";
      table_row "t_migration_new" "CREATE TABLE t_migration_new(a, b)" ].

(** A target that turns foreign keys on, and a live database with the
    same tables in which one row of [c] points at no row of [p]. *)
Definition fk_schema : jsstring :=
  js "PRAGMA foreign_keys = 1; CREATE TABLE p(id INTEGER PRIMARY KEY); CREATE TABLE c(pid INTEGER REFERENCES p(id))".

Definition db_fk_violated : Catalog.t :=
  {| Catalog.tables :=
       [ table_row "p" "CREATE TABLE p(id INTEGER PRIMARY KEY)";
         table_row "c" "CREATE TABLE c(pid INTEGER REFERENCES p(id))" ];
     Catalog.indices := [];
     Catalog.user_version := 0;
     Catalog.foreign_keys := 0;
     Catalog.fk_violations := 1 |}.

(** Targets that differ from an empty database in one pragma. *)
Definition db_foreign_keys_on : Catalog.t :=
  Catalog.with_foreign_keys Catalog.empty 1.

Definition db_version_7 : Catalog.t :=
  Catalog.with_user_version Catalog.empty 7.

(** An index whose live text has one blank more than the target's. *)
Definition db_index_target : Catalog.t :=
  Catalog.with_indices db_plain_target
    [ table_row "i" "CREATE INDEX i ON t(a)" ].

Definition db_index_live : Catalog.t :=
  Catalog.with_indices db_plain_target
    [ table_row "i" "CREATE INDEX i ON t (a)" ].

(** ** The rebuild of a table *)



(** The calls of lines 193-196, 214-218, 221-224 and 226-229. *)
Definition rebuild_create_entry (tbl newTableSql : jsstring) : LogEntry :=
  entry (js "Columns change: Create table " ++ tbl
         ++ js " with updated schema")
        (Some newTableSql).





(** ** How a run ends *)

(** The logged call had SQL to run. *)
Definition executed (e : LogEntry) : bool := nonblank (log_sql e).

(** The errors a run may end with: those of the engine and of [RegExp],
    and, when deletions are not allowed, the two refusals. *)
Definition refusal (allowDeletions : bool) (e : exn) : Prop :=
  match e with
  | Error _ =>
      allowDeletions = false
      /\ ((exists tables, tables <> []
             /\ e = refusing_to_delete_tables tables)
          \/ (exists columns tbl, columns <> []
                /\ e = refusing_to_remove_columns columns tbl))
  | EngineError | RegExpError => True
  end.

(** Every run of [m] adds to the console; when it returns, [nChanges] has
    grown by the number of added calls that had SQL to run; when it
    raises, the error is one of [refusal]. *)
Definition accounted {E : Engine} {A} (allowDeletions : bool) (m : M E A)
    : Prop :=
  forall st r st',
    m st = (r, st') ->
    exists added,
      console st' = console st ++ added
      /\ match r with
         | Ret _ =>
             nChanges st'
             = (nChanges st + List.length (filter executed added))%nat
         | Throw e => refusal allowDeletions e
         end.

(** Every error that [m] raises is one of [Q]. *)
Definition raises_only {E : Engine} {A} (Q : exn -> Prop) (m : M E A)
    : Prop :=
  forall st e st', m st = (Throw e, st') -> Q e.

(** The error is not the refusal to remove columns, lines 204-211. *)
Definition no_column_refusal (e : exn) : Prop :=
  forall columns tbl, e <> refusing_to_remove_columns columns tbl.

(** ** Example databases for the rebuild of a table *)

(** A table that loses a column, and one that gains a column. *)
Definition db_two_columns : Catalog.t :=
  Catalog.with_tables Catalog.empty [ table_row "t" "CREATE TABLE t(a, b)" ].

Definition db_one_column : Catalog.t :=
  Catalog.with_tables Catalog.empty [ table_row "t" "CREATE TABLE t(a)" ].

(** A live database with an obsolete index and a table to delete. *)
Definition db_obsolete : Catalog.t :=
  Catalog.with_indices
    (Catalog.with_tables Catalog.empty
       [ table_row "t" "CREATE TABLE t(a)";
         table_row "old" "CREATE TABLE old(a)" ])
    [ table_row "j" "CREATE INDEX j ON t(a)" ].

(** A target with a second table and an index. *)
Definition db_grown_target : Catalog.t :=
  Catalog.with_indices
    (Catalog.with_tables Catalog.empty
       [ table_row "t" "CREATE TABLE t(a)";
         table_row "u" "CREATE TABLE u(b)" ])
    [ table_row "i" "CREATE INDEX i ON t(a)" ].

(* ================================================================== *)
(** * Part IV. The canonicalizer: lemmas and claims *)
(* ================================================================== *)

(** The repository's own test of [normaliseSql] passes on the model. *)
Example testNormaliseSql :
  normaliseSql (Some testNormaliseSql_input) = testNormaliseSql_expected.
Proof. vm_compute. reflexivity. Qed.

(** ** Induction on the length of a string *)

Lemma length_ind (P : list N -> Prop) :
  (forall s : list N,
      (forall t : list N, (List.length t < List.length s)%nat -> P t) -> P s) ->
  forall s : list N, P s.
Proof.
  intros step s.
  remember (List.length s) as n eqn:Hn.
  revert s Hn.
  induction n as [n IH] using lt_wf_ind.
  intros s Hn. apply step. intros t Ht.
  apply (IH (List.length t)); [lia | reflexivity].
Qed.

(** ** [drop_while] and [take_while] *)

Lemma drop_while_length (p : N -> bool) s :
  (List.length (drop_while p s) <= List.length s)%nat.
Proof.
  induction s as [|c r IH]; simpl; [lia|].
  destruct (p c); simpl; lia.
Qed.

Lemma take_drop_while (p : N -> bool) s : take_while p s ++ drop_while p s = s.
Proof.
  induction s as [|c r IH]; simpl; [reflexivity|].
  destruct (p c); simpl; [now rewrite IH | reflexivity].
Qed.

Lemma take_while_all (p : N -> bool) s : forallb p (take_while p s) = true.
Proof.
  induction s as [|c r IH]; simpl; [reflexivity|].
  destruct (p c) eqn:Hc; simpl; [now rewrite Hc | reflexivity].
Qed.

Lemma drop_while_head (p : N -> bool) s c r :
  drop_while p s = c :: r -> p c = false.
Proof.
  induction s as [|x s IH]; simpl; [discriminate|].
  destruct (p x) eqn:Hx; [exact IH|].
  intros H; injection H as -> _. exact Hx.
Qed.

Lemma drop_while_id (p : N -> bool) s :
  match s with [] => True | c :: _ => p c = false end -> drop_while p s = s.
Proof. destruct s as [|c r]; simpl; [reflexivity|]. now intros ->. Qed.

Lemma drop_while_all_app (p : N -> bool) w s :
  forallb p w = true -> drop_while p (w ++ s) = drop_while p s.
Proof.
  induction w as [|c w IH]; simpl; [reflexivity|].
  intros H. apply andb_true_iff in H as [-> H]. auto.
Qed.

Lemma take_while_all_app (p : N -> bool) w s :
  forallb p w = true -> take_while p (w ++ s) = w ++ take_while p s.
Proof.
  induction w as [|c w IH]; simpl; [reflexivity|].
  intros H. apply andb_true_iff in H as [-> H]. now rewrite IH.
Qed.

Lemma drop_while_all (p : N -> bool) w :
  forallb p w = true -> drop_while p w = [].
Proof.
  intros H. rewrite <- (app_nil_r w). now rewrite drop_while_all_app.
Qed.

(** A string is made of [p] throughout, or has a first element outside. *)
Lemma span_cases (p : N -> bool) s :
  forallb p s = true \/
  exists x y z, s = x ++ y :: z /\ forallb p x = true /\ p y = false.
Proof.
  induction s as [|c r IH]; simpl; [now left|].
  destruct (p c) eqn:Hc; simpl.
  - destruct IH as [H | (x & y & z & -> & Hx & Hy)]; [now left|].
    right. exists (c :: x), y, z. simpl. now rewrite Hc.
  - right. exists [], c, r. now simpl.
Qed.

Lemma drop_while_stop (p : N -> bool) x y z :
  forallb p x = true -> p y = false -> drop_while p (x ++ y :: z) = y :: z.
Proof.
  intros Hx Hy. rewrite drop_while_all_app by exact Hx. simpl. now rewrite Hy.
Qed.

Lemma take_while_stop (p : N -> bool) x y z :
  forallb p x = true -> p y = false -> take_while p (x ++ y :: z) = x.
Proof.
  intros Hx Hy. rewrite take_while_all_app by exact Hx. simpl.
  rewrite Hy. apply app_nil_r.
Qed.

(** ** The replace loop *)

Lemma replace_fuel_enough m (Hm : shrinking m) :
  forall n k s,
    (List.length s <= n)%nat -> (List.length s <= k)%nat ->
    replace_fuel m n s = replace_fuel m k s.
Proof.
  induction n as [|n IH]; intros k s Hn Hk.
  - destruct s; [|simpl in Hn; lia]. destruct k; reflexivity.
  - destruct k as [|k].
    + destruct s; [reflexivity | simpl in Hk; lia].
    + simpl. destruct s as [|c r]; [reflexivity|].
      destruct (m (c :: r)) as [[out rest]|] eqn:Hmatch.
      * apply Hm in Hmatch. simpl in *. f_equal. apply IH; lia.
      * simpl in *. f_equal. apply IH; lia.
Qed.

Lemma replace_all_nil m : replace_all m [] = [].
Proof. reflexivity. Qed.

Lemma replace_all_cons m (Hm : shrinking m) c r :
  replace_all m (c :: r) =
  match m (c :: r) with
  | Some (out, rest) => out ++ replace_all m rest
  | None => c :: replace_all m r
  end.
Proof.
  unfold replace_all. simpl.
  destruct (m (c :: r)) as [[out rest]|] eqn:Hmatch.
  - f_equal. apply replace_fuel_enough; trivial.
    apply Hm in Hmatch. simpl in Hmatch. lia.
  - reflexivity.
Qed.

Lemma after_newline_length s rest :
  after_newline s = Some rest -> (List.length rest < List.length s)%nat.
Proof.
  revert rest. induction s as [|c r IH]; simpl; [discriminate|].
  intros rest. destruct (Char.is_newline c).
  - intros H; injection H as <-. lia.
  - intros H. apply IH in H. lia.
Qed.

Lemma m_comment_shrinking : shrinking m_comment.
Proof.
  intros s out rest. unfold m_comment.
  destruct s as [|c1 [|c2 r]]; try discriminate.
  destruct (Char.is_dash c1 && Char.is_dash c2); [|discriminate].
  destruct (after_newline r) as [t|] eqn:Ht; [|discriminate].
  intros H; injection H as _ <-. apply after_newline_length in Ht.
  simpl. lia.
Qed.

Lemma m_space_shrinking : shrinking m_space.
Proof.
  intros s out rest. unfold m_space.
  destruct s as [|c r]; [discriminate|].
  destruct (Char.is_space c); [|discriminate].
  intros H; injection H as _ <-.
  pose proof (drop_while_length Char.is_space r). simpl. lia.
Qed.

Lemma m_punct_shrinking : shrinking m_punct.
Proof.
  intros s out rest. unfold m_punct.
  destruct (drop_while Char.is_blank s) as [|p r] eqn:Hd; [discriminate|].
  destruct (Char.is_punct p); [|discriminate].
  intros H; injection H as _ <-.
  pose proof (drop_while_length Char.is_blank s).
  pose proof (drop_while_length Char.is_blank r).
  rewrite Hd in *. simpl in *. lia.
Qed.

Lemma m_quoted_shrinking : shrinking m_quoted.
Proof.
  intros s out rest. unfold m_quoted.
  destruct s as [|q r]; [discriminate|].
  destruct (Char.is_dquote q); [|discriminate].
  destruct (take_while Char.is_word r) as [|w ws]; [discriminate|].
  destruct (drop_while Char.is_word r) as [|q' t] eqn:Hd; [discriminate|].
  destruct (Char.is_dquote q'); [|discriminate].
  intros H; injection H as _ <-.
  pose proof (drop_while_length Char.is_word r).
  rewrite Hd in *. simpl in *. lia.
Qed.

Arguments replace_all : simpl never.
Arguments strip_comments : simpl never.
Arguments collapse_spaces : simpl never.
Arguments tighten_punct : simpl never.
Arguments unquote_words : simpl never.

#[local] Hint Resolve m_comment_shrinking m_space_shrinking
  m_punct_shrinking m_quoted_shrinking : core.

Lemma strip_comments_cons c r :
  strip_comments (c :: r) =
  match m_comment (c :: r) with
  | Some (out, rest) => out ++ strip_comments rest
  | None => c :: strip_comments r
  end.
Proof. apply replace_all_cons; auto. Qed.

Lemma collapse_spaces_cons c r :
  collapse_spaces (c :: r) =
  match m_space (c :: r) with
  | Some (out, rest) => out ++ collapse_spaces rest
  | None => c :: collapse_spaces r
  end.
Proof. apply replace_all_cons; auto. Qed.

Lemma tighten_punct_cons c r :
  tighten_punct (c :: r) =
  match m_punct (c :: r) with
  | Some (out, rest) => out ++ tighten_punct rest
  | None => c :: tighten_punct r
  end.
Proof. apply replace_all_cons; auto. Qed.

Lemma unquote_words_cons c r :
  unquote_words (c :: r) =
  match m_quoted (c :: r) with
  | Some (out, rest) => out ++ unquote_words rest
  | None => c :: unquote_words r
  end.
Proof. apply replace_all_cons; auto. Qed.

(** ** Character classes *)

Ltac char_unfold :=
  unfold Char.is_space, Char.is_word, Char.is_punct, Char.is_newline,
    Char.is_blank, Char.is_dash, Char.is_dquote, Char.newline, Char.space,
    Char.dquote, Char.lparen, Char.rparen, Char.comma, Char.dash in *.

Ltac char_split :=
  repeat match goal with
         | H : context [N.eqb ?a ?b] |- _ =>
             destruct (N.eqb_spec a b); try lia
         | H : context [N.leb ?a ?b] |- _ =>
             destruct (N.leb_spec a b); try lia
         | |- context [N.eqb ?a ?b] =>
             destruct (N.eqb_spec a b); try lia
         | |- context [N.leb ?a ?b] =>
             destruct (N.leb_spec a b); try lia
         end.

Ltac char_facts :=
  char_unfold; char_split; simpl in *;
  try discriminate; try reflexivity; try lia.

Lemma blank_is_space c : Char.is_blank c = true -> Char.is_space c = true.
Proof. intros H. char_facts. Qed.

Lemma blank_eq c : Char.is_blank c = true <-> c = Char.space.
Proof. unfold Char.is_blank. apply N.eqb_eq. Qed.

Lemma punct_not_space c : Char.is_punct c = true -> Char.is_space c = false.
Proof. intros H. char_facts. Qed.

Lemma punct_not_blank c : Char.is_punct c = true -> Char.is_blank c = false.
Proof. intros H. char_facts. Qed.

Lemma word_not_space c : Char.is_word c = true -> Char.is_space c = false.
Proof. intros H. char_facts. Qed.

Lemma word_not_punct c : Char.is_word c = true -> Char.is_punct c = false.
Proof. intros H. char_facts. Qed.

Lemma word_not_dquote c : Char.is_word c = true -> Char.is_dquote c = false.
Proof. intros H. char_facts. Qed.

Lemma word_not_dash c : Char.is_word c = true -> Char.is_dash c = false.
Proof. intros H. char_facts. Qed.

Lemma newline_is_space c : Char.is_newline c = true -> Char.is_space c = true.
Proof. intros H. char_facts. Qed.

Lemma space_not_dash c : Char.is_space c = true -> Char.is_dash c = false.
Proof. intros H. char_facts. Qed.

Lemma dquote_not_space c : Char.is_dquote c = true -> Char.is_space c = false.
Proof. intros H. char_facts. Qed.

Lemma dquote_not_punct c : Char.is_dquote c = true -> Char.is_punct c = false.
Proof. intros H. char_facts. Qed.

(** ** The shape of a canonical string *)

Lemma no_pair_cons bad a r :
  no_pair bad (a :: r) <->
  match head_char r with Some b => bad a b = false | None => True end
  /\ no_pair bad r.
Proof. destruct r; simpl; tauto. Qed.

Lemma no_pair_app_r bad x y : no_pair bad (x ++ y) -> no_pair bad y.
Proof.
  induction x as [|a x IH]; simpl; [trivial|].
  intros [_ H]. auto.
Qed.

Lemma no_pair_app_l bad x y : no_pair bad (x ++ y) -> no_pair bad x.
Proof.
  induction x as [|a x IH]; simpl; [trivial|].
  intros [H1 H2]. split; [|auto].
  destruct x; simpl in *; trivial.
Qed.

Lemma no_pair_drop_while bad p s :
  no_pair bad s -> no_pair bad (drop_while p s).
Proof.
  intros H. rewrite <- (take_drop_while p s) in H.
  eapply no_pair_app_r; eauto.
Qed.

Lemma last_char_app s c : last_char (s ++ [c]) = Some c.
Proof.
  induction s as [|a s IH]; simpl; [reflexivity|].
  destruct (s ++ [c]) eqn:Hs; [destruct s; discriminate|].
  exact IH.
Qed.

Lemma last_char_cons a s :
  s <> [] -> last_char (a :: s) = last_char s.
Proof. destruct s; [congruence | reflexivity]. Qed.

Lemma last_char_app_r x y : y <> [] -> last_char (x ++ y) = last_char y.
Proof.
  intros Hy. induction x as [|a x IH]; simpl; [reflexivity|].
  destruct (x ++ y) eqn:Hxy; [destruct x, y; discriminate || congruence|].
  exact IH.
Qed.

Lemma last_char_rev s : last_char s = head_char (rev s).
Proof.
  induction s as [|a s IH]; simpl; [reflexivity|].
  destruct s as [|b s]; [reflexivity|].
  rewrite IH. simpl. destruct (rev s ++ [b]) eqn:H.
  - destruct (rev s); discriminate.
  - reflexivity.
Qed.

(** *** Preservation of a property of every character *)

Lemma replace_all_Forall (P : N -> Prop) m (Hm : shrinking m) :
  (forall s out rest,
      Forall P s -> m s = Some (out, rest) -> Forall P out /\ Forall P rest) ->
  forall s, Forall P s -> Forall P (replace_all m s).
Proof.
  intros Hout s. induction s as [s IH] using length_ind.
  intros Hs. destruct s as [|c r]; [constructor|].
  rewrite replace_all_cons by exact Hm.
  destruct (m (c :: r)) as [[out rest]|] eqn:Hmatch.
  - destruct (Hout _ _ _ Hs Hmatch) as [Ho Hr].
    apply Forall_app. split; [exact Ho|].
    apply IH; [apply Hm in Hmatch; exact Hmatch | exact Hr].
  - inversion Hs; subst. constructor; [assumption|].
    apply IH; [simpl; lia | assumption].
Qed.

Lemma Forall_drop_while (P : N -> Prop) p s :
  Forall P s -> Forall P (drop_while p s).
Proof.
  intros H. rewrite <- (take_drop_while p s) in H.
  apply Forall_app in H. tauto.
Qed.

Lemma Forall_take_while (P : N -> Prop) p s :
  Forall P s -> Forall P (take_while p s).
Proof.
  intros H. rewrite <- (take_drop_while p s) in H.
  apply Forall_app in H. tauto.
Qed.

Lemma Forall_after_newline (P : N -> Prop) s rest :
  Forall P s -> after_newline s = Some rest -> Forall P rest.
Proof.
  revert rest. induction s as [|c r IH]; simpl; [discriminate|].
  intros rest Hs. inversion Hs; subst.
  destruct (Char.is_newline c).
  - intros H; injection H as <-. assumption.
  - auto.
Qed.

Lemma tighten_punct_Forall (P : N -> Prop) s :
  Forall P s -> Forall P (tighten_punct s).
Proof.
  apply replace_all_Forall; auto.
  intros t out rest Ht. unfold m_punct.
  destruct (drop_while Char.is_blank t) as [|p r] eqn:Hd; [discriminate|].
  destruct (Char.is_punct p); [|discriminate].
  intros H; injection H as <- <-.
  apply (Forall_drop_while P Char.is_blank) in Ht. rewrite Hd in Ht.
  inversion Ht; subst. split; [auto|]. now apply Forall_drop_while.
Qed.

Lemma unquote_words_Forall (P : N -> Prop) s :
  Forall P s -> Forall P (unquote_words s).
Proof.
  apply replace_all_Forall; auto.
  intros t out rest Ht. unfold m_quoted.
  destruct t as [|q r]; [discriminate|].
  destruct (Char.is_dquote q); [|discriminate].
  destruct (take_while Char.is_word r) as [|w ws] eqn:Htw; [discriminate|].
  destruct (drop_while Char.is_word r) as [|q' t] eqn:Hd; [discriminate|].
  destruct (Char.is_dquote q'); [|discriminate].
  intros H; injection H as <- <-.
  inversion Ht; subst.
  split.
  - rewrite <- Htw. now apply Forall_take_while.
  - assert (H : Forall P (drop_while Char.is_word r))
      by now apply Forall_drop_while.
    rewrite Hd in H. now inversion H.
Qed.

(** ** What a match looks like *)

Lemma after_newline_inv s rest :
  after_newline s = Some rest ->
  exists c, s = c ++ Char.newline :: rest
            /\ forallb (fun x => negb (Char.is_newline x)) c = true.
Proof.
  revert rest. induction s as [|a s IH]; simpl; [discriminate|].
  intros rest. destruct (Char.is_newline a) eqn:Ha.
  - intros H; injection H as <-. exists []. split; [|reflexivity].
    simpl. f_equal. now apply N.eqb_eq.
  - intros H. destruct (IH _ H) as (c & -> & Hc).
    exists (a :: c). simpl. now rewrite Ha.
Qed.

Lemma after_newline_app c rest :
  forallb (fun x => negb (Char.is_newline x)) c = true ->
  after_newline (c ++ Char.newline :: rest) = Some rest.
Proof.
  induction c as [|a c IH]; simpl; [reflexivity|].
  intros H. apply andb_true_iff in H as [Ha H].
  apply negb_true_iff in Ha. rewrite Ha. auto.
Qed.

Lemma m_quoted_inv s out rest :
  m_quoted s = Some (out, rest) ->
  s = Char.dquote :: out ++ Char.dquote :: rest
  /\ out <> [] /\ forallb Char.is_word out = true.
Proof.
  unfold m_quoted. destruct s as [|q r]; [discriminate|].
  destruct (Char.is_dquote q) eqn:Hq; [|discriminate].
  destruct (take_while Char.is_word r) as [|w ws] eqn:Htw; [discriminate|].
  destruct (drop_while Char.is_word r) as [|q' t] eqn:Hd; [discriminate|].
  destruct (Char.is_dquote q') eqn:Hq'; [|discriminate].
  intros H; injection H as <- <-.
  apply N.eqb_eq in Hq, Hq'. subst q q'.
  split; [|split].
  - f_equal. rewrite <- Htw, <- Hd. symmetry. apply take_drop_while.
  - discriminate.
  - rewrite <- Htw. apply take_while_all.
Qed.

Lemma m_quoted_app w rest :
  w <> [] -> forallb Char.is_word w = true ->
  m_quoted (Char.dquote :: w ++ Char.dquote :: rest) = Some (w, rest).
Proof.
  intros Hw Hall. unfold m_quoted.
  replace (Char.is_dquote Char.dquote) with true by reflexivity.
  rewrite take_while_stop, drop_while_stop by (trivial; reflexivity).
  destruct w; [congruence | reflexivity].
Qed.

(** ** Stage by stage: the shape that is established *)

Lemma collapse_spaces_head s :
  head_char (collapse_spaces s) =
  match head_char s with
  | Some c => Some (if Char.is_space c then Char.space else c)
  | None => None
  end.
Proof.
  destruct s as [|c r]; [reflexivity|].
  rewrite collapse_spaces_cons. unfold m_space. simpl.
  destruct (Char.is_space c); reflexivity.
Qed.

Lemma collapse_spaces_blank_only s : blank_only (collapse_spaces s).
Proof.
  induction s as [s IH] using length_ind.
  destruct s as [|c r]; [constructor|].
  rewrite collapse_spaces_cons. unfold m_space.
  destruct (Char.is_space c) eqn:Hc; simpl.
  - constructor; [reflexivity|]. apply IH.
    pose proof (drop_while_length Char.is_space r). simpl. lia.
  - constructor; [congruence|]. apply IH. simpl. lia.
Qed.

Lemma collapse_spaces_no_twoblank s : no_pair twoblank (collapse_spaces s).
Proof.
  induction s as [s IH] using length_ind.
  destruct s as [|c r]; [exact I|].
  rewrite collapse_spaces_cons. unfold m_space.
  destruct (Char.is_space c) eqn:Hc.
  - simpl app. apply no_pair_cons. split.
    + rewrite collapse_spaces_head.
      destruct (drop_while Char.is_space r) as [|x t] eqn:Hd; [exact I|].
      apply drop_while_head in Hd. simpl. rewrite Hd.
      unfold twoblank. destruct (Char.is_blank x) eqn:Hx;
        [apply blank_is_space in Hx; congruence | apply andb_false_r].
    + apply IH. pose proof (drop_while_length Char.is_space r). simpl. lia.
  - apply no_pair_cons. split.
    + destruct (head_char (collapse_spaces r)); [|exact I].
      unfold twoblank. destruct (Char.is_blank c) eqn:Hb;
        [apply blank_is_space in Hb; congruence | reflexivity].
    + apply IH. simpl. lia.
Qed.

Lemma tighten_punct_head s :
  head_char (tighten_punct s) =
  match m_punct s with
  | Some (out, _) => head_char out
  | None => head_char s
  end.
Proof.
  destruct s as [|c r]; [reflexivity|].
  rewrite tighten_punct_cons.
  destruct (m_punct (c :: r)) as [[out rest]|] eqn:Hm; [|reflexivity].
  unfold m_punct in Hm.
  destruct (drop_while Char.is_blank (c :: r)) as [|p t]; [discriminate|].
  destruct (Char.is_punct p); [|discriminate].
  injection Hm as <- <-. reflexivity.
Qed.

Lemma m_punct_head s out rest :
  m_punct s = Some (out, rest) ->
  exists p, out = [p] /\ Char.is_punct p = true.
Proof.
  unfold m_punct.
  destruct (drop_while Char.is_blank s) as [|p t]; [discriminate|].
  destruct (Char.is_punct p) eqn:Hp; [|discriminate].
  intros H; injection H as <- <-. eauto.
Qed.

Lemma clash_punct_l p b :
  Char.is_punct p = true -> Char.is_blank b = false -> clash p b = false.
Proof.
  intros Hp Hb. unfold clash.
  rewrite (punct_not_blank _ Hp), Hb. now rewrite andb_false_r.
Qed.

Lemma clash_plain_l a b :
  Char.is_blank a = false -> Char.is_punct a = false -> clash a b = false.
Proof. intros Ha Hp. unfold clash. now rewrite Ha, Hp. Qed.

Lemma clash_plain_r a b :
  Char.is_blank b = false -> Char.is_punct b = false -> clash a b = false.
Proof.
  intros Hb Hp. unfold clash. rewrite Hb, Hp.
  simpl. now rewrite !andb_false_r.
Qed.

Lemma tighten_punct_no_clash s :
  no_pair twoblank s -> no_pair clash (tighten_punct s).
Proof.
  induction s as [s IH] using length_ind.
  intros Hbb. destruct s as [|c r]; [exact I|].
  rewrite tighten_punct_cons.
  destruct (m_punct (c :: r)) as [[out rest]|] eqn:Hm.
  - pose proof (m_punct_shrinking _ _ _ Hm) as Hlen.
    unfold m_punct in Hm.
    destruct (drop_while Char.is_blank (c :: r)) as [|p t] eqn:Hd;
      [discriminate|].
    destruct (Char.is_punct p) eqn:Hp; [|discriminate].
    injection Hm as <- <-. simpl app. apply no_pair_cons. split.
    + rewrite tighten_punct_head.
      destruct (m_punct (drop_while Char.is_blank t)) as [[o t']|] eqn:Hm'.
      * destruct (m_punct_head _ _ _ Hm') as (p' & -> & Hp'). simpl.
        apply clash_punct_l; [exact Hp | now apply punct_not_blank].
      * destruct (drop_while Char.is_blank t) as [|x t'] eqn:Hd'; [exact I|].
        simpl. apply clash_punct_l; [exact Hp|].
        eapply drop_while_head; eauto.
    + apply IH; [exact Hlen|].
      apply no_pair_drop_while.
      apply (no_pair_drop_while _ Char.is_blank) in Hbb.
      rewrite Hd in Hbb. apply (no_pair_app_r _ [p]). exact Hbb.
  - apply no_pair_cons. split.
    + rewrite tighten_punct_head.
      destruct (Char.is_blank c) eqn:Hc.
      * assert (Hr : m_punct r = None).
        { unfold m_punct in *. simpl in Hm. now rewrite Hc in Hm. }
        rewrite Hr. destruct r as [|x r']; [exact I|]. simpl.
        destruct Hbb as [Hcx _]. unfold twoblank in Hcx.
        rewrite Hc in Hcx. simpl in Hcx.
        unfold m_punct in Hr. simpl in Hr. rewrite Hcx in Hr.
        apply clash_plain_r; [exact Hcx|].
        destruct (Char.is_punct x); [discriminate | reflexivity].
      * assert (Hp : Char.is_punct c = false).
        { unfold m_punct in Hm. simpl in Hm. rewrite Hc in Hm.
          destruct (Char.is_punct c); [discriminate | reflexivity]. }
        destruct (match m_punct r with
                  | Some (out, _) => head_char out
                  | None => head_char r
                  end); [|exact I].
        now apply clash_plain_l.
    + apply IH; [simpl; lia|]. apply (no_pair_app_r _ [c]). exact Hbb.
Qed.

Lemma unquote_words_head s :
  head_char (unquote_words s) =
  match m_quoted s with
  | Some (out, _) => head_char out
  | None => head_char s
  end.
Proof.
  destruct s as [|c r]; [reflexivity|].
  rewrite unquote_words_cons.
  destruct (m_quoted (c :: r)) as [[out rest]|] eqn:Hm; [|reflexivity].
  apply m_quoted_inv in Hm as (_ & Hne & _).
  destruct out; [congruence | reflexivity].
Qed.

Lemma clash_word_l a b : Char.is_word a = true -> clash a b = false.
Proof.
  intros Ha. apply clash_plain_l.
  - destruct (Char.is_blank a) eqn:Hb; [|reflexivity].
    apply blank_is_space in Hb. rewrite (word_not_space _ Ha) in Hb.
    discriminate.
  - now apply word_not_punct.
Qed.

Lemma clash_word_r a b : Char.is_word b = true -> clash a b = false.
Proof.
  intros Hb. apply clash_plain_r.
  - destruct (Char.is_blank b) eqn:Hk; [|reflexivity].
    apply blank_is_space in Hk. rewrite (word_not_space _ Hb) in Hk.
    discriminate.
  - now apply word_not_punct.
Qed.

Lemma words_no_clash_app w s :
  forallb Char.is_word w = true -> no_pair clash s -> no_pair clash (w ++ s).
Proof.
  induction w as [|a w IH]; simpl app; [trivial|].
  intros H Hs. simpl in H. apply andb_true_iff in H as [Ha H].
  apply no_pair_cons. split; [|auto].
  destruct (head_char (w ++ s)); [|exact I]. now apply clash_word_l.
Qed.

Lemma unquote_words_no_clash s :
  no_pair clash s -> no_pair clash (unquote_words s).
Proof.
  induction s as [s IH] using length_ind.
  intros Hs. destruct s as [|c r]; [exact I|].
  rewrite unquote_words_cons.
  destruct (m_quoted (c :: r)) as [[out rest]|] eqn:Hm.
  - pose proof (m_quoted_shrinking _ _ _ Hm) as Hlen.
    apply m_quoted_inv in Hm as (Heq & Hne & Hw).
    apply words_no_clash_app; [exact Hw|].
    apply IH; [exact Hlen|].
    rewrite Heq in Hs.
    apply (no_pair_app_r _ (Char.dquote :: out ++ [Char.dquote])).
    simpl. rewrite <- app_assoc. exact Hs.
  - apply no_pair_cons. split.
    + rewrite unquote_words_head.
      destruct (m_quoted r) as [[out rest]|] eqn:Hm'.
      * apply m_quoted_inv in Hm' as (_ & Hne & Hw).
        destruct out as [|w ws]; [congruence|]. simpl.
        simpl in Hw. apply andb_true_iff in Hw as [Hw _].
        now apply clash_word_r.
      * apply no_pair_cons in Hs. tauto.
    + apply IH; [simpl; lia|]. apply (no_pair_app_r _ [c]). exact Hs.
Qed.

(** ** [trim] *)

Lemma trim_infix s : exists l r, s = l ++ trim s ++ r.
Proof.
  unfold trim. set (t := drop_while Char.is_space s).
  exists (take_while Char.is_space s),
         (rev (take_while Char.is_space (rev t))).
  rewrite <- rev_app_distr, take_drop_while, rev_involutive.
  symmetry. apply take_drop_while.
Qed.

Lemma trim_last s :
  match last_char (trim s) with
  | Some c => Char.is_space c = false
  | None => True
  end.
Proof.
  rewrite last_char_rev. unfold trim. rewrite rev_involutive.
  destruct (drop_while Char.is_space (rev (drop_while Char.is_space s)))
    as [|c r] eqn:Hd; [exact I|].
  simpl. eapply drop_while_head; eauto.
Qed.

Lemma trim_head s :
  match head_char (trim s) with
  | Some c => Char.is_space c = false
  | None => True
  end.
Proof.
  destruct (trim s) as [|c r] eqn:Ht; [exact I|]. simpl.
  unfold trim in Ht. set (t := drop_while Char.is_space s) in *.
  assert (Hpre : exists r', t = c :: r').
  { rewrite <- (rev_involutive t).
    rewrite <- (take_drop_while Char.is_space (rev t)).
    rewrite rev_app_distr, Ht. simpl. eauto. }
  destruct Hpre as [r' Hr']. subst t.
  eapply drop_while_head; eauto.
Qed.

Lemma trim_id s :
  match head_char s with Some c => Char.is_space c = false | None => True end ->
  match last_char s with Some c => Char.is_space c = false | None => True end ->
  trim s = s.
Proof.
  intros Hh Hl. unfold trim.
  rewrite (drop_while_id Char.is_space s) by (destruct s; auto).
  rewrite drop_while_id; [apply rev_involutive|].
  rewrite last_char_rev in Hl. destruct (rev s); auto.
Qed.

Lemma blank_only_trim s : blank_only s -> blank_only (trim s).
Proof.
  intros H. destruct (trim_infix s) as (l & r & Hs).
  unfold blank_only in *. rewrite Hs in H.
  apply Forall_app in H as [_ H]. apply Forall_app in H. tauto.
Qed.

Lemma no_pair_trim bad s : no_pair bad s -> no_pair bad (trim s).
Proof.
  intros H. destruct (trim_infix s) as (l & r & Hs).
  rewrite Hs in H. apply no_pair_app_r in H. now apply no_pair_app_l in H.
Qed.

(** ** The canonical form is tidy *)

Lemma normaliseSql_tidy q : tidy (normaliseSql q).
Proof.
  assert (Hnil : tidy []) by (repeat split; constructor).
  destruct q as [[|c r]|]; simpl; trivial.
  set (s := strip_comments (c :: r)).
  repeat split.
  - apply blank_only_trim.
    apply unquote_words_Forall, tighten_punct_Forall.
    apply collapse_spaces_blank_only.
  - apply no_pair_trim, unquote_words_no_clash, tighten_punct_no_clash.
    apply collapse_spaces_no_twoblank.
  - apply trim_head.
  - apply trim_last.
Qed.

(** ** A tidy string passes the first three stages unchanged *)

Lemma m_comment_none s :
  forallb (fun x => negb (Char.is_newline x)) s = true -> m_comment s = None.
Proof.
  intros H. unfold m_comment.
  destruct s as [|c1 [|c2 r]]; trivial.
  destruct (Char.is_dash c1 && Char.is_dash c2); [|reflexivity].
  simpl in H. apply andb_true_iff in H as [_ H].
  apply andb_true_iff in H as [_ H].
  destruct (after_newline r) as [rest|] eqn:Ha; [|reflexivity].
  apply after_newline_inv in Ha as (x & -> & _).
  rewrite forallb_app in H. apply andb_true_iff in H as [_ H].
  simpl in H. discriminate.
Qed.

Lemma strip_comments_no_newline s :
  forallb (fun x => negb (Char.is_newline x)) s = true ->
  strip_comments s = s.
Proof.
  induction s as [|c r IH]; [reflexivity|].
  intros H. rewrite strip_comments_cons, (m_comment_none _ H).
  simpl in H. apply andb_true_iff in H as [_ H]. now rewrite IH.
Qed.

Lemma blank_only_no_newline s :
  blank_only s -> forallb (fun x => negb (Char.is_newline x)) s = true.
Proof.
  induction 1 as [|c r Hc _ IH]; [reflexivity|]. simpl.
  rewrite IH, andb_true_r. apply negb_true_iff.
  destruct (Char.is_newline c) eqn:Hn; [|reflexivity].
  pose proof (newline_is_space _ Hn) as Hs. apply Hc in Hs.
  subst c. discriminate.
Qed.

Lemma collapse_spaces_fixed s :
  blank_only s -> no_pair clash s -> collapse_spaces s = s.
Proof.
  induction s as [|c r IH]; [reflexivity|].
  intros Hb Hp. inversion Hb as [|? ? Hc Hr]; subst.
  apply no_pair_cons in Hp as [Hcx Hp].
  rewrite collapse_spaces_cons. unfold m_space.
  destruct (Char.is_space c) eqn:Hsc.
  - rewrite (Hc eq_refl) in *. simpl app.
    rewrite drop_while_id; [now rewrite IH|].
    destruct r as [|x r']; [exact I|]. simpl in Hcx.
    inversion Hr as [|? ? Hx _]; subst.
    destruct (Char.is_space x) eqn:Hsx; [|reflexivity].
    rewrite (Hx eq_refl) in Hcx. discriminate.
  - now rewrite IH.
Qed.

Lemma tighten_punct_fixed s : no_pair clash s -> tighten_punct s = s.
Proof.
  induction s as [|c r IH]; [reflexivity|].
  intros Hp. apply no_pair_cons in Hp as [Hcx Hp].
  rewrite tighten_punct_cons, (IH Hp). unfold m_punct. simpl.
  destruct (Char.is_blank c) eqn:Hc.
  - destruct r as [|x r']; [reflexivity|]. simpl in *.
    unfold clash in Hcx. rewrite Hc in Hcx. simpl in Hcx.
    apply orb_false_iff in Hcx as [Hcx _].
    apply orb_false_iff in Hcx as [Hbx Hpx].
    now rewrite Hbx, Hpx.
  - destruct (Char.is_punct c) eqn:Hpc; [|reflexivity].
    simpl app. f_equal. rewrite drop_while_id; [now rewrite IH|].
    destruct r as [|x r']; [exact I|]. simpl in Hcx.
    unfold clash in Hcx. rewrite Hc, Hpc in Hcx. exact Hcx.
Qed.

Lemma unquote_words_nil s : unquote_words s = [] -> s = [].
Proof.
  destruct s as [|c r]; [reflexivity|].
  rewrite unquote_words_cons.
  destruct (m_quoted (c :: r)) as [[out rest]|] eqn:Hm; [|discriminate].
  apply m_quoted_inv in Hm as (_ & Hne & _).
  destruct out; [congruence | discriminate].
Qed.

Lemma last_char_In s c : last_char s = Some c -> In c s.
Proof.
  induction s as [|a s IH]; simpl; [discriminate|].
  destruct s; [intros H; injection H as ->; now left | right; auto].
Qed.

Lemma unquote_words_last s c :
  last_char (unquote_words s) = Some c ->
  Char.is_word c = true \/ last_char s = Some c.
Proof.
  revert c. induction s as [s IH] using length_ind.
  intros z. destruct s as [|c r]; [discriminate|].
  rewrite unquote_words_cons.
  destruct (m_quoted (c :: r)) as [[out rest]|] eqn:Hm.
  - pose proof (m_quoted_shrinking _ _ _ Hm) as Hlen.
    apply m_quoted_inv in Hm as (Heq & Hne & Hw).
    destruct (unquote_words rest) as [|u us] eqn:Hu.
    + rewrite app_nil_r. intros Hl. left.
      apply last_char_In in Hl. rewrite forallb_forall in Hw. auto.
    + rewrite last_char_app_r by discriminate. rewrite <- Hu.
      intros Hl. destruct (IH rest Hlen z Hl) as [H|H]; [now left|].
      right. rewrite Heq.
      replace (Char.dquote :: out ++ Char.dquote :: rest)
        with ((Char.dquote :: out ++ [Char.dquote]) ++ rest)
        by (simpl; now rewrite <- app_assoc).
      rewrite last_char_app_r; [exact H|].
      destruct rest; [discriminate | discriminate].
  - destruct (unquote_words r) as [|u us] eqn:Hu.
    + apply unquote_words_nil in Hu. subst r. simpl. now right.
    + rewrite last_char_cons by discriminate. rewrite <- Hu.
      intros Hl. destruct (IH r (Nat.lt_succ_diag_r _) z Hl) as [H|H];
        [now left|].
      right. rewrite last_char_cons; [exact H|].
      destruct r; [discriminate | discriminate].
Qed.

(** Canonicalizing a canonical form only unquotes what is still quoted. *)
Lemma canonicalize_twice s :
  canonicalize (canonicalize s) = unquote_words (canonicalize s).
Proof.
  pose proof (normaliseSql_tidy (Some s)) as (Hb & Hp & Hh & Hl).
  fold (canonicalize s) in *.
  destruct (canonicalize s) as [|c r] eqn:Ht; [reflexivity|].
  unfold canonicalize at 1. unfold normaliseSql.
  rewrite strip_comments_no_newline by now apply blank_only_no_newline.
  rewrite collapse_spaces_fixed, tighten_punct_fixed by assumption.
  apply trim_id.
  - rewrite unquote_words_head.
    destruct (m_quoted (c :: r)) as [[out rest]|] eqn:Hm; [|exact Hh].
    apply m_quoted_inv in Hm as (_ & Hne & Hw).
    destruct out as [|w ws]; [congruence|]. simpl in *.
    apply andb_true_iff in Hw as [Hw _]. now apply word_not_space.
  - destruct (last_char (unquote_words (c :: r))) as [z|] eqn:Hz; [|exact I].
    apply unquote_words_last in Hz as [Hz|Hz].
    + now apply word_not_space.
    + now rewrite Hz in Hl.
Qed.

(** ** Layout: comments, white space, quoting *)

Lemma canonicalize_eq s :
  canonicalize s =
  trim (unquote_words (tighten_punct (collapse_spaces (strip_comments s)))).
Proof. destruct s; reflexivity. Qed.

Lemma after_newline_app_gen a b :
  after_newline (a ++ b) =
  match after_newline a with
  | Some t => Some (t ++ b)
  | None => after_newline b
  end.
Proof.
  induction a as [|x a IH]; simpl; [reflexivity|].
  destruct (Char.is_newline x); [reflexivity | exact IH].
Qed.

Lemma after_newline_none s :
  after_newline s = None <-> no_newline s = true.
Proof.
  unfold no_newline. induction s as [|c r IH]; simpl; [tauto|].
  destruct (Char.is_newline c); simpl; [split; discriminate | exact IH].
Qed.

(** *** Comment text *)

Lemma strip_comments_comment_text u c1 c2 v :
  no_newline c1 = true -> no_newline c2 = true ->
  strip_comments (u ++ dashes ++ c1 ++ Char.newline :: v) =
  strip_comments (u ++ dashes ++ c2 ++ Char.newline :: v).
Proof.
  intros H1 H2.
  assert (Hk : forall c, no_newline c = true ->
             after_newline (dashes ++ c ++ Char.newline :: v) = Some v).
  { intros c Hc. simpl. now apply after_newline_app. }
  assert (Hk0 : forall c, no_newline c = true ->
             strip_comments (dashes ++ c ++ Char.newline :: v)
             = strip_comments v).
  { intros c Hc. simpl app. rewrite strip_comments_cons. simpl.
    now rewrite (after_newline_app c v Hc). }
  induction u as [u IH] using length_ind.
  destruct u as [|x u']; [now rewrite !app_nil_l, !Hk0|].
  simpl app. rewrite !strip_comments_cons.
  destruct u' as [|y u''].
  - unfold dashes. simpl app. unfold m_comment.
    destruct (Char.is_dash x && Char.is_dash Char.dash) eqn:Hx.
    + replace (after_newline (Char.dash :: c1 ++ Char.newline :: v))
        with (Some v) by (symmetry; simpl; now apply after_newline_app).
      replace (after_newline (Char.dash :: c2 ++ Char.newline :: v))
        with (Some v) by (symmetry; simpl; now apply after_newline_app).
      reflexivity.
    + f_equal. apply (IH []). simpl. lia.
  - simpl app. unfold m_comment.
    destruct (Char.is_dash x && Char.is_dash y).
    + rewrite !after_newline_app_gen.
      destruct (after_newline u'') as [t|] eqn:Ht.
      * simpl app. apply IH. apply after_newline_length in Ht. simpl. lia.
      * pose proof (Hk c1 H1) as E1. pose proof (Hk c2 H2) as E2.
        unfold dashes in E1, E2. simpl app in E1, E2.
        now rewrite E1, E2.
    + f_equal. apply (IH (y :: u'')). simpl. lia.
Qed.

(** *** Splitting [strip_comments] where no comment is open *)

Lemma unclosed_comment_app_r a b :
  unclosed_comment (a ++ b) = false -> unclosed_comment b = false.
Proof.
  induction a as [|x a IH]; simpl; [trivial|].
  intros H. apply orb_false_iff in H as [_ H]. auto.
Qed.

Lemma strip_comments_app u rest :
  unclosed_comment u = false ->
  match head_char rest with
  | Some c => Char.is_dash c = false
  | None => True
  end ->
  strip_comments (u ++ rest) = strip_comments u ++ strip_comments rest.
Proof.
  intros Hu Hrest. induction u as [u IH] using length_ind.
  destruct u as [|x u']; [reflexivity|].
  simpl app. rewrite !strip_comments_cons.
  destruct u' as [|y u''].
  - simpl app. replace (m_comment [x]) with (@None (jsstring * jsstring))
      by reflexivity.
    replace (m_comment (x :: rest)) with (@None (jsstring * jsstring)).
    + reflexivity.
    + unfold m_comment. destruct rest as [|c r]; [reflexivity|].
      simpl in Hrest. now rewrite Hrest, andb_false_r.
  - simpl app. unfold m_comment.
    simpl in Hu. apply orb_false_iff in Hu as [Hxy Hu].
    destruct (Char.is_dash x && Char.is_dash y) eqn:Hd.
    + apply andb_true_iff in Hd as [Hx Hy]. rewrite Hx, Hy in Hxy.
      simpl in Hxy.
      destruct (after_newline u'') as [t|] eqn:Ht.
      * rewrite after_newline_app_gen, Ht. simpl app.
        apply after_newline_length in Ht as Hlen.
        apply IH; [simpl; lia|].
        apply after_newline_inv in Ht as (c & Hc & _).
        apply orb_false_iff in Hu as [_ Hu]. rewrite Hc in Hu.
        apply (unclosed_comment_app_r (c ++ [Char.newline])).
        now rewrite <- app_assoc.
      * apply after_newline_none in Ht. congruence.
    + simpl app. f_equal. apply (IH (y :: u'')); [simpl; lia | exact Hu].
Qed.

Lemma strip_comments_plain_prefix w v :
  forallb (fun c => negb (Char.is_dash c)) w = true ->
  strip_comments (w ++ v) = w ++ strip_comments v.
Proof.
  induction w as [|c w IH]; [reflexivity|].
  intros H. simpl in H. apply andb_true_iff in H as [Hc H].
  apply negb_true_iff in Hc.
  simpl app. rewrite strip_comments_cons. unfold m_comment.
  destruct (w ++ v); rewrite ?Hc; simpl; now rewrite <- IH.
Qed.

(** *** Runs of white space *)

Lemma collapse_spaces_run a w1 w2 b :
  w1 <> [] -> w2 <> [] ->
  forallb Char.is_space w1 = true -> forallb Char.is_space w2 = true ->
  collapse_spaces (a ++ w1 ++ b) = collapse_spaces (a ++ w2 ++ b).
Proof.
  intros N1 N2 H1 H2.
  assert (Hrun : forall w, w <> [] -> forallb Char.is_space w = true ->
            collapse_spaces (w ++ b)
            = Char.space :: collapse_spaces (drop_while Char.is_space b)).
  { intros w Hw Hall. destruct w as [|c w]; [congruence|].
    simpl in Hall. apply andb_true_iff in Hall as [Hc Hall].
    simpl app. rewrite collapse_spaces_cons. unfold m_space. rewrite Hc.
    now rewrite drop_while_all_app. }
  induction a as [a IH] using length_ind.
  destruct a as [|x a']; [now rewrite !app_nil_l, !Hrun|].
  simpl app. rewrite !collapse_spaces_cons. unfold m_space.
  destruct (Char.is_space x).
  - f_equal.
    destruct (span_cases Char.is_space a')
      as [Hall | (p & y & z & -> & Hp & Hy)].
    + rewrite !drop_while_all_app by assumption. reflexivity.
    + rewrite <- !app_assoc. simpl app.
      rewrite !drop_while_stop by assumption.
      apply (IH (y :: z)). simpl. rewrite length_app. simpl. lia.
  - f_equal. apply IH. simpl. lia.
Qed.

(** *** Splitting the later stages at a plain character *)

Lemma collapse_spaces_app a rest :
  match head_char rest with
  | Some c => Char.is_space c = false
  | None => True
  end ->
  collapse_spaces (a ++ rest) = collapse_spaces a ++ collapse_spaces rest.
Proof.
  intros Hrest. induction a as [a IH] using length_ind.
  destruct a as [|x a']; [reflexivity|].
  simpl app. rewrite !collapse_spaces_cons. unfold m_space.
  destruct (Char.is_space x).
  - simpl app. f_equal.
    destruct (span_cases Char.is_space a')
      as [Hall | (p & y & z & -> & Hp & Hy)].
    + rewrite drop_while_all_app, (drop_while_all _ a') by assumption.
      rewrite drop_while_id; [reflexivity | destruct rest; auto].
    + rewrite <- !app_assoc. simpl app.
      rewrite !drop_while_stop by assumption.
      apply (IH (y :: z)). simpl. rewrite length_app. simpl. lia.
  - simpl app. f_equal. apply IH. simpl. lia.
Qed.

Lemma collapse_spaces_plain_prefix w v :
  forallb (fun c => negb (Char.is_space c)) w = true ->
  collapse_spaces (w ++ v) = w ++ collapse_spaces v.
Proof.
  induction w as [|c w IH]; [reflexivity|].
  intros H. simpl in H. apply andb_true_iff in H as [Hc H].
  apply negb_true_iff in Hc.
  simpl app. rewrite collapse_spaces_cons. unfold m_space.
  now rewrite Hc, IH.
Qed.

Lemma m_punct_blank c r :
  Char.is_blank c = true -> m_punct (c :: r) = m_punct r.
Proof. intros H. unfold m_punct. simpl. now rewrite H. Qed.

Lemma tighten_punct_app a rest :
  match head_char rest with
  | Some c => Char.is_blank c = false /\ Char.is_punct c = false
  | None => True
  end ->
  tighten_punct (a ++ rest) = tighten_punct a ++ tighten_punct rest.
Proof.
  intros Hrest.
  assert (Hd : drop_while Char.is_blank rest = rest).
  { apply drop_while_id. destruct rest; simpl in *; tauto. }
  assert (Hn : m_punct rest = None).
  { unfold m_punct. rewrite Hd. destruct rest as [|c r]; [reflexivity|].
    simpl in Hrest. destruct Hrest as [_ ->]. reflexivity. }
  induction a as [a IH] using length_ind.
  destruct a as [|x a']; [reflexivity|].
  change ((x :: a') ++ rest) with (x :: a' ++ rest).
  rewrite !tighten_punct_cons. unfold m_punct.
  destruct (span_cases Char.is_blank (x :: a'))
    as [Hall | (p & y & z & Heq & Hp & Hy)].
  - change (x :: a' ++ rest) with ((x :: a') ++ rest).
    rewrite drop_while_all_app, (drop_while_all _ (x :: a')) by assumption.
    fold (m_punct rest). rewrite Hn.
    simpl app. f_equal. apply IH. simpl. lia.
  - change (x :: a' ++ rest) with ((x :: a') ++ rest).
    rewrite Heq, <- !app_assoc. simpl app.
    rewrite !drop_while_stop by assumption.
    destruct (Char.is_punct y).
    + simpl app. f_equal.
      destruct (span_cases Char.is_blank z)
        as [Hz | (p' & y' & z' & -> & Hp' & Hy')].
      * rewrite drop_while_all_app, (drop_while_all _ z) by assumption.
        now rewrite Hd.
      * rewrite <- !app_assoc. simpl app.
        rewrite !drop_while_stop by assumption.
        apply (IH (y' :: z')).
        apply (f_equal (@List.length N)) in Heq. simpl in Heq.
        rewrite !length_app in Heq. simpl in Heq.
        rewrite length_app in Heq. simpl in *. lia.
    + simpl app. f_equal. apply IH. simpl. lia.
Qed.

Lemma tighten_punct_plain_prefix w v :
  forallb (fun c => negb (Char.is_blank c || Char.is_punct c)) w = true ->
  tighten_punct (w ++ v) = w ++ tighten_punct v.
Proof.
  induction w as [|c w IH]; [reflexivity|].
  intros H. simpl in H. apply andb_true_iff in H as [Hc H].
  apply negb_true_iff, orb_false_iff in Hc as [Hb Hp].
  simpl app. rewrite tighten_punct_cons. unfold m_punct. simpl.
  now rewrite Hb, Hp, IH.
Qed.

Lemma last_char_none s : last_char s = None -> s = [].
Proof.
  induction s as [|a s IH]; [reflexivity|]. simpl.
  destruct s; [discriminate|]. intros H. apply IH in H. discriminate.
Qed.

Lemma last_char_app_l x y z :
  last_char (x ++ y :: z) = last_char (y :: z).
Proof. apply last_char_app_r. discriminate. Qed.

Lemma unquote_words_app a rest :
  match last_char a with
  | Some c => Char.is_word c = false /\ Char.is_dquote c = false
  | None => True
  end ->
  unquote_words (a ++ rest) = unquote_words a ++ unquote_words rest.
Proof.
  induction a as [a IH] using length_ind.
  intros Hlast. destruct a as [|x a']; [reflexivity|].
  simpl app. rewrite !unquote_words_cons.
  assert (Htail : unquote_words (a' ++ rest)
                  = unquote_words a' ++ unquote_words rest).
  { apply IH; [simpl; lia|].
    destruct a' as [|y a'']; [exact I|].
    rewrite last_char_cons in Hlast by discriminate. exact Hlast. }
  unfold m_quoted. destruct (Char.is_dquote x) eqn:Hx;
    [|now rewrite Htail].
  destruct (span_cases Char.is_word a')
    as [Hall | (p & y & z & -> & Hp & Hy)].
  - exfalso. destruct a' as [|y a''].
    + simpl in Hlast. destruct Hlast. congruence.
    + rewrite last_char_cons in Hlast by discriminate.
      destruct (last_char (y :: a'')) as [c|] eqn:Hc;
        [|apply last_char_none in Hc; discriminate].
      apply last_char_In in Hc. rewrite forallb_forall in Hall.
      apply Hall in Hc. destruct Hlast. congruence.
  - rewrite <- !app_assoc. simpl app.
    rewrite !take_while_stop, !drop_while_stop by assumption.
    rewrite <- app_assoc in Htail. simpl app in Htail.
    change (x :: p ++ y :: z) with ((x :: p) ++ y :: z) in Hlast.
    rewrite last_char_app_l in Hlast.
    destruct p as [|w ws]; [simpl app in *; now rewrite Htail|].
    destruct (Char.is_dquote y) eqn:Hq;
      [|simpl app in *; now rewrite Htail].
    rewrite <- app_assoc. f_equal.
    apply IH; [simpl; rewrite length_app; simpl; lia|].
    destruct z as [|z1 z2]; [exact I|].
    rewrite last_char_cons in Hlast by discriminate. exact Hlast.
Qed.

Lemma unquote_words_plain_prefix w v :
  forallb Char.is_word w = true ->
  unquote_words (w ++ v) = w ++ unquote_words v.
Proof.
  induction w as [|c w IH]; [reflexivity|].
  intros H. simpl in H. apply andb_true_iff in H as [Hc H].
  simpl app. rewrite unquote_words_cons. unfold m_quoted.
  now rewrite (word_not_dquote _ Hc), IH.
Qed.

Lemma unquote_words_quoted w v :
  w <> [] -> forallb Char.is_word w = true ->
  unquote_words (dq w ++ v) = w ++ unquote_words v.
Proof.
  intros Hne Hw. unfold dq. simpl app. rewrite <- app_assoc. simpl app.
  rewrite unquote_words_cons, m_quoted_app by assumption. reflexivity.
Qed.

(** *** The last character through the first three stages *)

Lemma collapse_spaces_last a c :
  last_char a = Some c ->
  last_char (collapse_spaces a)
  = Some (if Char.is_space c then Char.space else c).
Proof.
  induction a as [a IH] using length_ind.
  intros Hl. destruct a as [|x a']; [discriminate|].
  rewrite collapse_spaces_cons. unfold m_space.
  destruct (Char.is_space x) eqn:Hx.
  - simpl app.
    destruct (span_cases Char.is_space a')
      as [Hall | (p & y & z & -> & Hp & Hy)].
    + rewrite drop_while_all by assumption.
      assert (Hc : Char.is_space c = true).
      { apply last_char_In in Hl. destruct Hl as [<-|Hin]; [exact Hx|].
        rewrite forallb_forall in Hall. auto. }
      now rewrite Hc.
    + rewrite drop_while_stop by assumption.
      change (x :: p ++ y :: z) with ((x :: p) ++ y :: z) in Hl.
      rewrite last_char_app_l in Hl.
      assert (H : last_char (collapse_spaces (y :: z))
                  = Some (if Char.is_space c then Char.space else c)).
      { apply IH; [simpl; rewrite length_app; simpl; lia | exact Hl]. }
      rewrite last_char_cons; [exact H|].
      intros E. rewrite E in H. discriminate.
  - destruct a' as [|y a''].
    + simpl in Hl. injection Hl as <-. now rewrite Hx.
    + rewrite last_char_cons in Hl by discriminate.
      assert (H : last_char (collapse_spaces (y :: a''))
                  = Some (if Char.is_space c then Char.space else c)).
      { apply IH; [simpl; lia | exact Hl]. }
      rewrite last_char_cons; [exact H|].
      intros E. rewrite E in H. discriminate.
Qed.

Lemma tighten_punct_last a c :
  last_char a = Some c ->
  exists c', last_char (tighten_punct a) = Some c'
             /\ (c' = c \/ Char.is_punct c' = true).
Proof.
  induction a as [a IH] using length_ind.
  intros Hl. destruct a as [|x a']; [discriminate|].
  rewrite tighten_punct_cons.
  destruct (m_punct (x :: a')) as [[out rest]|] eqn:Hm.
  - pose proof (m_punct_shrinking _ _ _ Hm) as Hlen.
    unfold m_punct in Hm.
    destruct (drop_while Char.is_blank (x :: a')) as [|p t] eqn:Hd;
      [discriminate|].
    destruct (Char.is_punct p) eqn:Hp; [|discriminate].
    injection Hm as <- <-. simpl app.
    destruct (drop_while Char.is_blank t) as [|y z] eqn:Hd'.
    + exists p. split; [reflexivity | now right].
    + assert (Hl' : last_char (y :: z) = Some c).
      { rewrite <- Hl.
        rewrite <- (take_drop_while Char.is_blank (x :: a')), Hd.
        rewrite last_char_app_l.
        rewrite <- (take_drop_while Char.is_blank t), Hd'.
        change (p :: take_while Char.is_blank t ++ y :: z)
          with ((p :: take_while Char.is_blank t) ++ y :: z).
        now rewrite last_char_app_l. }
      destruct (IH (y :: z) Hlen Hl') as (c' & Hc' & Hor).
      exists c'. split; [|exact Hor].
      rewrite last_char_cons; [exact Hc'|].
      intros E. rewrite E in Hc'. discriminate.
  - destruct a' as [|y a''].
    + exists x. split; [reflexivity|]. left. simpl in Hl. congruence.
    + rewrite last_char_cons in Hl by discriminate.
      destruct (IH (y :: a'') (Nat.lt_succ_diag_r _) Hl) as (c' & Hc' & Hor).
      exists c'. split; [|exact Hor].
      rewrite last_char_cons; [exact Hc'|].
      intros E. rewrite E in Hc'. discriminate.
Qed.

(** *** Comment text at the level of [canonicalize] *)

Lemma canonicalize_comment_text u c1 c2 v :
  no_newline c1 = true -> no_newline c2 = true ->
  canonicalize (u ++ dashes ++ c1 ++ Char.newline :: v) =
  canonicalize (u ++ dashes ++ c2 ++ Char.newline :: v).
Proof.
  intros H1 H2. rewrite !canonicalize_eq.
  now rewrite (strip_comments_comment_text u c1 c2 v H1 H2).
Qed.

Lemma spaces_no_dash w :
  forallb Char.is_space w = true ->
  forallb (fun c => negb (Char.is_dash c)) w = true.
Proof.
  intros H. apply forallb_forall. intros c Hc.
  rewrite forallb_forall in H. apply negb_true_iff, space_not_dash. auto.
Qed.

Lemma plain_char c :
  Char.is_word c || Char.is_dquote c = true ->
  Char.is_dash c = false /\ Char.is_space c = false
  /\ Char.is_blank c = false /\ Char.is_punct c = false.
Proof.
  intros H. apply orb_true_iff in H as [H|H].
  - repeat split; [now apply word_not_dash | now apply word_not_space | |
                   now apply word_not_punct].
    destruct (Char.is_blank c) eqn:E; [|reflexivity].
    apply blank_is_space in E. rewrite (word_not_space _ H) in E.
    discriminate.
  - apply N.eqb_eq in H. subst c. repeat split; reflexivity.
Qed.

(** *** Splitting [strip_comments] after a string that ends no dash *)

Lemma strip_comments_app_nodash u rest :
  unclosed_comment u = false -> ends_in_dash u = false ->
  strip_comments (u ++ rest) = strip_comments u ++ strip_comments rest.
Proof.
  intros Hu He. induction u as [u IH] using length_ind.
  destruct u as [|x u']; [reflexivity|].
  simpl app. rewrite !strip_comments_cons.
  destruct u' as [|y u''].
  - unfold ends_in_dash in He. simpl in He. simpl app.
    unfold m_comment. rewrite He. simpl.
    destruct rest; reflexivity.
  - simpl app. unfold m_comment.
    simpl in Hu. apply orb_false_iff in Hu as [Hxy Hu].
    assert (He' : ends_in_dash (y :: u'') = false).
    { unfold ends_in_dash in *.
      rewrite last_char_cons in He by discriminate. exact He. }
    destruct (Char.is_dash x && Char.is_dash y) eqn:Hd.
    + apply andb_true_iff in Hd as [Hx Hy]. rewrite Hx, Hy in Hxy.
      simpl in Hxy.
      destruct (after_newline u'') as [t|] eqn:Ht.
      * rewrite after_newline_app_gen, Ht. simpl app.
        apply after_newline_length in Ht as Hlen.
        apply after_newline_inv in Ht as (c & Hc & _).
        apply IH; [simpl; lia | |].
        -- apply orb_false_iff in Hu as [_ Hu]. rewrite Hc in Hu.
           apply (unclosed_comment_app_r (c ++ [Char.newline])).
           now rewrite <- app_assoc.
        -- destruct t as [|t1 t2]; [reflexivity|].
           unfold ends_in_dash in *. rewrite Hc in He'.
           replace (y :: c ++ Char.newline :: t1 :: t2)
             with ((y :: c ++ [Char.newline]) ++ t1 :: t2) in He'
             by (simpl; now rewrite <- app_assoc).
           now rewrite last_char_app_l in He'.
      * apply after_newline_none in Ht. congruence.
    + simpl app. f_equal. apply (IH (y :: u'')); [simpl; lia | exact Hu | exact He'].
Qed.

Lemma strip_comments_closed_comment c v :
  no_newline c = true ->
  strip_comments (dashes ++ c ++ Char.newline :: v) = strip_comments v.
Proof.
  intros Hc. simpl app. rewrite strip_comments_cons. simpl.
  now rewrite (after_newline_app c v Hc).
Qed.

Lemma punct_not_dash c : Char.is_punct c = true -> Char.is_dash c = false.
Proof. char_facts. Qed.

(** *** White space that can go *)

Lemma last_char_split s c : last_char s = Some c -> exists s0, s = s0 ++ [c].
Proof.
  induction s as [|a s IH]; [discriminate|]. simpl.
  destruct s as [|b s'].
  - intros H; injection H as ->. now exists [].
  - intros H. destruct (IH H) as [s0 Hs0]. exists (a :: s0).
    simpl. now rewrite <- Hs0.
Qed.

Lemma collapse_spaces_app_l a rest :
  match last_char a with
  | Some c => Char.is_space c = false
  | None => True
  end ->
  collapse_spaces (a ++ rest) = collapse_spaces a ++ collapse_spaces rest.
Proof.
  induction a as [a IH] using length_ind. intros Hl.
  destruct a as [|x a']; [reflexivity|].
  simpl app. rewrite !collapse_spaces_cons. unfold m_space.
  destruct (Char.is_space x) eqn:Hx.
  - simpl app. f_equal.
    destruct (span_cases Char.is_space a')
      as [Hall | (p & y & z & -> & Hp & Hy)].
    + exfalso.
      destruct (last_char (x :: a')) as [c|] eqn:Hc;
        [|apply last_char_none in Hc; discriminate].
      apply last_char_In in Hc. destruct Hc as [<-|Hin]; [congruence|].
      rewrite forallb_forall in Hall. rewrite (Hall _ Hin) in Hl.
      discriminate.
    + rewrite <- !app_assoc. simpl app.
      rewrite !drop_while_stop by assumption.
      apply (IH (y :: z)); [simpl; rewrite length_app; simpl; lia|].
      change (x :: p ++ y :: z) with ((x :: p) ++ y :: z) in Hl.
      now rewrite last_char_app_l in Hl.
  - simpl app. f_equal. apply IH; [simpl; lia|].
    destruct a' as [|y a'']; [exact I|].
    rewrite last_char_cons in Hl by discriminate. exact Hl.
Qed.

Lemma collapse_spaces_one_blank : collapse_spaces [Char.space] = [Char.space].
Proof. reflexivity. Qed.

(** White space at the end of a string collapses to at most one blank. *)
Lemma collapse_spaces_end a w :
  forallb Char.is_space w = true ->
  exists bl, forallb Char.is_blank bl = true
             /\ collapse_spaces (a ++ w) = collapse_spaces a ++ bl.
Proof.
  intros Hw. destruct w as [|c w'].
  { exists []. rewrite !app_nil_r. now split. }
  assert (Hrun : collapse_spaces (a ++ c :: w')
                 = collapse_spaces (a ++ [Char.space])).
  { pose proof (collapse_spaces_run a (c :: w') [Char.space] []) as H.
    rewrite !app_nil_r in H. apply H; [discriminate | discriminate | exact Hw |].
    reflexivity. }
  rewrite Hrun.
  destruct (last_char a) as [z|] eqn:Hl.
  - destruct (Char.is_space z) eqn:Hz.
    + apply last_char_split in Hl as [a0 ->]. exists [].
      split; [reflexivity|]. rewrite app_nil_r, <- app_assoc.
      pose proof (collapse_spaces_run a0 ([z] ++ [Char.space]) [z] []) as H.
      rewrite !app_nil_r in H. apply H; [discriminate | discriminate | |].
      * simpl. now rewrite Hz.
      * simpl. now rewrite Hz.
    + exists [Char.space]. split; [reflexivity|].
      rewrite collapse_spaces_app_l by now rewrite Hl.
      now rewrite collapse_spaces_one_blank.
  - apply last_char_none in Hl. subst a. exists [Char.space].
    split; reflexivity.
Qed.

(** White space at the start of a string collapses to at most one blank. *)
Lemma collapse_spaces_start w b :
  forallb Char.is_space w = true ->
  exists bl, forallb Char.is_blank bl = true
             /\ collapse_spaces (w ++ b) = bl ++ collapse_spaces b.
Proof.
  intros Hw. destruct w as [|c w'].
  { exists []. now split. }
  simpl in Hw. apply andb_true_iff in Hw as [Hc Hw].
  simpl app. rewrite collapse_spaces_cons. unfold m_space. rewrite Hc.
  rewrite drop_while_all_app by exact Hw.
  destruct b as [|y b'].
  - exists [Char.space]. split; reflexivity.
  - destruct (Char.is_space y) eqn:Hy.
    + exists []. split; [reflexivity|]. simpl drop_while. rewrite Hy.
      rewrite (collapse_spaces_cons y b'). unfold m_space. now rewrite Hy.
    + exists [Char.space]. split; [reflexivity|].
      simpl drop_while. now rewrite Hy.
Qed.

(** Blanks on either side of one of [(),] are taken with it. *)
Lemma tighten_punct_around x b1 p b2 z :
  forallb Char.is_blank b1 = true -> forallb Char.is_blank b2 = true ->
  Char.is_punct p = true ->
  tighten_punct (x ++ b1 ++ p :: b2 ++ z) = tighten_punct (x ++ p :: z).
Proof.
  intros H1 H2 Hp. revert b1 H1.
  assert (Hpb : Char.is_blank p = false) by now apply punct_not_blank.
  assert (HL : forall b, forallb Char.is_blank b = true ->
             drop_while Char.is_blank (b ++ p :: b2 ++ z) = p :: b2 ++ z).
  { intros b Hb. now apply drop_while_stop. }
  assert (HR : forall b, forallb Char.is_blank b = true ->
             drop_while Char.is_blank (b ++ p :: z) = p :: z).
  { intros b Hb. now apply drop_while_stop. }
  assert (HTR : tighten_punct (p :: z)
                = p :: tighten_punct (drop_while Char.is_blank z)).
  { rewrite tighten_punct_cons. unfold m_punct. cbn [drop_while].
    now rewrite Hpb, Hp. }
  assert (H0 : forall b, forallb Char.is_blank b = true ->
             tighten_punct (b ++ p :: b2 ++ z) = tighten_punct (p :: z)).
  { intros b Hb. rewrite HTR.
    destruct b as [|c b'].
    - cbn [app]. rewrite tighten_punct_cons. unfold m_punct.
      cbn [drop_while]. rewrite Hpb, Hp.
      now rewrite drop_while_all_app.
    - cbn [app]. rewrite tighten_punct_cons. unfold m_punct.
      change (c :: b' ++ p :: b2 ++ z) with ((c :: b') ++ p :: b2 ++ z).
      rewrite (HL _ Hb), Hp. now rewrite drop_while_all_app. }
  induction x as [x IH] using length_ind. intros b1 H1.
  destruct x as [|c x']; [now apply H0|].
  change ((c :: x') ++ b1 ++ p :: b2 ++ z)
    with (c :: x' ++ b1 ++ p :: b2 ++ z).
  change ((c :: x') ++ p :: z) with (c :: x' ++ p :: z).
  rewrite !tighten_punct_cons. unfold m_punct.
  change (c :: x' ++ b1 ++ p :: b2 ++ z)
    with ((c :: x') ++ b1 ++ p :: b2 ++ z).
  change (c :: x' ++ p :: z) with ((c :: x') ++ p :: z).
  destruct (span_cases Char.is_blank (c :: x'))
    as [Hall | (pre & y & t & Heq & Hpre & Hy)].
  - rewrite (app_assoc (c :: x') b1), HL
      by (rewrite forallb_app, Hall, H1; reflexivity).
    rewrite HR by exact Hall. rewrite Hp.
    now rewrite drop_while_all_app.
  - rewrite Heq, <- !app_assoc. simpl app.
    rewrite !drop_while_stop by assumption.
    destruct (Char.is_punct y).
    + simpl app. f_equal.
      destruct (span_cases Char.is_blank t)
        as [Ht | (p' & y' & t' & -> & Hp' & Hy')].
      * rewrite (app_assoc t b1), HL
          by (rewrite forallb_app, Ht, H1; reflexivity).
        rewrite HR by exact Ht. apply (H0 []). reflexivity.
      * rewrite <- !app_assoc. simpl app.
        rewrite !drop_while_stop by assumption.
        apply (IH (y' :: t')); [|exact H1].
        apply (f_equal (@List.length N)) in Heq. simpl in Heq.
        rewrite !length_app in Heq. simpl in Heq.
        rewrite length_app in Heq. simpl in *. lia.
    + simpl app. f_equal. apply IH; [simpl; lia | exact H1].
Qed.

Lemma tighten_punct_blanks bl :
  forallb Char.is_blank bl = true -> tighten_punct bl = bl.
Proof.
  induction bl as [|c bl IH]; [reflexivity|]. intros H.
  rewrite tighten_punct_cons. unfold m_punct.
  rewrite (drop_while_all _ _ H).
  simpl in H. apply andb_true_iff in H as [_ H]. now rewrite IH.
Qed.

Lemma tighten_punct_blank_prefix bl y :
  forallb Char.is_blank bl = true ->
  exists bl', forallb Char.is_blank bl' = true
              /\ tighten_punct (bl ++ y) = bl' ++ tighten_punct y.
Proof.
  induction bl as [|c bl IH]; intros H; [exists []; now split|].
  simpl in H. apply andb_true_iff in H as [Hc H].
  destruct (IH H) as (bl' & Hb & Heq).
  simpl app. rewrite tighten_punct_cons, (m_punct_blank c _ Hc).
  destruct (m_punct (bl ++ y)) as [[out rest]|] eqn:Hm.
  - destruct (bl ++ y) as [|d r] eqn:Hby; [discriminate|].
    rewrite tighten_punct_cons, Hm in Heq.
    exists bl'. now split.
  - exists (c :: bl'). split; [simpl; now rewrite Hc, Hb|].
    rewrite Heq. reflexivity.
Qed.

Lemma tighten_punct_blank_suffix x bl :
  forallb Char.is_blank bl = true ->
  exists bl', forallb Char.is_blank bl' = true
              /\ tighten_punct (x ++ bl) = tighten_punct x ++ bl'.
Proof.
  intros Hb. induction x as [x IH] using length_ind.
  destruct x as [|c x'].
  { exists bl. split; [exact Hb|]. now apply tighten_punct_blanks. }
  change ((c :: x') ++ bl) with (c :: x' ++ bl).
  rewrite !tighten_punct_cons. unfold m_punct.
  change (c :: x' ++ bl) with ((c :: x') ++ bl).
  destruct (span_cases Char.is_blank (c :: x'))
    as [Hall | (pre & y & t & Heq & Hpre & Hy)].
  - rewrite (drop_while_all _ ((c :: x') ++ bl))
      by (rewrite forallb_app, Hall, Hb; reflexivity).
    rewrite (drop_while_all _ (c :: x')) by exact Hall.
    destruct (IH x' (Nat.lt_succ_diag_r _)) as (bl' & Hb' & Heq).
    exists bl'. split; [exact Hb'|]. simpl. now rewrite Heq.
  - rewrite Heq, <- !app_assoc. simpl app.
    rewrite !drop_while_stop by assumption.
    destruct (Char.is_punct y).
    + destruct (span_cases Char.is_blank t)
        as [Ht | (p' & y' & t' & -> & Hp' & Hy')].
      * rewrite (drop_while_all _ (t ++ bl))
          by (rewrite forallb_app, Ht, Hb; reflexivity).
        rewrite (drop_while_all _ t) by exact Ht.
        exists []. split; [reflexivity|]. now rewrite app_nil_r.
      * rewrite <- !app_assoc. simpl app.
        rewrite !drop_while_stop by assumption.
        destruct (IH (y' :: t')) as (bl' & Hb' & Heq').
        { apply (f_equal (@List.length N)) in Heq. simpl in Heq.
          rewrite !length_app in Heq. simpl in Heq.
          rewrite length_app in Heq. simpl in *. lia. }
        exists bl'. split; [exact Hb'|].
        simpl app in Heq'. simpl app. rewrite Heq'. reflexivity.
    + destruct (IH x' (Nat.lt_succ_diag_r _)) as (bl' & Hb' & Heq').
      exists bl'. split; [exact Hb'|]. simpl. now rewrite Heq'.
Qed.

Lemma blank_not_dquote c : Char.is_blank c = true -> Char.is_dquote c = false.
Proof. char_facts. Qed.

Lemma blank_not_word c : Char.is_blank c = true -> Char.is_word c = false.
Proof. char_facts. Qed.

Lemma unquote_words_blank_prefix bl y :
  forallb Char.is_blank bl = true ->
  unquote_words (bl ++ y) = bl ++ unquote_words y.
Proof.
  induction bl as [|c bl IH]; [reflexivity|]. intros H.
  simpl in H. apply andb_true_iff in H as [Hc H].
  simpl app. rewrite unquote_words_cons. unfold m_quoted.
  now rewrite (blank_not_dquote _ Hc), IH.
Qed.

Lemma unquote_words_blank_suffix x bl :
  forallb Char.is_blank bl = true ->
  unquote_words (x ++ bl) = unquote_words x ++ bl.
Proof.
  intros Hb. destruct bl as [|b bl'].
  { now rewrite !app_nil_r. }
  assert (Hb0 : Char.is_blank b = true).
  { simpl in Hb. now apply andb_true_iff in Hb as [Hb _]. }
  induction x as [x IH] using length_ind.
  destruct x as [|c x'].
  { simpl app. rewrite <- (app_nil_r (b :: bl')) at 1.
    rewrite unquote_words_blank_prefix by exact Hb.
    change (unquote_words []) with (@nil N). now rewrite app_nil_r. }
  simpl app. rewrite !unquote_words_cons. unfold m_quoted.
  destruct (Char.is_dquote c) eqn:Hc.
  2:{ simpl app. f_equal. apply IH. simpl. lia. }
  destruct (span_cases Char.is_word x')
    as [Hall | (pw & y & z & -> & Hpw & Hy)].
  - rewrite (take_while_stop _ x' b bl') by
      (trivial; now apply blank_not_word).
    rewrite (drop_while_stop _ x' b bl') by
      (trivial; now apply blank_not_word).
    rewrite (drop_while_all _ x') by exact Hall.
    rewrite (blank_not_dquote _ Hb0).
    assert (Hgoal : c :: unquote_words (x' ++ b :: bl')
                    = (c :: unquote_words x') ++ b :: bl').
    { cbn [app]. f_equal. apply (IH x'). simpl. lia. }
    destruct x' as [|d x'']; [exact Hgoal|].
    destruct (take_while Char.is_word (d :: x'')); exact Hgoal.
  - rewrite <- !app_assoc. simpl app.
    rewrite !take_while_stop, !drop_while_stop by assumption.
    assert (Htail : unquote_words ((pw ++ y :: z) ++ b :: bl')
                    = unquote_words (pw ++ y :: z) ++ b :: bl').
    { apply IH. simpl. lia. }
    rewrite <- app_assoc in Htail. simpl app in Htail.
    destruct pw as [|w ws]; [simpl app in *; now rewrite Htail|].
    destruct (Char.is_dquote y) eqn:Hq;
      [|simpl app in *; now rewrite Htail].
    rewrite <- app_assoc. f_equal.
    apply IH. simpl. rewrite length_app. simpl. lia.
Qed.

Lemma blanks_are_spaces bl :
  forallb Char.is_blank bl = true -> forallb Char.is_space bl = true.
Proof.
  intros H. apply forallb_forall. intros c Hc.
  rewrite forallb_forall in H. apply blank_is_space. auto.
Qed.

Lemma trim_spaces_l w s :
  forallb Char.is_space w = true -> trim (w ++ s) = trim s.
Proof. intros H. unfold trim. now rewrite drop_while_all_app. Qed.

Lemma forallb_rev_spaces (p : N -> bool) l :
  forallb p l = true -> forallb p (rev l) = true.
Proof.
  rewrite !forallb_forall. intros H c Hc. apply H. now apply in_rev.
Qed.

Lemma trim_spaces_r s w :
  forallb Char.is_space w = true -> trim (s ++ w) = trim s.
Proof.
  intros H. unfold trim.
  destruct (span_cases Char.is_space s)
    as [Hall | (pre & y & z & -> & Hpre & Hy)].
  - rewrite (drop_while_all _ (s ++ w))
      by (rewrite forallb_app, Hall, H; reflexivity).
    now rewrite (drop_while_all _ s).
  - rewrite <- app_assoc. simpl app.
    rewrite !drop_while_stop by assumption.
    change (y :: z ++ w) with ((y :: z) ++ w).
    rewrite rev_app_distr.
    now rewrite drop_while_all_app by now apply forallb_rev_spaces.
Qed.

(** *** Where the comments end *)

(** What follows has no newline: it closes no comment of [u]. *)
Lemma strip_comments_open u rest :
  no_newline rest = true ->
  strip_comments (u ++ rest) = strip_comments u ++ rest.
Proof.
  intros Hr. induction u as [u IH] using length_ind.
  destruct u as [|x u'].
  { cbn [app]. change (strip_comments []) with (@nil N).
    now apply strip_comments_no_newline. }
  simpl app. rewrite !strip_comments_cons.
  destruct u' as [|y u''].
  - simpl app. replace (m_comment [x]) with (@None (jsstring * jsstring))
      by reflexivity.
    replace (m_comment (x :: rest)) with (@None (jsstring * jsstring)).
    + f_equal. apply (IH []). simpl. lia.
    + unfold m_comment. destruct rest as [|c r]; [reflexivity|].
      destruct (Char.is_dash x && Char.is_dash c); [|reflexivity].
      replace (after_newline r) with (@None jsstring); [reflexivity|].
      symmetry. apply after_newline_none.
      unfold no_newline in *. simpl in Hr.
      now apply andb_true_iff in Hr as [_ Hr].
  - simpl app. unfold m_comment.
    destruct (Char.is_dash x && Char.is_dash y).
    + rewrite after_newline_app_gen.
      destruct (after_newline u'') as [t|] eqn:Ht.
      * simpl app. apply IH. apply after_newline_length in Ht. simpl. lia.
      * replace (after_newline rest) with (@None jsstring)
          by (symmetry; now apply after_newline_none).
        simpl app. f_equal. apply (IH (y :: u'')). simpl. lia.
    + simpl app. f_equal. apply (IH (y :: u'')). simpl. lia.
Qed.

Lemma no_newline_app a b :
  no_newline (a ++ b) = no_newline a && no_newline b.
Proof. apply forallb_app. Qed.

(** A piece without dashes, where no comment is open or none is closed
    later, stays where it is. *)
Lemma strip_comments_middle u x v :
  settled u (x ++ v) = true -> x <> [] ->
  forallb (fun c => negb (Char.is_dash c)) x = true ->
  strip_comments (u ++ x ++ v) = strip_comments u ++ x ++ strip_comments v.
Proof.
  intros Hs Hx Hd. unfold settled in Hs.
  destruct (unclosed_comment u) eqn:Hu; cbn [negb orb] in Hs.
  - rewrite strip_comments_open by exact Hs.
    rewrite no_newline_app in Hs. apply andb_true_iff in Hs as [_ Hv].
    now rewrite (strip_comments_no_newline v Hv).
  - rewrite strip_comments_app, strip_comments_plain_prefix; trivial.
    destruct x as [|c x']; [congruence|]. simpl in *.
    apply andb_true_iff in Hd as [Hc _]. now apply negb_true_iff in Hc.
Qed.

(** A last character that is no newline is outside every closed
    comment. *)
Lemma strip_comments_last_any u c :
  last_char u = Some c -> Char.is_newline c = false ->
  last_char (strip_comments u) = Some c.
Proof.
  intros Hl Hc. induction u as [u IH] using length_ind.
  destruct u as [|x u']; [discriminate|].
  rewrite strip_comments_cons.
  destruct (m_comment (x :: u')) as [[out rest]|] eqn:Hm.
  - pose proof (m_comment_shrinking _ _ _ Hm) as Hlen.
    unfold m_comment in Hm. destruct u' as [|y u'']; [discriminate|].
    destruct (Char.is_dash x && Char.is_dash y); [|discriminate].
    destruct (after_newline u'') as [t|] eqn:Ht; [|discriminate].
    injection Hm as <- <-. simpl app.
    apply after_newline_inv in Ht as (k & -> & _).
    assert (Hsplit : x :: y :: k ++ Char.newline :: t
                     = (x :: y :: k ++ [Char.newline]) ++ t)
      by (simpl; now rewrite <- app_assoc).
    destruct t as [|t1 t2].
    + rewrite Hsplit, app_nil_r in Hl.
      change (x :: y :: k ++ [Char.newline])
        with ((x :: y :: k) ++ [Char.newline]) in Hl.
      rewrite last_char_app in Hl. injection Hl as <-. discriminate.
    + apply IH; [exact Hlen|].
      rewrite Hsplit, last_char_app_r in Hl by discriminate. exact Hl.
  - destruct u' as [|y u''].
    + simpl in *. exact Hl.
    + rewrite last_char_cons in Hl by discriminate.
      assert (H : last_char (strip_comments (y :: u'')) = Some c).
      { apply IH; [simpl; lia | exact Hl]. }
      rewrite last_char_cons; [exact H|].
      intros E. rewrite E in H. discriminate.
Qed.

Lemma front_stages_last_any u :
  quote_ok u = true ->
  match last_char (tighten_punct (collapse_spaces (strip_comments u))) with
  | Some c => Char.is_word c = false /\ Char.is_dquote c = false
  | None => True
  end.
Proof.
  intros Hq. unfold quote_ok in Hq.
  destruct (last_char u) as [c|] eqn:Hl.
  - apply negb_true_iff in Hq.
    apply orb_false_iff in Hq as [Hq Hn].
    apply orb_false_iff in Hq as [Hw Hd].
    pose proof (strip_comments_last_any u c Hl Hn) as H1.
    pose proof (collapse_spaces_last _ _ H1) as H2.
    destruct (tighten_punct_last _ _ H2) as (c' & -> & [-> | Hp]).
    + destruct (Char.is_space c); [split; reflexivity | tauto].
    + split.
      * destruct (Char.is_word c') eqn:E; [|reflexivity].
        apply word_not_punct in E. congruence.
      * destruct (Char.is_dquote c') eqn:E; [|reflexivity].
        apply dquote_not_punct in E. congruence.
  - apply last_char_none in Hl. subst u. exact I.
Qed.

Lemma plain_no_newline q : plain q = true -> no_newline q = true.
Proof.
  unfold plain, no_newline. rewrite !forallb_forall. intros H c Hc.
  specialize (H c Hc). apply negb_true_iff.
  destruct (Char.is_newline c) eqn:E; [|reflexivity].
  apply newline_is_space in E.
  destruct (plain_char c H) as (_ & Hs & _). congruence.
Qed.

Lemma settled_later u a b :
  settled u a = true -> (no_newline a = true -> no_newline b = true) ->
  settled u b = true.
Proof.
  unfold settled. destruct (unclosed_comment u); cbn [negb orb]; auto.
Qed.

Lemma front_stages_plain_settled u q v :
  settled u v = true -> q <> [] -> plain q = true ->
  tighten_punct (collapse_spaces (strip_comments (u ++ q ++ v)))
  = tighten_punct (collapse_spaces (strip_comments u))
    ++ q ++ tighten_punct (collapse_spaces (strip_comments v)).
Proof.
  intros Hu Hne Hq.
  assert (Hall : forall c, In c q ->
            Char.is_dash c = false /\ Char.is_space c = false
            /\ Char.is_blank c = false /\ Char.is_punct c = false).
  { intros c Hc. apply plain_char. unfold plain in Hq.
    rewrite forallb_forall in Hq. auto. }
  assert (Hhead : forall t, exists c, head_char (q ++ t) = Some c /\ In c q).
  { intros t. destruct q as [|c q']; [congruence|].
    exists c. split; [reflexivity | now left]. }
  rewrite strip_comments_middle; trivial.
  - rewrite collapse_spaces_app, collapse_spaces_plain_prefix.
    + rewrite tighten_punct_app, tighten_punct_plain_prefix.
      * reflexivity.
      * apply forallb_forall. intros c Hc.
        destruct (Hall c Hc) as (_ & _ & -> & ->). reflexivity.
      * destruct (Hhead (collapse_spaces (strip_comments v)))
          as (c & -> & Hc).
        destruct (Hall c Hc) as (_ & _ & Hb & Hp). now split.
    + apply forallb_forall. intros c Hc.
      destruct (Hall c Hc) as (_ & -> & _). reflexivity.
    + destruct (Hhead (strip_comments v)) as (c & -> & Hc).
      now destruct (Hall c Hc) as (_ & Hs & _).
  - apply (settled_later u v); [exact Hu|]. intros Hv.
    now rewrite no_newline_app, (plain_no_newline q Hq), Hv.
  - apply forallb_forall. intros c Hc.
    destruct (Hall c Hc) as (-> & _). reflexivity.
Qed.

(** *** The layout differences at the level of [canonicalize] *)

Lemma canonicalize_comment_gone u c v :
  no_newline c = true -> unclosed_comment u = false ->
  ends_in_dash u = false ->
  canonicalize (u ++ dashes ++ c ++ Char.newline :: v) = canonicalize (u ++ v).
Proof.
  intros Hc Hu He. rewrite !canonicalize_eq.
  rewrite (strip_comments_app_nodash u (dashes ++ c ++ Char.newline :: v))
    by assumption.
  rewrite (strip_comments_app_nodash u v) by assumption.
  now rewrite strip_comments_closed_comment.
Qed.

Lemma canonicalize_space_run_settled u w1 w2 v :
  w1 <> [] -> w2 <> [] ->
  forallb Char.is_space w1 = true -> forallb Char.is_space w2 = true ->
  settled u (w1 ++ w2 ++ v) = true ->
  canonicalize (u ++ w1 ++ v) = canonicalize (u ++ w2 ++ v).
Proof.
  intros N1 N2 H1 H2 Hu. rewrite !canonicalize_eq.
  rewrite (strip_comments_middle u w1 v), (strip_comments_middle u w2 v);
    trivial; try now apply spaces_no_dash.
  - now rewrite (collapse_spaces_run _ w1 w2).
  - apply (settled_later _ _ _ Hu). rewrite !no_newline_app.
    intros H. apply andb_true_iff in H as [_ H]. exact H.
  - apply (settled_later _ _ _ Hu). rewrite !no_newline_app.
    intros H. apply andb_true_iff in H as [Ha H].
    apply andb_true_iff in H as [_ H]. now rewrite Ha, H.
Qed.

Lemma punct_not_newline c :
  Char.is_punct c = true -> Char.is_newline c = false.
Proof. char_facts. Qed.

Lemma strip_comments_at_punct u w p w' v :
  forallb Char.is_space w = true -> forallb Char.is_space w' = true ->
  Char.is_punct p = true -> settled u (w ++ w' ++ v) = true ->
  strip_comments (u ++ w ++ p :: w' ++ v)
  = strip_comments u ++ w ++ p :: w' ++ strip_comments v.
Proof.
  intros Hw Hw' Hp Hu.
  replace (u ++ w ++ p :: w' ++ v) with (u ++ (w ++ p :: w') ++ v)
    by (now rewrite <- app_assoc).
  rewrite strip_comments_middle.
  - now rewrite <- app_assoc.
  - apply (settled_later _ _ _ Hu). rewrite !no_newline_app.
    intros H. apply andb_true_iff in H as [Ha H].
    apply andb_true_iff in H as [Hb Hc].
    unfold no_newline at 2. cbn [forallb].
    fold (no_newline w'). now rewrite Ha, Hb, Hc, (punct_not_newline _ Hp).
  - destruct w; discriminate.
  - rewrite forallb_app. cbn [forallb].
    rewrite !spaces_no_dash by assumption.
    now rewrite (punct_not_dash _ Hp).
Qed.

Lemma collapse_spaces_at_punct a w p w' b :
  forallb Char.is_space w = true -> forallb Char.is_space w' = true ->
  Char.is_punct p = true ->
  exists b1 b2,
    forallb Char.is_blank b1 = true /\ forallb Char.is_blank b2 = true
    /\ collapse_spaces (a ++ w ++ p :: w' ++ b)
       = collapse_spaces a ++ b1 ++ p :: b2 ++ collapse_spaces b.
Proof.
  intros Hw Hw' Hp.
  destruct (collapse_spaces_end a w Hw) as (b1 & Hb1 & H1).
  destruct (collapse_spaces_start w' b Hw') as (b2 & Hb2 & H2).
  exists b1, b2. split; [exact Hb1|]. split; [exact Hb2|].
  rewrite app_assoc.
  rewrite collapse_spaces_app by (simpl; now apply punct_not_space).
  rewrite H1.
  change (p :: w' ++ b) with ([p] ++ w' ++ b).
  rewrite (collapse_spaces_plain_prefix [p] (w' ++ b))
    by (simpl; now rewrite (punct_not_space _ Hp)).
  rewrite H2, <- app_assoc. reflexivity.
Qed.

(** White space on either side of one of [(),] does not count. *)
Lemma canonicalize_space_at_punct u w p w' v :
  forallb Char.is_space w = true -> forallb Char.is_space w' = true ->
  Char.is_punct p = true -> settled u (w ++ w' ++ v) = true ->
  canonicalize (u ++ w ++ p :: w' ++ v) = canonicalize (u ++ p :: v).
Proof.
  intros Hw Hw' Hp Hu. rewrite !canonicalize_eq.
  rewrite strip_comments_at_punct by assumption.
  assert (Hu0 : settled u ([] ++ [] ++ v) = true).
  { apply (settled_later _ _ _ Hu). rewrite !no_newline_app.
    intros H. apply andb_true_iff in H as [_ H].
    now apply andb_true_iff in H as [_ H]. }
  pose proof (strip_comments_at_punct u [] p [] v eq_refl eq_refl Hp Hu0)
    as H0.
  cbn [app] in H0. rewrite H0.
  destruct (collapse_spaces_at_punct (strip_comments u) w p w'
              (strip_comments v) Hw Hw' Hp) as (b1 & b2 & Hb1 & Hb2 & ->).
  destruct (collapse_spaces_at_punct (strip_comments u) [] p []
              (strip_comments v) eq_refl eq_refl Hp)
    as (c1 & c2 & Hc1 & Hc2 & Hc).
  cbn [app] in Hc. rewrite Hc.
  rewrite !tighten_punct_around by assumption. reflexivity.
Qed.

Lemma canonicalize_space_at_start w v :
  forallb Char.is_space w = true -> canonicalize (w ++ v) = canonicalize v.
Proof.
  intros Hw. rewrite !canonicalize_eq.
  rewrite strip_comments_plain_prefix by now apply spaces_no_dash.
  destruct (collapse_spaces_start w (strip_comments v) Hw) as (bl & Hbl & ->).
  destruct (tighten_punct_blank_prefix bl (collapse_spaces (strip_comments v))
              Hbl) as (bl' & Hbl' & ->).
  rewrite unquote_words_blank_prefix by exact Hbl'.
  apply trim_spaces_l. now apply blanks_are_spaces.
Qed.

Lemma canonicalize_space_at_end u w :
  forallb Char.is_space w = true -> settled u w = true ->
  canonicalize (u ++ w) = canonicalize u.
Proof.
  intros Hw Hu. rewrite !canonicalize_eq.
  assert (Hs : strip_comments (u ++ w) = strip_comments u ++ w).
  { destruct w as [|c w0]; [now rewrite !app_nil_r|].
    rewrite <- (app_nil_r (c :: w0)) at 1.
    rewrite strip_comments_middle.
    - change (strip_comments []) with (@nil N). now rewrite app_nil_r.
    - now rewrite app_nil_r.
    - discriminate.
    - now apply spaces_no_dash. }
  rewrite Hs.
  destruct (collapse_spaces_end (strip_comments u) w Hw) as (bl & Hbl & ->).
  destruct (tighten_punct_blank_suffix (collapse_spaces (strip_comments u)) bl
              Hbl) as (bl' & Hbl' & ->).
  rewrite unquote_words_blank_suffix by exact Hbl'.
  apply trim_spaces_r. now apply blanks_are_spaces.
Qed.

(** Quotes around a word, also where the word continues one that is not
    quoted. *)
Lemma canonicalize_quoted_word_settled u r w v :
  w <> [] -> forallb Char.is_word w = true ->
  forallb Char.is_word r = true ->
  settled u v = true -> quote_ok u = true ->
  canonicalize (u ++ r ++ dq w ++ v) = canonicalize (u ++ r ++ w ++ v).
Proof.
  intros Hne Hw Hr Hu Hq. rewrite !canonicalize_eq. f_equal.
  assert (Hword : forall x, forallb Char.is_word x = true -> plain x = true).
  { intros x Hx. unfold plain. apply forallb_forall. intros c Hc.
    rewrite forallb_forall in Hx. now rewrite (Hx c Hc). }
  assert (Hpq : plain (r ++ dq w) = true).
  { unfold plain, dq. rewrite !forallb_app. cbn [forallb].
    fold (plain r). fold (plain w).
    now rewrite (Hword r Hr), (Hword w Hw). }
  assert (Hpw : plain (r ++ w) = true).
  { unfold plain. rewrite forallb_app. fold (plain r). fold (plain w).
    now rewrite (Hword r Hr), (Hword w Hw). }
  rewrite !(app_assoc r).
  rewrite !front_stages_plain_settled; trivial.
  - pose proof (front_stages_last_any u Hq) as Hlast.
    set (a := tighten_punct (collapse_spaces (strip_comments u))) in *.
    rewrite !(unquote_words_app a) by exact Hlast.
    rewrite <- !app_assoc.
    rewrite !(unquote_words_plain_prefix r) by exact Hr.
    now rewrite unquote_words_quoted, unquote_words_plain_prefix.
  - destruct r; [destruct w; [congruence | discriminate] | discriminate].
  - unfold dq. destruct r; discriminate.
Qed.

(** ** Strings that differ only in layout *)

(** C7 (as stated), refuted: a comment that runs to the end of the input is
    not stripped, so its text shows in the canonical form; a newline that
    closes a comment disappears with it, so white space after it is not a
    longer run of the same white space; and quotes around a word that
    itself sits between quotes are not all removed. *)
Lemma canonicalize_layout_counterexample :
  canonicalize (js "x --a") <> canonicalize (js "x --b")
  /\ canonicalize (js "x--c" ++ [Char.newline] ++ js "y")
     <> canonicalize (js "x--c" ++ [Char.newline] ++ js " " ++ js "y")
  /\ canonicalize (dq (dq (js "a"))) <> canonicalize (dq (js "a")).
Proof. repeat split; vm_compute; discriminate. Qed.

(** What the rules of [layout_step] ask for is needed: white space between
    two words stays; a run of white space that closes a comment is not
    any other run; a quote that closes what an earlier quote opened opens
    nothing; a comment inside an open comment, or after a dash, does not
    go alone; and white space that closes a comment is not dropped before
    a comma or at the end. *)
Lemma layout_conditions_are_needed :
  canonicalize (js "x y") <> canonicalize (js "xy")
  /\ canonicalize (js "x--a" ++ [Char.newline] ++ js "y")
     <> canonicalize (js "x--a" ++ [Char.newline; Char.newline] ++ js "y")
  /\ canonicalize ([Char.dquote] ++ js "a" ++ dq (js "b"))
     <> canonicalize ([Char.dquote] ++ js "a" ++ js "b")
  /\ canonicalize (js "--a" ++ js "--c" ++ [Char.newline] ++ js "y")
     <> canonicalize (js "--a" ++ js "y")
  /\ canonicalize (js "-" ++ js "--c" ++ [Char.newline] ++ js "y")
     <> canonicalize (js "-" ++ js "y")
  /\ canonicalize (js "--a" ++ [Char.newline] ++ js ",b")
     <> canonicalize (js "--a" ++ js ",b")
  /\ canonicalize (js "--a" ++ [Char.newline])
     <> canonicalize (js "--a").
Proof. repeat split; vm_compute; discriminate. Qed.

(** C7 (amended): two strings have the same canonical form when one is
    reached from the other by any number of these changes, in either
    direction: another text in a comment that a newline closes; another
    run of white space in place of a run of white space; double quotes
    put around a run of word characters or taken from it (the word
    characters before the opening quote, if any, at the start of the
    string or after a character that is not a word character, a double
    quote or a newline); a comment put in or taken out with the newline
    that closes it (no comment open, no dash before it); white space put
    in or taken out next to one of [(] [)] [,], at the start and at the
    end.  White space and quotes count where no comment is open before
    them or none is closed after them. *)
Theorem canonicalize_same_layout s1 s2 :
  same_layout s1 s2 -> canonicalize s1 = canonicalize s2.
Proof.
  induction 1 as [a b Hstep | a | a b _ IH | a b c _ IH1 _ IH2].
  - destruct Hstep.
    + now apply canonicalize_comment_text.
    + now apply canonicalize_space_run_settled.
    + now apply canonicalize_quoted_word_settled.
    + now apply canonicalize_comment_gone.
    + now apply canonicalize_space_at_punct.
    + now apply canonicalize_space_at_start.
    + now apply canonicalize_space_at_end.
  - reflexivity.
  - now symmetry.
  - now transitivity (canonicalize b).
Qed.

Ltac layout_chain mid := apply rst_trans with (y := mid); [apply rst_step|].

(** The input of the repository's own test and the output the test
    expects differ only in layout. *)
Lemma canonicalize_same_layout_witness :
  same_layout testNormaliseSql_input testNormaliseSql_expected
  /\ canonicalize testNormaliseSql_input
     = canonicalize testNormaliseSql_expected.
Proof.
  assert (H : same_layout testNormaliseSql_input testNormaliseSql_expected).
  { unfold testNormaliseSql_input, testNormaliseSql_expected.
    set (c1 := js " This is my table").
    set (c2 := js " There are many like it but this one is mine").
    set (cols := js "A b, C D, " ++ dq (js "E F G") ++ js ", h)").
    set (tail := [Char.newline] ++ js "    ").
    (* the white space before the statement *)
    layout_chain (js "CREATE TABLE " ++ dq (js "Node") ++ js "( "
                  ++ dashes ++ c1 ++ Char.newline :: js "            "
                  ++ dashes ++ c2 ++ Char.newline :: js "            "
                  ++ cols ++ tail).
    { apply (space_at_start ([Char.newline] ++ js "        ")). reflexivity. }
    (* the two comments *)
    layout_chain (js "CREATE TABLE " ++ dq (js "Node") ++ js "( "
                  ++ js "            "
                  ++ dashes ++ c2 ++ Char.newline :: js "            "
                  ++ cols ++ tail).
    { apply (comment_gone
               (js "CREATE TABLE " ++ dq (js "Node") ++ js "( ") c1);
        reflexivity. }
    layout_chain (js "CREATE TABLE " ++ dq (js "Node") ++ js "( "
                  ++ js "            " ++ js "            "
                  ++ cols ++ tail).
    { apply (comment_gone
               (js "CREATE TABLE " ++ dq (js "Node") ++ js "( "
                ++ js "            ") c2); reflexivity. }
    (* the white space after the parenthesis *)
    layout_chain (js "CREATE TABLE " ++ dq (js "Node") ++ js "("
                  ++ cols ++ tail).
    { apply (space_at_punct (js "CREATE TABLE " ++ dq (js "Node")) []
               Char.lparen (js " " ++ js "            " ++ js "            "));
        reflexivity. }
    (* the quotes around the table name *)
    layout_chain (js "CREATE TABLE " ++ js "Node" ++ js "("
                  ++ cols ++ tail).
    { apply (quoted_word (js "CREATE TABLE ") [] (js "Node"));
        [discriminate | reflexivity..]. }
    (* the blanks after the commas *)
    layout_chain (js "CREATE TABLE Node(A b,C D, " ++ dq (js "E F G")
                  ++ js ", h)" ++ tail).
    { apply (space_at_punct (js "CREATE TABLE Node(A b") []
               Char.comma (js " ")); reflexivity. }
    layout_chain (js "CREATE TABLE Node(A b,C D," ++ dq (js "E F G")
                  ++ js ", h)" ++ tail).
    { apply (space_at_punct (js "CREATE TABLE Node(A b,C D") []
               Char.comma (js " ")); reflexivity. }
    layout_chain (js "CREATE TABLE Node(A b,C D," ++ dq (js "E F G")
                  ++ js ",h)" ++ tail).
    { apply (space_at_punct
               (js "CREATE TABLE Node(A b,C D," ++ dq (js "E F G")) []
               Char.comma (js " ")); reflexivity. }
    (* the white space after the statement *)
    apply rst_step.
    apply (space_at_end
             (js "CREATE TABLE Node(A b,C D," ++ dq (js "E F G") ++ js ",h)")
             tail); reflexivity. }
  split; [exact H | exact (canonicalize_same_layout _ _ H)].
Defined.

(** C8 (as stated), refuted: of the quotes around a word that is quoted
    twice, one pass removes the inner pair and a second pass the outer. *)
Lemma canonicalize_not_idempotent :
  canonicalize (canonicalize (dq (dq (js "a"))))
  <> canonicalize (dq (dq (js "a"))).
Proof. vm_compute. discriminate. Qed.

(** C8 (amended): a second pass does nothing to a canonical form in which
    no double-quoted run of word characters is left. *)
Theorem canonicalize_idempotent_unquoted s :
  unquote_words (canonicalize s) = canonicalize s ->
  canonicalize (canonicalize s) = canonicalize s.
Proof. intros H. now rewrite canonicalize_twice. Qed.

(** The input of the repository's own test. *)
Lemma canonicalize_idempotent_unquoted_witness :
  unquote_words (canonicalize testNormaliseSql_input)
  = canonicalize testNormaliseSql_input
  /\ canonicalize (canonicalize testNormaliseSql_input)
     = canonicalize testNormaliseSql_input.
Proof.
  split; [vm_compute; reflexivity|].
  apply canonicalize_idempotent_unquoted. vm_compute. reflexivity.
Defined.

(* ================================================================== *)
(** * Part V. The migration run: lemmas *)
(* ================================================================== *)

(** ** Strings *)

Lemma str_eqb_eq a b : str_eqb a b = true <-> a = b.
Proof.
  revert b. induction a as [|x a IH]; destruct b as [|y b]; simpl;
    try (split; [discriminate | congruence]); [tauto|].
  rewrite andb_true_iff, N.eqb_eq, IH. split.
  - now intros [-> ->].
  - intros H; injection H; auto.
Qed.

Lemma str_eqb_refl a : str_eqb a a = true.
Proof. now apply str_eqb_eq. Qed.

Lemma str_eqb_neq a b : str_eqb a b = false <-> a <> b.
Proof.
  rewrite <- str_eqb_eq. destruct (str_eqb a b); split; congruence.
Qed.

Lemma sqlval_eqb_eq (a b : sqlval) : sqlval_eqb a b = true <-> a = b.
Proof.
  destruct a, b; simpl; try (split; [discriminate | congruence]);
    [|tauto].
  rewrite str_eqb_eq. split; congruence.
Qed.

(** ** Sets and maps *)

Lemma set_has_In k s : set_has k s = true <-> In k s.
Proof.
  unfold set_has. rewrite existsb_exists. split.
  - intros (x & Hx & Hk). apply str_eqb_eq in Hk. now subst.
  - intros H. exists k. split; [exact H | apply str_eqb_refl].
Qed.

Lemma In_set_add x k s : In x (set_add k s) <-> In x s \/ x = k.
Proof.
  unfold set_add. destruct (set_has k s) eqn:H.
  - apply set_has_In in H. split; [tauto|]. intros [?| ->]; assumption.
  - rewrite in_app_iff. simpl. intuition congruence.
Qed.

Lemma In_Set_of_gen x l s :
  In x (fold_left (fun s k => set_add k s) l s) <-> In x s \/ In x l.
Proof.
  revert s. induction l as [|k l IH]; intros s; simpl; [tauto|].
  rewrite IH, In_set_add. intuition congruence.
Qed.

Lemma In_Set_of x l : In x (Set_of l) <-> In x l.
Proof. unfold Set_of. rewrite In_Set_of_gen. simpl. tauto. Qed.

Lemma In_set_delete x k s : In x (set_delete k s) <-> In x s /\ x <> k.
Proof.
  unfold set_delete. rewrite filter_In, negb_true_iff, str_eqb_neq.
  tauto.
Qed.

Lemma In_delete_all x l s :
  In x (fold_left (fun s k => set_delete k s) l s) <-> In x s /\ ~ In x l.
Proof.
  revert s. induction l as [|k l IH]; intros s; simpl; [tauto|].
  rewrite IH, In_set_delete. intuition congruence.
Qed.

Lemma In_delete_where (p : jsstring -> bool) x l s :
  In x (fold_left (fun s k => if p k then set_delete k s else s) l s)
  <-> In x s /\ ~ (In x l /\ p x = true).
Proof.
  revert s. induction l as [|k l IH]; intros s; simpl; [tauto|].
  rewrite IH. destruct (p k) eqn:Hk.
  - rewrite In_set_delete. split.
    + intros [[Hs Hne] Hn]. split; [exact Hs|].
      intros [[->|Hin] Hp]; [congruence | tauto].
    + intros [Hs Hn]. repeat split; trivial.
      * intros ->. apply Hn. split; [now left | exact Hk].
      * intros [Hin Hp]. apply Hn. split; [now right | exact Hp].
  - split.
    + intros [Hs Hn]. split; [exact Hs|].
      intros [[->|Hin] Hp]; [congruence | tauto].
    + intros [Hs Hn]. split; [exact Hs|].
      intros [Hin Hp]. apply Hn. split; [now right | exact Hp].
Qed.

Lemma In_newTables (P T : JsMap sqlval) x :
  In x (newTables_of P T) <-> In x (map_keys P) /\ ~ In x (map_keys T).
Proof. unfold newTables_of. now rewrite In_delete_all, In_Set_of. Qed.

Lemma In_removedTables (P T : JsMap sqlval) x :
  In x (removedTables_of P T) <->
  In x (map_keys T) /\ ~ In x (map_keys P)
  /\ endsWith x migration_suffix = false.
Proof.
  unfold removedTables_of.
  rewrite In_delete_where, In_delete_all, In_Set_of.
  destruct (endsWith x migration_suffix); intuition congruence.
Qed.

Lemma In_firstn {A} k (l : list A) x : In x (firstn k l) -> In x l.
Proof.
  intros H. rewrite <- (firstn_skipn k l). apply in_or_app. now left.
Qed.

Lemma nil_of_no_member {A} (l : list A) : (forall x, ~ In x l) -> l = [].
Proof.
  destruct l as [|a l]; [reflexivity|].
  intros H. exfalso. apply (H a). now left.
Qed.

Lemma map_keys_map_set {V} (k : jsstring) (v : V) m x :
  In x (map_keys (map_set k v m)) <-> x = k \/ In x (map_keys m).
Proof.
  unfold map_keys. induction m as [|[k' v'] m IH]; simpl.
  - intuition congruence.
  - destruct (str_eqb k k') eqn:Hk; simpl.
    + apply str_eqb_eq in Hk. subst k'. intuition congruence.
    + rewrite IH. intuition congruence.
Qed.

Lemma In_map_keys_Map_of_gen {V} (l : list (jsstring * V)) m x :
  In x (map_keys (fold_left (fun m e => map_set (fst e) (snd e) m) l m))
  <-> In x (map_keys m) \/ In x (map fst l).
Proof.
  revert m. induction l as [|[k v] l IH]; intros m; simpl; [tauto|].
  rewrite IH, map_keys_map_set. intuition congruence.
Qed.

Lemma In_map_keys_Map_of {V} (l : list (jsstring * V)) x :
  In x (map_keys (Map_of l)) <-> In x (map fst l).
Proof. unfold Map_of. rewrite In_map_keys_Map_of_gen. simpl. tauto. Qed.

Lemma map_fst_rows l : map fst (rows l) = map name l.
Proof. unfold rows. rewrite map_map. reflexivity. Qed.

Lemma In_table_keys l x :
  In x (map_keys (Map_of (rows l))) <-> In x (map name l).
Proof. now rewrite In_map_keys_Map_of, map_fst_rows. Qed.

Lemma map_get_In_keys {V} (m : JsMap V) k :
  In k (map_keys m) <-> exists v, map_get k m = Some v.
Proof.
  unfold map_keys. induction m as [|[k' v'] m IH]; simpl.
  - split; [tauto | intros [v H]; discriminate].
  - destruct (str_eqb k k') eqn:Hk.
    + apply str_eqb_eq in Hk. subst. split; eauto.
    + apply str_eqb_neq in Hk. rewrite IH. split.
      * intros [H|H]; [congruence | exact H].
      * intros H. now right.
Qed.

Lemma map_has_In {V} (m : JsMap V) k :
  map_has k m = true <-> In k (map_keys m).
Proof.
  unfold map_has. rewrite map_get_In_keys.
  destruct (map_get k m); split; eauto; try discriminate.
  intros [v H]. discriminate.
Qed.

(** ** The guard against deleting tables *)

Lemma removedTables_guard (P T : JsMap sqlval) t :
  In t (map_keys T) -> ~ In t (map_keys P) ->
  endsWith t migration_suffix = false ->
  (0 <? List.length (removedTables_of P T))%nat = true.
Proof.
  intros HT HP Hs.
  assert (H : In t (removedTables_of P T)) by now apply In_removedTables.
  destruct (removedTables_of P T); [contradiction | reflexivity].
Qed.

(** ** The monad *)

Section Monad.
Context {E : Engine}.

Lemma bind_ret_r (m : M E unit) st : bind m (fun _ => ret tt) st = m st.
Proof.
  unfold bind, ret. destruct (m st) as [[[]|e] st']; reflexivity.
Qed.

Lemma bind_assoc {A B C} (m : M E A) (f : A -> M E B) (g : B -> M E C) st :
  bind (bind m f) g st = bind m (fun a => bind (f a) g) st.
Proof. unfold bind. destruct (m st) as [[a|e] st']; reflexivity. Qed.

Lemma bind_ext {A B} (m : M E A) (f g : A -> M E B) st :
  (forall a s, f a s = g a s) -> bind m f st = bind m g st.
Proof.
  intros H. unfold bind. destruct (m st) as [[a|e] st']; [apply H|];
    reflexivity.
Qed.

Lemma bind_ret_eq {A B} (m : M E A) (k : A -> M E B) st a st' :
  m st = (Ret a, st') -> bind m k st = k a st'.
Proof. intros H. unfold bind. now rewrite H. Qed.

Lemma bind_throw_eq {A B} (m : M E A) (k : A -> M E B) st e st' :
  m st = (Throw e, st') -> bind m k st = (Throw e, st').
Proof. intros H. unfold bind. now rewrite H. Qed.

Lemma bind_cong {A B} (m m' : M E A) (f g : A -> M E B) st :
  m st = m' st -> (forall a s, f a s = g a s) ->
  bind m f st = bind m' g st.
Proof.
  intros Hm H. unfold bind. rewrite Hm.
  destruct (m' st) as [[a|e] st']; [apply H | reflexivity].
Qed.

Lemma for_of_app {A} (a b : list A) (body : A -> M E unit) st :
  for_of (a ++ b) body st
  = bind (for_of a body) (fun _ => for_of b body) st.
Proof.
  revert st. induction a as [|x a IH]; intros st; [reflexivity|].
  simpl. rewrite bind_assoc. apply bind_ext. intros _ s. apply IH.
Qed.

Lemma for_of_ext {A} (l : list A) (f g : A -> M E unit) st :
  (forall x s, In x l -> f x s = g x s) ->
  for_of l f st = for_of l g st.
Proof.
  revert st. induction l as [|x l IH]; intros st H; [reflexivity|].
  simpl. unfold bind. rewrite (H x st) by now left.
  destruct (g x st) as [[[]|e] st']; [|reflexivity].
  apply IH. intros y s Hy. apply H. now right.
Qed.

Lemma for_of_flat_map {A B} (l : list A) (plan : A -> list B)
    (body : B -> M E unit) st :
  for_of l (fun x => for_of (plan x) body) st
  = for_of (flat_map plan l) body st.
Proof.
  revert st. induction l as [|x l IH]; intros st; [reflexivity|].
  simpl. rewrite for_of_app. apply bind_ext. intros _ s. apply IH.
Qed.

Lemma log_all_app a b (st : Run E) :
  log_all (a ++ b) st = bind (log_all a) (fun _ => log_all b) st.
Proof. apply for_of_app. Qed.

Lemma log_all_one msg q (st : Run E) : log_all [entry msg q] st = logExecute msg q st.
Proof. unfold log_all. simpl. apply bind_ret_r. Qed.

Lemma log_all_nil (st : Run E) : log_all [] st = (Ret tt, st).
Proof. reflexivity. Qed.

Lemma for_of_plan {A} (l : list A) (body : A -> M E unit)
    (plan : A -> list LogEntry) st :
  (forall x s, In x l -> body x s = log_all (plan x) s) ->
  for_of l body st = log_all (flat_map plan l) st.
Proof.
  intros H. unfold log_all. rewrite <- for_of_flat_map.
  now apply for_of_ext.
Qed.

Lemma logExecute_console msg q (st : Run E) r (st' : Run E) :
  logExecute msg q st = (r, st') ->
  console st' = console st ++ [entry msg q].
Proof.
  unfold logExecute. destruct q as [s|].
  - destruct (nonblank (Some s)).
    + destruct (run E _ s); intros H; injection H as <- <-; reflexivity.
    + intros H; injection H as <- <-; reflexivity.
  - intros H; injection H as <- <-; reflexivity.
Qed.

Lemma logExecute_ok msg q (st st' : Run E) :
  logExecute msg q st = (Ret tt, st') ->
  nChanges st' = (nChanges st + if nonblank q then 1 else 0)%nat
  /\ (if nonblank q
      then exists s, q = Some s /\ run E (db st) s = Some (db st')
      else db st' = db st).
Proof.
  unfold logExecute. destruct q as [s|].
  - destruct (nonblank (Some s)).
    + simpl db. destruct (run E (db st) s) eqn:Hr; [|discriminate].
      intros H; injection H as <-. simpl. split; [lia|]. eauto.
    + intros H; injection H as <-. simpl. split; [lia | reflexivity].
  - intros H; injection H as <-. simpl. split; [lia | reflexivity].
Qed.

(** Whatever happens, the console shows a prefix of the planned calls. *)
Lemma log_all_console ops (st : Run E) r (st' : Run E) :
  log_all ops st = (r, st') ->
  exists k, console st' = console st ++ firstn k ops.
Proof.
  revert st. induction ops as [|e ops IH]; intros st.
  - intros H; injection H as <- <-. exists 0%nat. simpl.
    now rewrite app_nil_r.
  - unfold log_all. simpl. unfold bind.
    destruct (logExecute (log_msg e) (log_sql e) st) as [[[]|x] s1] eqn:H1.
    + intros H. apply IH in H as [k Hk]. exists (S k).
      apply logExecute_console in H1. rewrite Hk, H1.
      rewrite <- app_assoc. destruct e; reflexivity.
    + intros H; injection H as <- <-. exists 1%nat.
      apply logExecute_console in H1. rewrite H1.
      destruct e; reflexivity.
Qed.

(** A run to completion shows them all and counts the non-blank ones. *)
Lemma log_all_ok ops (st st' : Run E) :
  log_all ops st = (Ret tt, st') ->
  console st' = console st ++ ops
  /\ nChanges st'
     = (nChanges st
        + List.length (filter (fun e => nonblank (log_sql e)) ops))%nat.
Proof.
  revert st. induction ops as [|e ops IH]; intros st.
  - intros H; injection H as <-.
    split; [now rewrite app_nil_r | simpl; lia].
  - unfold log_all. simpl. unfold bind.
    destruct (logExecute (log_msg e) (log_sql e) st) as [[[]|x] s1] eqn:H1;
      [|discriminate].
    intros H. apply IH in H as [Hc Hn].
    pose proof (logExecute_console _ _ _ _ _ H1) as Hc1.
    apply logExecute_ok in H1 as [Hn1 _].
    split.
    + rewrite Hc, Hc1, <- app_assoc. destruct e; reflexivity.
    + rewrite Hn, Hn1. destruct (nonblank (log_sql e)); simpl; lia.
Qed.

End Monad.

(** ** What each phase plans to execute *)

Lemma flat_map_singleton {A B} (f : A -> B) l :
  flat_map (fun x => [f x]) l = map f l.
Proof. induction l as [|x l IH]; simpl; [reflexivity | now rewrite IH]. Qed.

Section Phases.
Context {E : Engine}.
Variable pristine : DB E.
Variable allowDeletions : bool.

Lemma create_new_tables_plan P newTables (st : Run E) :
  create_new_tables E P newTables st
  = log_all (create_plan P newTables) st.
Proof.
  unfold create_new_tables, create_plan. apply for_of_plan.
  intros t s _. destruct (truthy_sql (map_get t P)).
  - symmetry. apply log_all_one.
  - reflexivity.
Qed.

Lemma drop_removed_tables_plan removed (st : Run E) :
  drop_removed_tables E removed st = log_all (map drop_entry removed) st.
Proof.
  unfold drop_removed_tables.
  rewrite (for_of_plan _ _ (fun t => [drop_entry t])).
  - now rewrite flat_map_singleton.
  - intros t s _. symmetry. apply log_all_one.
Qed.

Lemma migrate_indices_plan PI (st : Run E) :
  migrate_indices E PI st
  = log_all (index_plan (Map_of (rows (master_indices E (db st)))) PI) st.
Proof.
  unfold migrate_indices, index_plan.
  unfold bind at 1. unfold get_db.
  set (I := Map_of (rows (master_indices E (db st)))).
  rewrite log_all_app. apply bind_cong.
  - apply for_of_plan. intros idx s _.
    destruct (negb (map_has idx PI));
      [symmetry; apply log_all_one | reflexivity].
  - intros _ s. apply for_of_plan. intros e s' _. unfold index_plan_one.
    destruct (negb (map_has (fst e) I)); [symmetry; apply log_all_one|].
    destruct (strict_neq (snd e) (map_get (fst e) I)); [|reflexivity].
    unfold log_all. simpl. apply bind_ext. intros _ s''.
    symmetry. apply bind_ret_r.
Qed.

Lemma drop_leftover_tables_plan (st : Run E) :
  drop_leftover_tables E st
  = log_all (map leftover_entry (leftover_temp_tables E (db st))) st.
Proof.
  unfold drop_leftover_tables, bind, get_db.
  rewrite (for_of_plan _ _ (fun t => [leftover_entry t])).
  - now rewrite flat_map_singleton.
  - intros t s _. symmetry. apply log_all_one.
Qed.

(** The row of [PRAGMA foreign_keys] has no property [0]: the check of
    lines 257-261 is never made. *)
Lemma check_foreign_keys_skips (st : Run E) :
  check_foreign_keys E pristine st = (Ret tt, st).
Proof.
  unfold check_foreign_keys, bind, get_db, pragma_get.
  destruct (pragma_value E pristine (js "foreign_keys")); reflexivity.
Qed.

Lemma row_get_self p v : row_get [(p, v)] p = Some v.
Proof. simpl. now rewrite str_eqb_refl. Qed.

End Phases.

(* ================================================================== *)
(** * Part VI. The migration run: the claims *)
(* ================================================================== *)

(** C1: when the live database has a table that the target lacks and whose
    name does not end in [_migration_new], and deletions are not allowed,
    [migrate] raises the refusal, whose message lists that table, and
    leaves the database, [nChanges] and the console as they were: nothing
    was executed.  The entry point raises the same. *)
Theorem migrate_refuses_table_deletion (E : Engine) (pristine d : DB E) t :
  In t (map name (master_tables E d)) ->
  ~ In t (map name (master_tables E pristine)) ->
  endsWith t migration_suffix = false ->
  let removedTables :=
    removedTables_of (Map_of (rows (master_tables E pristine)))
                     (Map_of (rows (master_tables E d))) in
  migrate E pristine false (start E d)
  = (Throw (refusing_to_delete_tables removedTables), start E d)
  /\ In t removedTables
  /\ forall schema,
      exec_schema E schema = Some pristine ->
      dumbMigrateDb E d schema false
      = (Throw (refusing_to_delete_tables removedTables), start E d).
Proof.
  intros Hd Hp Hs removedTables.
  assert (Hin : In t removedTables).
  { apply In_removedTables. now rewrite !In_table_keys. }
  assert (Hrun : migrate E pristine false (start E d)
                 = (Throw (refusing_to_delete_tables removedTables),
                    start E d)).
  { unfold migrate, bind, get_db. change (db (start E d)) with d.
    rewrite (removedTables_guard _ _ t)
      by (rewrite ?In_table_keys; assumption).
    reflexivity. }
  repeat split; trivial.
  intros schema Hschema. unfold dumbMigrateDb. now rewrite Hschema, Hrun.
Qed.

(** A live table [old], an empty target. *)
Lemma migrate_refuses_table_deletion_witness :
  let removedTables :=
    removedTables_of
      (Map_of (rows (master_tables Catalog.engine Catalog.empty)))
      (Map_of (rows (master_tables Catalog.engine db_old_and_leftover))) in
  migrate Catalog.engine Catalog.empty false
    (start Catalog.engine db_old_and_leftover)
  = (Throw (refusing_to_delete_tables removedTables),
     start Catalog.engine db_old_and_leftover)
  /\ In (js "old") removedTables
  /\ forall schema,
      exec_schema Catalog.engine schema = Some Catalog.empty ->
      dumbMigrateDb Catalog.engine db_old_and_leftover schema false
      = (Throw (refusing_to_delete_tables removedTables),
         start Catalog.engine db_old_and_leftover).
Proof.
  apply (migrate_refuses_table_deletion Catalog.engine Catalog.empty
           db_old_and_leftover (js "old")).
  - simpl. left. reflexivity.
  - simpl. intros [].
  - vm_compute. reflexivity.
Defined.

(** ** C9 *)

Lemma drop_entry_sql_inj t t' :
  log_sql (drop_entry t) = log_sql (drop_entry t') -> t = t'.
Proof.
  unfold drop_entry. simpl. intros H. injection H as H. exact H.
Qed.

(** C9: a table whose name ends in [_migration_new] is never in
    [removedTables]; the removed-tables phase logs and runs no [DROP TABLE]
    for it; and when every table that the target lacks carries the suffix,
    [removedTables] is empty and [migrate] passes the guard whatever
    [allowDeletions] is. *)
Theorem leftover_table_is_not_removed (E : Engine) (pristine : DB E)
    (allowDeletions : bool) (st : Run E) t :
  endsWith t migration_suffix = true ->
  let P := Map_of (rows (master_tables E pristine)) in
  let T := Map_of (rows (master_tables E (db st))) in
  ~ In t (removedTables_of P T)
  /\ (forall (s : Run E) r s',
        drop_removed_tables E (removedTables_of P T) s = (r, s') ->
        exists added,
          console s' = console s ++ added
          /\ forall e, In e added -> log_sql e <> log_sql (drop_entry t))
  /\ ((forall t', In t' (map name (master_tables E (db st))) ->
                  ~ In t' (map name (master_tables E pristine)) ->
                  endsWith t' migration_suffix = true) ->
      removedTables_of P T = []
      /\ migrate E pristine allowDeletions st
         = bind (apply_plan E pristine allowDeletions P
                   (Map_of (rows (master_indices E pristine)))
                   (newTables_of P T) [] (modifiedTables_of P T))
                (fun _ => drop_leftover_tables E) st).
Proof.
  intros Hs P T.
  assert (Hnot : ~ In t (removedTables_of P T)).
  { rewrite In_removedTables. intros (_ & _ & H). congruence. }
  split; [exact Hnot|]. split.
  - intros s r s' Hrun. rewrite drop_removed_tables_plan in Hrun.
    apply log_all_console in Hrun as [k Hk].
    exists (firstn k (map drop_entry (removedTables_of P T))).
    split; [exact Hk|].
    intros e He Heq. apply In_firstn, in_map_iff in He as (t' & <- & Ht').
    apply drop_entry_sql_inj in Heq. subst t'. contradiction.
  - intros Hall.
    assert (Hnil : removedTables_of P T = []).
    { apply nil_of_no_member. intros x Hx.
      apply In_removedTables in Hx as (HT & HP & Hx).
      unfold P, T in *. rewrite In_table_keys in HT, HP.
      rewrite (Hall x HT HP) in Hx. discriminate. }
    split; [exact Hnil|].
    unfold migrate. unfold bind at 1. unfold get_db.
    fold P T. now rewrite Hnil.
Qed.

(** The leftover [x_migration_new] next to the user table [old]. *)
Lemma leftover_table_is_not_removed_witness :
  let E := Catalog.engine in
  let st := start E db_old_and_leftover in
  let P := Map_of (rows (master_tables E Catalog.empty)) in
  let T := Map_of (rows (master_tables E (db st))) in
  let t := js "x_migration_new" in
  ~ In t (removedTables_of P T)
  /\ (forall (s : Run E) r s',
        drop_removed_tables E (removedTables_of P T) s = (r, s') ->
        exists added,
          console s' = console s ++ added
          /\ forall e, In e added -> log_sql e <> log_sql (drop_entry t))
  /\ ((forall t', In t' (map name (master_tables E (db st))) ->
                  ~ In t' (map name (master_tables E Catalog.empty)) ->
                  endsWith t' migration_suffix = true) ->
      removedTables_of P T = []
      /\ migrate E Catalog.empty true st
         = bind (apply_plan E Catalog.empty true P
                   (Map_of (rows (master_indices E Catalog.empty)))
                   (newTables_of P T) [] (modifiedTables_of P T))
                (fun _ => drop_leftover_tables E) st).
Proof.
  intros E st P T t.
  apply (leftover_table_is_not_removed Catalog.engine Catalog.empty true
           (start Catalog.engine db_old_and_leftover)
           (js "x_migration_new")).
  vm_compute. reflexivity.
Defined.

(** ** C2 *)

Lemma filter_nil {A} (f : A -> bool) l :
  (forall x, In x l -> f x = false) -> filter f l = [].
Proof.
  induction l as [|a l IH]; intros H; [reflexivity|]. simpl.
  rewrite (H a) by now left. apply IH. intros x Hx. apply H. now right.
Qed.







(** ** The console only grows *)

Section Grows.
Context {E : Engine}.

Lemma grows_ret {A} (a : A) : grows (@ret E A a).
Proof.
  intros st r st' H. injection H as <- <-. exists []. now rewrite app_nil_r.
Qed.

Lemma grows_throw {A} e : grows (@throw E A e).
Proof.
  intros st r st' H. injection H as <- <-. exists []. now rewrite app_nil_r.
Qed.

Lemma grows_get_db : grows (@get_db E).
Proof.
  intros st r st' H. injection H as <- <-. exists []. now rewrite app_nil_r.
Qed.

Lemma grows_bind {A B} (m : M E A) (k : A -> M E B) :
  grows m -> (forall a, grows (k a)) -> grows (bind m k).
Proof.
  intros Hm Hk st r st'. unfold bind.
  destruct (m st) as [[a|e] s1] eqn:H1.
  - intros H2. apply Hm in H1 as [l1 H1]. apply Hk in H2 as [l2 H2].
    exists (l1 ++ l2). now rewrite H2, H1, app_assoc.
  - intros H; injection H as <- <-. now apply Hm in H1.
Qed.

Lemma grows_for_of {A} (l : list A) (body : A -> M E unit) :
  (forall x, grows (body x)) -> grows (for_of l body).
Proof.
  intros H. induction l as [|x l IH]; simpl.
  - apply grows_ret.
  - apply grows_bind; auto.
Qed.

Lemma grows_logExecute msg q : grows (@logExecute E msg q).
Proof.
  intros st r st' H. apply logExecute_console in H. eauto.
Qed.

Lemma grows_db_run q : grows (@db_run E q).
Proof.
  intros st r st'. unfold db_run. destruct (run E (db st) q);
    intros H; injection H as <- <-; exists []; simpl;
    now rewrite app_nil_r.
Qed.

Lemma db_run_console q (st : Run E) r st' :
  db_run q st = (r, st') -> console st' = console st.
Proof.
  unfold db_run. destruct (run E (db st) q);
    intros H; injection H as <- <-; reflexivity.
Qed.

Lemma grows_table_columns d t : grows (table_columns E d t).
Proof.
  unfold table_columns. destruct (table_info_names E d t);
    [apply grows_ret | apply grows_throw].
Qed.

Lemma grows_rebuild_table pristine allowDeletions P t :
  grows (rebuild_table E pristine allowDeletions P t).
Proof.
  unfold rebuild_table.
  destruct (map_get t P) as [[[|c r]|]|]; try apply grows_ret.
  destruct (retarget_sql E (c :: r) t); [|apply grows_throw].
  apply grows_bind; [apply grows_logExecute|]. intros _.
  apply grows_bind; [apply grows_get_db|]. intros d.
  apply grows_bind; [apply grows_table_columns|]. intros cols.
  apply grows_bind; [apply grows_table_columns|]. intros pcols.
  destruct (negb allowDeletions && _); [apply grows_throw|].
  repeat (apply grows_bind; [apply grows_logExecute|]; intros _).
  apply grows_logExecute.
Qed.

Lemma grows_log_all ops : grows (@log_all E ops).
Proof. apply grows_for_of. intros e. apply grows_logExecute. Qed.
End Grows.

Lemma bind_ret_inv {E A B} (m : M E A) (k : A -> M E B) st b st' :
  bind m k st = (Ret b, st') ->
  exists a s, m st = (Ret a, s) /\ k a s = (Ret b, st').
Proof.
  unfold bind. destruct (m st) as [[a|e] s]; [eauto | discriminate].
Qed.

(** ** The leftover cleanup *)

Lemma drop_while_keeps (p : N -> bool) s c :
  In c s -> p c = false -> drop_while p s <> [].
Proof.
  induction s as [|x s IH]; simpl; [tauto|].
  intros [->|Hin] Hc; [now rewrite Hc|].
  destruct (p x); [auto | discriminate].
Qed.

Lemma nonblank_head c r :
  Char.is_space c = false -> nonblank (Some (c :: r)) = true.
Proof.
  intros Hc. unfold nonblank, trim. simpl drop_while at 2. rewrite Hc.
  destruct (rev (drop_while Char.is_space (rev (c :: r)))) eqn:H;
    [|reflexivity].
  apply (f_equal (@rev N)) in H. rewrite rev_involutive in H. simpl in H.
  exfalso. revert H. apply drop_while_keeps with (c := c); [|exact Hc].
  apply in_or_app. right. now left.
Qed.

Lemma nonblank_app p t c :
  head_char p = Some c -> Char.is_space c = false ->
  nonblank (Some (p ++ t)) = true.
Proof.
  destruct p as [|x p]; [discriminate|]. intros H Hc.
  injection H as ->. change ((c :: p) ++ t) with (c :: (p ++ t)).
  now apply nonblank_head.
Qed.



Section Cleanup.
Context {E : Engine}.



End Cleanup.





(** ** A run that completes *)

Section Completed.
Context {E : Engine}.
Variable pristine : DB E.
Variable allowDeletions : bool.

Let P := Map_of (rows (master_tables E pristine)).
Let PI := Map_of (rows (master_indices E pristine)).

(** A completed run passed the guard, applied the plan and cleaned up. *)
Lemma migrate_ok_inv (st st' : Run E) :
  migrate E pristine allowDeletions st = (Ret tt, st') ->
  let T := Map_of (rows (master_tables E (db st))) in
  exists s1,
    apply_plan E pristine allowDeletions P PI (newTables_of P T)
      (removedTables_of P T) (modifiedTables_of P T) st = (Ret tt, s1)
    /\ drop_leftover_tables E s1 = (Ret tt, st').
Proof.
  unfold migrate. cbv zeta. unfold bind at 1. unfold get_db.
  fold P PI.
  destruct ((0 <? _)%nat && negb allowDeletions); [discriminate|].
  intros H. apply bind_ret_inv in H as ([] & s1 & H1 & H2). eauto.
Qed.

End Completed.

(** ** C3 *)




(** ** A run that returns is the replay of its log *)


Section Replay.
Context {E : Engine}.

















End Replay.

(** ** C10 *)







(** ** C4 *)

(** C4, the code at the failing input: the target enables foreign keys
    and the consistency check of the live database has a row, yet the
    entry point returns normally.  [check_foreign_keys_skips] shows it for
    every database: the row of [PRAGMA foreign_keys] is read at property
    [0], which a row keyed by column name does not have. *)
Lemma foreign_key_violation_not_raised :
  exists pristine,
    exec_schema Catalog.engine fk_schema = Some pristine
    /\ pragma_value Catalog.engine pristine (js "foreign_keys") = Some 1%Z
    /\ foreign_key_check_rows Catalog.engine db_fk_violated = 1%nat
    /\ dumbMigrateDb Catalog.engine db_fk_violated fk_schema false
       = (Ret false, start Catalog.engine db_fk_violated).
Proof.
  eexists. split; [vm_compute; reflexivity|].
  repeat split; vm_compute; reflexivity.
Qed.

(** ** C5 *)

(** C5 (as stated), refuted for [foreign_keys]: the target has it at 1, the
    live database at 0, and the run completes without logging or running
    anything. *)
Lemma foreign_keys_pragma_not_reconciled :
  pragma_value Catalog.engine db_foreign_keys_on (js "foreign_keys")
  = Some 1%Z
  /\ pragma_value Catalog.engine Catalog.empty (js "foreign_keys")
     = Some 0%Z
  /\ migrate Catalog.engine db_foreign_keys_on false
       (start Catalog.engine Catalog.empty)
     = (Ret tt, start Catalog.engine Catalog.empty).
Proof. repeat split; vm_compute; reflexivity. Qed.

Lemma set_pragma_nonblank pragma target current :
  nonblank (log_sql (set_pragma_entry pragma target current)) = true.
Proof.
  unfold set_pragma_entry, entry, log_sql.
  apply (nonblank_app _ _ 80); reflexivity.
Qed.

(** C5 (amended): [user_version] is the one pragma that is reconciled.
    When the run reaches [migratePragma] and the target's [user_version]
    differs from the live one, [PRAGMA user_version = target] is logged
    and run, and counted when the engine accepts it. *)
Theorem user_version_is_reconciled (E : Engine) (pristine : DB E)
    (st : Run E) target current :
  pragma_value E pristine (js "user_version") = Some target ->
  pragma_value E (db st) (js "user_version") = Some current ->
  target <> current ->
  let e := set_pragma_entry (js "user_version") target current in
  let stmt := js "PRAGMA user_version = " ++ show_int target in
  log_sql e = Some stmt
  /\ migratePragma E pristine (js "user_version") st
     = match run E (db st) stmt with
       | Some d' =>
           (Ret tt, {| db := d'; nChanges := S (nChanges st);
                       console := console st ++ [e] |})
       | None =>
           (Throw EngineError,
            {| db := db st; nChanges := nChanges st;
               console := console st ++ [e] |})
       end.
Proof.
  intros Hp Hd Hne e stmt. split; [reflexivity|].
  unfold migratePragma, bind, get_db, pragma_get. rewrite Hp, Hd.
  rewrite !row_get_self. unfold num_strict_eqb.
  destruct (Z.eqb_spec current target) as [Heq|_]; [congruence|].
  unfold logExecute.
  change (js "PRAGMA " ++ js "user_version" ++ js " = "
          ++ show_num (Some target)) with stmt.
  pose proof (set_pragma_nonblank (js "user_version") target current) as Hnb.
  change (log_sql (set_pragma_entry (js "user_version") target current))
    with (Some stmt) in Hnb.
  rewrite Hnb. reflexivity.
Qed.

(** Target [user_version] 7, live 0. *)
Lemma user_version_is_reconciled_witness :
  let E := Catalog.engine in
  let st := start E Catalog.empty in
  let e := set_pragma_entry (js "user_version") 7 0 in
  let stmt := js "PRAGMA user_version = " ++ show_int 7 in
  log_sql e = Some stmt
  /\ migratePragma E db_version_7 (js "user_version") st
     = match run E (db st) stmt with
       | Some d' =>
           (Ret tt, {| db := d'; nChanges := S (nChanges st);
                       console := console st ++ [e] |})
       | None =>
           (Throw EngineError,
            {| db := db st; nChanges := nChanges st;
               console := console st ++ [e] |})
       end.
Proof.
  apply (user_version_is_reconciled Catalog.engine db_version_7
           (start Catalog.engine Catalog.empty) 7%Z 0%Z).
  - reflexivity.
  - reflexivity.
  - discriminate.
Defined.

(** ** C6 *)

Lemma map_get_In {V} (m : JsMap V) k v : map_get k m = Some v -> In (k, v) m.
Proof.
  induction m as [|[k' v'] m IH]; simpl; [discriminate|].
  destruct (str_eqb k k') eqn:Hk.
  - apply str_eqb_eq in Hk. subst k'. intros H; injection H as ->.
    now left.
  - intros H. right. auto.
Qed.

Lemma map_set_keys_nodup {V} (k : jsstring) (v : V) m :
  NoDup (map_keys m) -> NoDup (map_keys (map_set k v m)).
Proof.
  unfold map_keys. induction m as [|[k' v'] m IH]; simpl; intros H.
  - constructor; [tauto | constructor].
  - inversion H as [|? ? Hnot Hnd]; subst.
    destruct (str_eqb k k') eqn:Hk; simpl.
    + apply str_eqb_eq in Hk. subst k'. now constructor.
    + constructor; [|auto].
      fold (map_keys (map_set k v m)). rewrite map_keys_map_set.
      apply str_eqb_neq in Hk. intros [->|Hin]; [congruence | tauto].
Qed.

Lemma Map_of_keys_nodup {V} (l : list (jsstring * V)) :
  NoDup (map_keys (Map_of l)).
Proof.
  unfold Map_of.
  assert (H : forall m, NoDup (map_keys m) ->
            NoDup (map_keys
                     (fold_left (fun m e => map_set (fst e) (snd e) m) l m))).
  { induction l as [|e l IH]; intros m Hm; simpl; [exact Hm|].
    apply IH. now apply map_set_keys_nodup. }
  apply H. constructor.
Qed.

Lemma map_get_unique {V} (m : JsMap V) k v v' :
  NoDup (map_keys m) -> In (k, v) m -> map_get k m = Some v' -> v = v'.
Proof.
  unfold map_keys. induction m as [|[k' w] m IH]; simpl; [tauto|].
  intros Hnd Hin. inversion Hnd as [|? ? Hnot Hnd']; subst.
  destruct (str_eqb k k') eqn:Hk.
  - apply str_eqb_eq in Hk. subst k'. intros H; injection H as <-.
    destruct Hin as [Hin|Hin]; [congruence|].
    exfalso. apply Hnot. apply in_map_iff. exists (k, v). now split.
  - apply str_eqb_neq in Hk. destruct Hin as [Hin|Hin]; [congruence|].
    now apply IH.
Qed.

Ltac head_clash H :=
  apply (f_equal head_char) in H; vm_compute in H; discriminate.

Lemma changed_messages_differ k idx :
  k ++ js " changed: Dropping old version"
  <> idx ++ js " changed: Creating updated version in its place".
Proof.
  intros H. apply (f_equal last_char) in H.
  rewrite !last_char_app_r in H by discriminate.
  vm_compute in H. discriminate.
Qed.

Lemma index_message_names k idx msg :
  In msg (index_messages k) -> In msg (index_messages idx) -> k = idx.
Proof.
  unfold index_messages. cbn [In].
  intros [<-|[<-|[<-|[<-|[]]]]] [H|[H|[H|[H|[]]]]];
    try (now apply app_inv_head in H);
    try head_clash H;
    apply app_inv_head in H.
  - now apply app_inv_tail in H.
  - symmetry in H. now apply changed_messages_differ in H.
  - now apply changed_messages_differ in H.
  - now apply app_inv_tail in H.
Qed.

Lemma index_plan_messages I PI e :
  NoDup (map_keys PI) ->
  In e (index_plan I PI) ->
  (exists k, e = obsolete_index_entry k /\ map_has k PI = false)
  \/ (exists k q, map_get k PI = Some q
        /\ ((e = new_index_entry k q /\ map_has k I = false)
            \/ ((e = changed_index_drop k \/ e = changed_index_create k q)
                /\ strict_neq q (map_get k I) = true))).
Proof.
  intros Hnd. unfold index_plan. rewrite in_app_iff, !in_flat_map.
  intros [(k & _ & Hk)|([k q] & Hin & Hk)].
  - left. destruct (map_has k PI) eqn:Hm; cbn [negb In] in Hk; [tauto|].
    destruct Hk as [<-|[]]. eauto.
  - right. exists k, q.
    assert (Hget : map_get k PI = Some q).
    { destruct (proj1 (map_get_In_keys PI k)) as [q' Hq'].
      - unfold map_keys. apply in_map_iff. exists (k, q). now split.
      - now rewrite (map_get_unique PI k q q' Hnd Hin Hq'). }
    split; [exact Hget|].
    unfold index_plan_one in Hk. cbn [fst snd] in Hk.
    destruct (map_has k I) eqn:Hm; cbn [negb] in Hk.
    + right. destruct (strict_neq q (map_get k I)) eqn:Hn; [|destruct Hk].
      split; [|reflexivity].
      destruct Hk as [<-|[<-|[]]]; [now left | now right].
    + left. destruct Hk as [<-|[]]. now split.
Qed.

(** C6 (as stated), refuted: the live index and the target index have the
    same canonical form (they differ in one blank), yet the index is
    dropped and created again. *)
Lemma index_spacing_counterexample :
  let q := Some (js "CREATE INDEX i ON t(a)") in
  let q' := Some (js "CREATE INDEX i ON t (a)") in
  let run := migrate Catalog.engine db_index_target false
               (start Catalog.engine db_index_live) in
  map_get (js "i") (Map_of (rows (master_indices Catalog.engine
                                    db_index_target))) = Some q
  /\ map_get (js "i") (Map_of (rows (master_indices Catalog.engine
                                       db_index_live))) = Some q'
  /\ normaliseSql q = normaliseSql q'
  /\ fst run = Ret tt
  /\ console (snd run)
     = [changed_index_drop (js "i"); changed_index_create (js "i") q]
  /\ nChanges (snd run) = 2%nat.
Proof. repeat split; vm_compute; reflexivity. Qed.

(** C6 (amended): for an index name present both in the live database
    (as read when the index phase starts) and in the target, a completed
    index phase has logged [DROP INDEX] followed at once by the target's
    [CREATE INDEX] exactly when the two SQL texts differ as strings;
    when the texts are equal it has logged nothing about that index.
    No canonical form is taken: texts that differ only in white space or
    comments count as different. *)
Theorem changed_index_is_dropped_and_recreated (E : Engine)
    (pristine : DB E) (st st' : Run E) idx q q' :
  let PI := Map_of (rows (master_indices E pristine)) in
  let I := Map_of (rows (master_indices E (db st))) in
  map_get idx PI = Some q ->
  map_get idx I = Some q' ->
  migrate_indices E PI st = (Ret tt, st') ->
  exists added,
    console st' = console st ++ added
    /\ if sqlval_eqb q q'
       then forall e, In e added -> ~ In (log_msg e) (index_messages idx)
       else exists l1 l2,
           added = l1 ++ changed_index_drop idx
                         :: changed_index_create idx q :: l2.
Proof.
  intros PI I Hq Hq' Hrun.
  rewrite migrate_indices_plan in Hrun. fold I in Hrun.
  apply log_all_ok in Hrun as [Hc _].
  exists (index_plan I PI). split; [exact Hc|].
  assert (Hnd : NoDup (map_keys PI)) by apply Map_of_keys_nodup.
  assert (HhasP : map_has idx PI = true) by (unfold map_has; now rewrite Hq).
  assert (HhasI : map_has idx I = true) by (unfold map_has; now rewrite Hq').
  destruct (sqlval_eqb q q') eqn:Heq.
  - intros e He Hmsg.
    apply index_plan_messages in He
      as [(k & -> & Hk)|(k & qk & Hget & [[-> Hk]|[Hor Hk]])]; trivial.
    + assert (k = idx).
      { apply (index_message_names k idx _ (or_introl eq_refl) Hmsg). }
      subst k. congruence.
    + assert (k = idx).
      { apply (index_message_names k idx _
                 (or_intror (or_introl eq_refl)) Hmsg). }
      subst k. congruence.
    + assert (k = idx).
      { destruct Hor as [-> | ->].
        - apply (index_message_names k idx _
                   (or_intror (or_intror (or_introl eq_refl))) Hmsg).
        - apply (index_message_names k idx _
                   (or_intror (or_intror (or_intror (or_introl eq_refl))))
                   Hmsg). }
      subst k. rewrite Hget in Hq. injection Hq as ->.
      rewrite Hq' in Hk. unfold strict_neq in Hk. rewrite Heq in Hk.
      discriminate.
  - apply map_get_In in Hq. apply in_split in Hq as (a & b & Hsplit).
    unfold index_plan. rewrite Hsplit, flat_map_app.
    cbn [flat_map]. unfold index_plan_one at 2. cbn [fst snd].
    rewrite HhasI, Hq'. unfold strict_neq. rewrite Heq. cbn [negb].
    match goal with
    | |- exists l1 l2, ?X ++ ?A ++ _ ++ ?B = _ => exists (X ++ A), B
    end.
    rewrite <- app_assoc. reflexivity.
Qed.

(** The index [i] with one blank more in the live text. *)
Lemma changed_index_is_dropped_and_recreated_witness :
  let E := Catalog.engine in
  let st := start E db_index_live in
  let st' := snd (migrate_indices E
                    (Map_of (rows (master_indices E db_index_target))) st) in
  let idx := js "i" in
  let q := Some (js "CREATE INDEX i ON t(a)") in
  let q' := Some (js "CREATE INDEX i ON t (a)") in
  exists added,
    console st' = console st ++ added
    /\ if sqlval_eqb q q'
       then forall e, In e added -> ~ In (log_msg e) (index_messages idx)
       else exists l1 l2,
           added = l1 ++ changed_index_drop idx
                         :: changed_index_create idx q :: l2.
Proof.
  intros E st st' idx q q'.
  apply (changed_index_is_dropped_and_recreated Catalog.engine
           db_index_target (start Catalog.engine db_index_live)
           (snd (migrate_indices Catalog.engine
                   (Map_of (rows (master_indices Catalog.engine
                                    db_index_target)))
                   (start Catalog.engine db_index_live)))
           (js "i") (Some (js "CREATE INDEX i ON t(a)"))
           (Some (js "CREATE INDEX i ON t (a)")));
    vm_compute; reflexivity.
Defined.

(* ================================================================== *)
(** * Part VII. Further properties *)
(* ================================================================== *)

(** ** The canonical form *)

(** X1. Whatever the input, the canonical form is tidy: its only white
    space is the plain blank (so it is one line, without tabs), no blank
    is doubled or touches one of [(),], and none starts or ends it. *)
Theorem canonical_form_is_tidy q :
  tidy (normaliseSql q) /\ no_newline (normaliseSql q) = true.
Proof.
  split; [apply normaliseSql_tidy|].
  apply blank_only_no_newline. apply normaliseSql_tidy.
Qed.

Lemma replace_all_length m (Hm : shrinking m) :
  (forall s out rest,
      m s = Some (out, rest) ->
      (List.length out + List.length rest <= List.length s)%nat) ->
  forall s, (List.length (replace_all m s) <= List.length s)%nat.
Proof.
  intros Hle s. induction s as [s IH] using length_ind.
  destruct s as [|c r]; [rewrite replace_all_nil; simpl; lia|].
  rewrite (replace_all_cons m Hm).
  destruct (m (c :: r)) as [[out rest]|] eqn:Hmatch.
  - rewrite length_app. pose proof (Hle _ _ _ Hmatch) as H1.
    pose proof (IH rest (Hm _ _ _ Hmatch)). lia.
  - pose proof (IH r (Nat.lt_succ_diag_r _)). simpl. lia.
Qed.

Lemma strip_comments_length s :
  (List.length (strip_comments s) <= List.length s)%nat.
Proof.
  apply (replace_all_length m_comment m_comment_shrinking).
  intros t out rest. unfold m_comment.
  destruct t as [|c1 [|c2 r]]; try discriminate.
  destruct (Char.is_dash c1 && Char.is_dash c2); [|discriminate].
  destruct (after_newline r) as [x|] eqn:Ha; [|discriminate].
  intros H; injection H as <- <-. apply after_newline_length in Ha.
  simpl. lia.
Qed.

Lemma collapse_spaces_length s :
  (List.length (collapse_spaces s) <= List.length s)%nat.
Proof.
  apply (replace_all_length m_space m_space_shrinking).
  intros t out rest. unfold m_space. destruct t as [|c r]; [discriminate|].
  destruct (Char.is_space c); [|discriminate].
  intros H; injection H as <- <-.
  pose proof (drop_while_length Char.is_space r). simpl. lia.
Qed.

Lemma tighten_punct_length s :
  (List.length (tighten_punct s) <= List.length s)%nat.
Proof.
  apply (replace_all_length m_punct m_punct_shrinking).
  intros t out rest. unfold m_punct.
  pose proof (drop_while_length Char.is_blank t) as Ht.
  destruct (drop_while Char.is_blank t) as [|p r]; [discriminate|].
  destruct (Char.is_punct p); [|discriminate].
  intros H; injection H as <- <-.
  pose proof (drop_while_length Char.is_blank r). simpl in *. lia.
Qed.

Lemma unquote_words_length s :
  (List.length (unquote_words s) <= List.length s)%nat.
Proof.
  apply (replace_all_length m_quoted m_quoted_shrinking).
  intros t out rest H. apply m_quoted_inv in H as (-> & _ & _).
  simpl. rewrite length_app. simpl. lia.
Qed.

Lemma trim_length s : (List.length (trim s) <= List.length s)%nat.
Proof.
  destruct (trim_infix s) as (l & r & H).
  rewrite H at 2. rewrite !length_app. lia.
Qed.

(** X2. The canonical form is never longer than the text it comes from:
    each of the four replacements puts at most as many characters as it
    takes, and [trim] only removes. *)
Theorem canonicalize_never_longer s :
  (List.length (canonicalize s) <= List.length s)%nat.
Proof.
  rewrite canonicalize_eq.
  pose proof (trim_length
                (unquote_words
                   (tighten_punct (collapse_spaces (strip_comments s))))).
  pose proof (unquote_words_length
                (tighten_punct (collapse_spaces (strip_comments s)))).
  pose proof (tighten_punct_length (collapse_spaces (strip_comments s))).
  pose proof (collapse_spaces_length (strip_comments s)).
  pose proof (strip_comments_length s).
  lia.
Qed.

(** X3. The strings that [normaliseSql] leaves as they are: exactly the
    tidy ones in which no run of word characters stands between double
    quotes. *)
Theorem canonicalize_fixed_points s :
  canonicalize s = s <-> tidy s /\ unquote_words s = s.
Proof.
  split.
  - intros H. split.
    + rewrite <- H. apply normaliseSql_tidy.
    + pose proof (canonicalize_twice s) as Ht.
      rewrite !H in Ht. now symmetry.
  - intros [(Hb & Hp & Hh & Hl) Hu].
    destruct s as [|c r]; [reflexivity|].
    unfold canonicalize, normaliseSql.
    rewrite strip_comments_no_newline by now apply blank_only_no_newline.
    rewrite collapse_spaces_fixed, tighten_punct_fixed by assumption.
    rewrite Hu. now apply trim_id.
Qed.

(** ** [split] and [join] *)

Lemma split_at_cons sep s :
  exists piece pieces, split_at sep s = piece :: pieces.
Proof.
  destruct s as [|c r]; cbn [split_at]; [eauto|].
  destruct (c =? sep); [eauto|]. destruct (split_at sep r); eauto.
Qed.

Lemma join_cons_head sep c x l :
  join sep ((c :: x) :: l) = c :: join sep (x :: l).
Proof. destruct l; reflexivity. Qed.

Lemma join_split sep s : join [sep] (split_at sep s) = s.
Proof.
  induction s as [|c r IH]; [reflexivity|]. cbn [split_at].
  destruct (split_at_cons sep r) as (p & ps & Hp). rewrite Hp in *.
  destruct (N.eqb_spec c sep) as [->|Hne].
  - rewrite <- IH. reflexivity.
  - rewrite join_cons_head. now f_equal.
Qed.

Lemma split_at_none sep x :
  Forall (fun c => c <> sep) x -> split_at sep x = [x].
Proof.
  induction 1 as [|c r Hc _ IH]; [reflexivity|]. cbn [split_at].
  apply N.eqb_neq in Hc. now rewrite Hc, IH.
Qed.

Lemma split_at_app sep x t :
  Forall (fun c => c <> sep) x ->
  split_at sep (x ++ sep :: t) = x :: split_at sep t.
Proof.
  induction 1 as [|c r Hc _ IH]; cbn [split_at app].
  - now rewrite N.eqb_refl.
  - apply N.eqb_neq in Hc. now rewrite Hc, IH.
Qed.

Lemma split_join sep lines :
  lines <> [] -> Forall (Forall (fun c => c <> sep)) lines ->
  split_at sep (join [sep] lines) = lines.
Proof.
  induction lines as [|x l IH]; [congruence|]. intros _ H.
  inversion H as [|? ? Hx Hl]; subst.
  destruct l as [|y l'].
  - now apply split_at_none.
  - change (join [sep] (x :: y :: l'))
      with (x ++ sep :: join [sep] (y :: l')).
    rewrite split_at_app by exact Hx. f_equal.
    apply IH; [discriminate | exact Hl].
Qed.

Lemma split_at_pieces sep s :
  Forall (Forall (fun c => c <> sep)) (split_at sep s).
Proof.
  induction s as [|c r IH]; cbn [split_at]; [repeat constructor|].
  destruct (N.eqb_spec c sep) as [->|Hne].
  - constructor; [constructor | exact IH].
  - destruct (split_at sep r) as [|p ps].
    + repeat constructor. exact Hne.
    + inversion IH; subst. constructor; [now constructor | assumption].
Qed.

Lemma no_newline_Forall s :
  no_newline s = true <-> Forall (fun c => c <> Char.newline) s.
Proof.
  unfold no_newline. rewrite forallb_forall, Forall_forall.
  split; intros H c Hc; specialize (H c Hc).
  - apply negb_true_iff, N.eqb_neq in H. exact H.
  - apply negb_true_iff, N.eqb_neq. exact H.
Qed.

(** ** Lines, their indent and their content *)

Lemma forallb_skipn {A} (p : A -> bool) n l :
  forallb p l = true -> forallb p (skipn n l) = true.
Proof.
  revert l. induction n as [|n IH]; intros [|x l]; simpl; trivial.
  intros H. apply andb_true_iff in H as [_ H]. auto.
Qed.

Lemma Forall_skipn_line {A} (P : A -> Prop) n l :
  Forall P l -> Forall P (skipn n l).
Proof.
  intros H. rewrite <- (firstn_skipn n l) in H.
  now apply Forall_app in H.
Qed.

Lemma drop_while_twice (p : N -> bool) s :
  drop_while p (drop_while p s) = drop_while p s.
Proof.
  apply drop_while_id. destruct (drop_while p s) eqn:H; [exact I|].
  eapply drop_while_head; eauto.
Qed.

Lemma take_while_drop_while (p : N -> bool) s :
  take_while p (drop_while p s) = [].
Proof.
  destruct (drop_while p s) as [|c r] eqn:H; [reflexivity|].
  apply drop_while_head in H. simpl. now rewrite H.
Qed.

Lemma drop_while_nil_all (p : N -> bool) s :
  drop_while p s = [] -> forallb p s = true.
Proof.
  intros H. rewrite <- (take_drop_while p s), H, app_nil_r.
  apply take_while_all.
Qed.

(** [line.trim()] is truthy exactly when the line has a character that is
    not white space. *)
Lemma truthy_trim_body line :
  truthy_trim line
  = match drop_while Char.is_space line with [] => false | _ :: _ => true end.
Proof.
  unfold truthy_trim, trim.
  destruct (drop_while Char.is_space line) as [|c r] eqn:Hd; [reflexivity|].
  destruct (rev (drop_while Char.is_space (rev (c :: r)))) eqn:H;
    [|reflexivity].
  exfalso. apply (f_equal (@rev N)) in H. rewrite rev_involutive in H.
  cbn [rev] in H. revert H.
  apply drop_while_keeps with (c := c).
  - apply in_or_app. right. now left.
  - eapply drop_while_head; eauto.
Qed.

(** Cutting inside the leading white space keeps what follows it. *)
Lemma skipn_in_indent n line :
  (n <= leading_space line)%nat ->
  drop_while Char.is_space (skipn n line) = drop_while Char.is_space line.
Proof.
  unfold leading_space. intros H.
  rewrite <- (take_drop_while Char.is_space line) at 1.
  rewrite skipn_app.
  replace (n - List.length (take_while Char.is_space line))%nat
    with 0%nat by lia.
  rewrite skipn_O, drop_while_all_app.
  - apply drop_while_twice.
  - apply forallb_skipn, take_while_all.
Qed.

Lemma skipn_whole_indent line :
  leading_space (skipn (leading_space line) line) = 0%nat.
Proof.
  unfold leading_space at 2.
  rewrite <- (take_drop_while Char.is_space line) at 2.
  rewrite skipn_app, Nat.sub_diag, skipn_all, skipn_O. cbn [app].
  unfold leading_space. now rewrite take_while_drop_while.
Qed.

(** ** [Math.min] *)

Lemma math_min_nil l : math_min l = None <-> l = [].
Proof.
  destruct l as [|n r]; simpl; [tauto|].
  destruct (math_min r); split; discriminate.
Qed.

Lemma math_min_le l m x : math_min l = Some m -> In x l -> (m <= x)%nat.
Proof.
  revert m. induction l as [|n r IH]; intros m; simpl; [discriminate|].
  destruct (math_min r) as [k|] eqn:Hr.
  - intros H; injection H as <-. intros [->|Hin]; [lia|].
    specialize (IH k eq_refl Hin). lia.
  - apply math_min_nil in Hr. subst r.
    intros H; injection H as <-. intros [->|[]]. lia.
Qed.

Lemma math_min_In l m : math_min l = Some m -> In m l.
Proof.
  revert m. induction l as [|n r IH]; intros m; simpl; [discriminate|].
  destruct (math_min r) as [k|] eqn:Hr.
  - intros H; injection H as <-.
    destruct (Nat.min_spec n k) as [[_ ->]|[_ ->]]; [now left|].
    right. now apply IH.
  - intros H; injection H as <-. now left.
Qed.

Lemma math_min_zero l : In 0%nat l -> math_min l = Some 0%nat.
Proof.
  intros H. destruct (math_min l) as [m|] eqn:Hm.
  - pose proof (math_min_le _ _ _ Hm H). f_equal. lia.
  - apply math_min_nil in Hm. subst l. destruct H.
Qed.

Lemma math_min_shift k l :
  math_min (map (Nat.add k) l) = option_map (Nat.add k) (math_min l).
Proof.
  induction l as [|n r IH]; [reflexivity|]. cbn [map math_min].
  rewrite IH. destruct (math_min r); simpl; [|reflexivity].
  f_equal. lia.
Qed.

(** ** [dedent] *)

Lemma dedent_lines text :
  let lines := split_lines text in
  let minIndent := math_min (map leading_space (filter truthy_trim lines)) in
  split_lines (dedent text) = map (slice_from minIndent) lines.
Proof.
  intros lines minIndent. unfold dedent, join_lines, split_lines.
  fold lines. fold minIndent. apply split_join.
  - unfold lines, split_lines.
    destruct (split_at_cons Char.newline text) as (p & ps & ->).
    discriminate.
  - apply Forall_map. unfold lines, split_lines.
    eapply Forall_impl; [|apply split_at_pieces].
    intros line Hl. destruct minIndent; [|constructor].
    now apply Forall_skipn_line.
Qed.

Lemma forallb_firstn {A} (p : A -> bool) n l :
  forallb p l = true -> forallb p (firstn n l) = true.
Proof.
  revert l. induction n as [|n IH]; intros [|x l]; simpl; trivial.
  intros H. apply andb_true_iff in H as [-> H]. now apply IH.
Qed.

Lemma firstn_in_indent n line :
  (n <= leading_space line)%nat ->
  forallb Char.is_space (firstn n line) = true.
Proof.
  unfold leading_space. intros H.
  rewrite <- (take_drop_while Char.is_space line).
  rewrite firstn_app.
  replace (n - List.length (take_while Char.is_space line))%nat
    with 0%nat by lia.
  rewrite firstn_O, app_nil_r.
  apply forallb_firstn, take_while_all.
Qed.

(** What [dedent] cuts from a line is white space. *)
Lemma dedent_cut_is_space text line :
  let lines := split_lines text in
  let minIndent := math_min (map leading_space (filter truthy_trim lines)) in
  In line lines ->
  exists w, forallb Char.is_space w = true
            /\ line = w ++ slice_from minIndent line.
Proof.
  intros lines minIndent Hin.
  destruct (truthy_trim line) eqn:Ht.
  - assert (Hnb : In (leading_space line)
                     (map leading_space (filter truthy_trim lines))).
    { apply in_map, filter_In. now split. }
    destruct minIndent as [m|] eqn:Hm.
    + exists (firstn m line). split.
      * apply firstn_in_indent. eapply math_min_le; eauto.
      * symmetry. apply firstn_skipn.
    + apply math_min_nil in Hm. rewrite Hm in Hnb. destruct Hnb.
  - rewrite truthy_trim_body in Ht.
    destruct (drop_while Char.is_space line) eqn:Hd; [|discriminate].
    apply drop_while_nil_all in Hd.
    destruct minIndent as [m|].
    + exists (firstn m line). split.
      * now apply forallb_firstn.
      * symmetry. apply firstn_skipn.
    + exists line. split; [exact Hd|]. cbn [slice_from].
      now rewrite app_nil_r.
Qed.

Lemma Forall2_map_in {A B} (R : A -> B -> Prop) (f : A -> B) l :
  (forall x, In x l -> R x (f x)) -> Forall2 R l (map f l).
Proof.
  induction l as [|x l IH]; intros H; cbn [map]; constructor.
  - apply H. now left.
  - apply IH. intros y Hy. apply H. now right.
Qed.

(** X4. [dedent] removes leading white space and nothing else: the text
    has as many lines after as before, and each line of the text is the
    corresponding line of the result behind a run of white space. *)
Theorem dedent_removes_leading_space_only text :
  Forall2 (fun old new =>
             exists w, forallb Char.is_space w = true /\ old = w ++ new)
          (split_lines text) (split_lines (dedent text)).
Proof.
  rewrite dedent_lines. apply Forall2_map_in.
  intros line Hin. now apply dedent_cut_is_space.
Qed.

(** X5. [dedent] is idempotent: a dedented text has a line that starts
    with something other than white space, or only empty lines. *)
Theorem dedent_idempotent text :
  dedent (dedent text) = dedent text.
Proof.
  unfold dedent at 1. rewrite dedent_lines. cbv zeta.
  set (lines := split_lines text).
  set (m := math_min (map leading_space (filter truthy_trim lines))).
  set (lines2 := map (slice_from m) lines).
  set (m2 := math_min (map leading_space (filter truthy_trim lines2))).
  assert (Hsame : map (slice_from m2) lines2 = lines2).
  { rewrite <- (map_id lines2) at 2. apply map_ext_in.
    intros l2 Hl2.
    destruct m as [n|] eqn:Hm.
    - assert (Hz : m2 = Some 0%nat); [|rewrite Hz; reflexivity].
      apply math_min_zero.
      pose proof (math_min_In _ _ Hm) as Hn.
      apply in_map_iff in Hn as (l0 & Hl0 & Hin0).
      apply filter_In in Hin0 as [Hin0 Ht0].
      apply in_map_iff. exists (skipn n l0). split.
      + rewrite <- Hl0. apply skipn_whole_indent.
      + apply filter_In. split.
        * unfold lines2. apply in_map_iff. exists l0. now split.
        * rewrite truthy_trim_body in *.
          rewrite skipn_in_indent; [exact Ht0 | lia].
    - unfold lines2 in Hl2. apply in_map_iff in Hl2 as (l & <- & _).
      cbn [slice_from]. destruct m2; [apply skipn_nil | reflexivity]. }
  unfold dedent. fold lines. fold m. fold lines2.
  now rewrite Hsame.
Qed.

(** ** [leftPad] *)

Lemma split_leftPad text indent :
  no_newline indent = true ->
  split_lines (leftPad text indent)
  = map (fun line => indent ++ line) (split_lines text).
Proof.
  intros Hi. unfold leftPad, join_lines, split_lines. apply split_join.
  - destruct (split_at_cons Char.newline text) as (p & ps & ->).
    discriminate.
  - apply Forall_map. eapply Forall_impl; [|apply split_at_pieces].
    intros line Hl. apply Forall_app. split; [|exact Hl].
    now apply no_newline_Forall.
Qed.

(** X6. Read back line by line, the padded text is the lines of the
    input, each behind the indent, for an indent without a newline. *)
Theorem leftPad_lines text indent :
  no_newline indent = true ->
  split_lines (leftPad text indent)
  = map (fun line => indent ++ line) (split_lines text).
Proof. apply split_leftPad. Qed.

Lemma leftPad_lines_witness :
  no_newline default_indent = true
  /\ split_lines (leftPad (js "a" ++ [Char.newline] ++ js " b")
                          default_indent)
     = map (fun line => default_indent ++ line)
           (split_lines (js "a" ++ [Char.newline] ++ js " b")).
Proof.
  split; [reflexivity|].
  apply (leftPad_lines (js "a" ++ [Char.newline] ++ js " b") default_indent).
  reflexivity.
Defined.

(** X7. With the empty indent [leftPad] gives back its input: joining
    the pieces of [split] with the separator restores the text. *)
Theorem leftPad_empty_indent text : leftPad text [] = text.
Proof.
  unfold leftPad, join_lines, split_lines. cbn [app].
  rewrite map_id. apply join_split.
Qed.

Lemma filter_map_swap {A B} (f : A -> B) (p : B -> bool) (q : A -> bool) l :
  (forall x, p (f x) = q x) -> filter p (map f l) = map f (filter q l).
Proof.
  intros H. induction l as [|x l IH]; [reflexivity|]. cbn [map filter].
  rewrite H. destruct (q x); cbn [map]; now rewrite IH.
Qed.

Lemma slice_padded indent lines :
  forallb Char.is_space indent = true ->
  let pad := fun line : jsstring => indent ++ line in
  map (slice_from
         (math_min (map leading_space (filter truthy_trim (map pad lines)))))
      (map pad lines)
  = map (slice_from
           (math_min (map leading_space (filter truthy_trim lines))))
        lines.
Proof.
  intros Hs pad.
  assert (Hmin :
            math_min (map leading_space (filter truthy_trim (map pad lines)))
            = option_map (Nat.add (List.length indent))
                (math_min (map leading_space (filter truthy_trim lines)))).
  { rewrite (filter_map_swap pad truthy_trim truthy_trim).
    - rewrite <- math_min_shift, !map_map. f_equal. apply map_ext.
      intros line. unfold pad, leading_space.
      rewrite take_while_all_app by exact Hs. apply length_app.
    - intros line. unfold pad. rewrite !truthy_trim_body.
      now rewrite drop_while_all_app. }
  rewrite Hmin, map_map. apply map_ext. intros line.
  destruct (math_min (map leading_space (filter truthy_trim lines)));
    [|reflexivity].
  unfold pad. cbn [option_map slice_from]. rewrite skipn_app.
  rewrite skipn_all2 by lia.
  replace (List.length indent + n - List.length indent)%nat with n by lia.
  reflexivity.
Qed.

(** X8. Padding does not show after [dedent]: for an indent of white
    space without a newline, dedenting the padded text gives what
    dedenting the text itself gives. *)
Theorem dedent_leftPad text indent :
  forallb Char.is_space indent = true -> no_newline indent = true ->
  dedent (leftPad text indent) = dedent text.
Proof.
  intros Hs Hn. unfold dedent at 1. rewrite split_leftPad by exact Hn.
  cbv zeta. unfold dedent. f_equal. now apply slice_padded.
Qed.

Lemma dedent_leftPad_witness :
  forallb Char.is_space default_indent = true
  /\ no_newline default_indent = true
  /\ dedent (leftPad (js "  a" ++ [Char.newline] ++ js " b") default_indent)
     = dedent (js "  a" ++ [Char.newline] ++ js " b").
Proof.
  split; [reflexivity|]. split; [reflexivity|].
  apply (dedent_leftPad (js "  a" ++ [Char.newline] ++ js " b")
           default_indent); reflexivity.
Defined.

(** X9. A text with a line that is not blank and starts at the margin
    is left as it is by [dedent]. *)
Theorem dedent_at_margin text line :
  In line (split_lines text) ->
  truthy_trim line = true -> leading_space line = 0%nat ->
  dedent text = text.
Proof.
  intros Hin Ht Hl. unfold dedent.
  rewrite (math_min_zero
             (map leading_space (filter truthy_trim (split_lines text)))).
  - cbn [slice_from]. rewrite (map_ext _ (fun l => l)) by reflexivity.
    rewrite map_id. apply join_split.
  - rewrite <- Hl. apply in_map, filter_In. now split.
Qed.

Lemma dedent_at_margin_witness :
  let text := js "a" ++ [Char.newline] ++ js "  b" in
  In (js "a") (split_lines text)
  /\ truthy_trim (js "a") = true /\ leading_space (js "a") = 0%nat
  /\ dedent text = text.
Proof.
  intros text.
  split; [now left|]. split; [reflexivity|]. split; [reflexivity|].
  apply (dedent_at_margin (js "a" ++ [Char.newline] ++ js "  b") (js "a"));
    [now left | reflexivity | reflexivity].
Defined.

Lemma blank_pieces sep s :
  forallb Char.is_space s = true ->
  Forall (fun piece => forallb Char.is_space piece = true) (split_at sep s).
Proof.
  induction s as [|c r IH]; cbn [split_at forallb]; [repeat constructor|].
  intros H. apply andb_true_iff in H as [Hc Hr]. specialize (IH Hr).
  destruct (c =? sep); [constructor; [reflexivity | exact IH]|].
  destruct (split_at sep r) as [|p ps];
    [repeat constructor; simpl; now rewrite Hc|].
  inversion IH; subst. constructor; [|assumption].
  cbn [forallb]. now rewrite Hc.
Qed.

Lemma join_empty_pieces s :
  join [Char.newline] (map (fun _ => []) (split_at Char.newline s))
  = filter Char.is_newline s.
Proof.
  induction s as [|c r IH]; [reflexivity|]. cbn [split_at filter].
  unfold Char.is_newline at 1.
  destruct (split_at_cons Char.newline r) as (p & ps & Hp).
  rewrite Hp in *. cbn [map] in *.
  destruct (c =? Char.newline) eqn:Hc.
  - apply N.eqb_eq in Hc. subst c. cbn [map]. rewrite <- IH. reflexivity.
  - cbn [map]. exact IH.
Qed.

(** X10. Of a text that is white space only, [dedent] keeps the newlines
    and nothing else: no line counts for the indent, [Math.min] of no
    argument is [Infinity], and every line is cut to the empty string. *)
Theorem dedent_of_blank_text text :
  forallb Char.is_space text = true ->
  dedent text = filter Char.is_newline text.
Proof.
  intros H. unfold dedent, join_lines, split_lines.
  assert (Hnone : filter truthy_trim (split_at Char.newline text) = []).
  { apply filter_nil. intros line Hin.
    pose proof (blank_pieces Char.newline text H) as Hb.
    rewrite Forall_forall in Hb. specialize (Hb line Hin).
    rewrite truthy_trim_body. now rewrite (drop_while_all _ _ Hb). }
  rewrite Hnone. apply join_empty_pieces.
Qed.

Lemma dedent_of_blank_text_witness :
  let text := js "  " ++ [Char.newline] ++ js " " in
  forallb Char.is_space text = true
  /\ dedent text = filter Char.is_newline text.
Proof.
  intros text. split; [reflexivity|].
  apply (dedent_of_blank_text (js "  " ++ [Char.newline] ++ js " ")).
  reflexivity.
Defined.

(** X11. What [logExecute] prints for the SQL differs from the SQL in
    leading white space only: the printed text has the lines of the SQL,
    each with a run of leading white space replaced by four blanks. *)
Theorem printed_sql_changes_leading_space_only q :
  Forall2 (fun old new =>
             exists w core,
               forallb Char.is_space w = true
               /\ old = w ++ core /\ new = default_indent ++ core)
          (split_lines q) (split_lines (printed_sql q)).
Proof.
  unfold printed_sql. rewrite split_leftPad by reflexivity.
  rewrite dedent_lines, map_map. apply Forall2_map_in.
  intros line Hin.
  destruct (dedent_cut_is_space q line Hin) as (w & Hw & Hline).
  exists w. eexists. split; [exact Hw|]. split; [exact Hline | reflexivity].
Qed.

(** ** The classification of the tables *)

Lemma NoDup_snoc {A} (l : list A) x : NoDup l -> ~ In x l -> NoDup (l ++ [x]).
Proof.
  induction 1 as [|y l Hy Hl IH]; intros Hx; simpl.
  - constructor; [tauto | constructor].
  - constructor.
    + rewrite in_app_iff. simpl. intros [H|[H|[]]]; [tauto|].
      apply Hx. now left.
    + apply IH. intros H. apply Hx. now right.
Qed.

Lemma set_add_NoDup k s : NoDup s -> NoDup (set_add k s).
Proof.
  intros H. unfold set_add. destruct (set_has k s) eqn:Hk; [exact H|].
  apply NoDup_snoc; [exact H|]. rewrite <- set_has_In. congruence.
Qed.

Lemma Set_of_NoDup l : NoDup (Set_of l).
Proof.
  unfold Set_of.
  assert (H : forall s, NoDup s ->
                        NoDup (fold_left (fun s k => set_add k s) l s)).
  { induction l as [|k l IH]; intros s Hs; simpl; [exact Hs|].
    apply IH. now apply set_add_NoDup. }
  apply H. constructor.
Qed.

Lemma delete_all_NoDup l s :
  NoDup s -> NoDup (fold_left (fun s k => set_delete k s) l s).
Proof.
  revert s. induction l as [|k l IH]; intros s Hs; simpl; [exact Hs|].
  apply IH. unfold set_delete. now apply NoDup_filter.
Qed.

Lemma delete_where_NoDup (p : jsstring -> bool) l s :
  NoDup s ->
  NoDup (fold_left (fun s k => if p k then set_delete k s else s) l s).
Proof.
  revert s. induction l as [|k l IH]; intros s Hs; simpl; [exact Hs|].
  apply IH. destruct (p k); [|exact Hs].
  unfold set_delete. now apply NoDup_filter.
Qed.

Lemma In_modifiedTables (P T : JsMap sqlval) x :
  In x (modifiedTables_of P T) <->
  exists q q', In (x, q) P /\ map_get x T = Some q'
               /\ normaliseSql q' <> normaliseSql q.
Proof.
  unfold modifiedTables_of. rewrite In_Set_of, in_map_iff. split.
  - intros ([k q] & <- & H). apply filter_In in H as [Hin Hc].
    cbn [fst snd] in *.
    destruct (map_get k T) as [q'|]; [|discriminate].
    exists q, q'. repeat split; trivial.
    now apply negb_true_iff, str_eqb_neq in Hc.
  - intros (q & q' & Hin & Hget & Hne).
    exists (x, q). split; [reflexivity|]. apply filter_In.
    split; [exact Hin|]. cbn [fst snd]. rewrite Hget.
    now apply negb_true_iff, str_eqb_neq.
Qed.

(** X12. No table is handled twice: the sets of new, removed and
    modified tables have no repeated name and no name in common, whatever
    the two catalogs. *)
Theorem table_classes_are_disjoint (P T : JsMap sqlval) :
  let new := newTables_of P T in
  let removed := removedTables_of P T in
  let modified := modifiedTables_of P T in
  NoDup new /\ NoDup removed /\ NoDup modified
  /\ (forall x, In x new -> ~ In x removed /\ ~ In x modified)
  /\ (forall x, In x removed -> ~ In x modified).
Proof.
  intros new removed modified.
  assert (Hmod : forall x, In x modified ->
                           In x (map_keys P) /\ In x (map_keys T)).
  { intros x Hx. apply In_modifiedTables in Hx as (q & q' & Hin & Hget & _).
    split.
    - unfold map_keys. apply in_map_iff. exists (x, q). now split.
    - apply map_get_In_keys. eauto. }
  repeat split.
  - apply delete_all_NoDup, Set_of_NoDup.
  - unfold removed, removedTables_of.
    apply delete_where_NoDup, delete_all_NoDup, Set_of_NoDup.
  - apply Set_of_NoDup.
  - intros Hr. apply In_newTables in H. apply In_removedTables in Hr. tauto.
  - intros Hm. apply In_newTables in H. apply Hmod in Hm. tauto.
  - intros x Hr Hm. apply In_removedTables in Hr. apply Hmod in Hm. tauto.
Qed.

(** X13. A table is rebuilt exactly when both catalogs have it and the
    two texts have different canonical forms. *)
Theorem modified_tables_exact (entries : list (jsstring * sqlval))
    (T : JsMap sqlval) x :
  let P := Map_of entries in
  In x (modifiedTables_of P T) <->
  exists q q', map_get x P = Some q /\ map_get x T = Some q'
               /\ normaliseSql q' <> normaliseSql q.
Proof.
  intros P. rewrite In_modifiedTables.
  assert (Hnd : NoDup (map_keys P)) by apply Map_of_keys_nodup.
  split; intros (q & q' & Hq & Hq' & Hne); exists q, q'; repeat split;
    trivial.
  - destruct (proj1 (map_get_In_keys P x)) as [v Hv].
    + unfold map_keys. apply in_map_iff. exists (x, q). now split.
    + now rewrite (map_get_unique P x q v Hnd Hq Hv).
  - now apply map_get_In.
Qed.

(** X14. A table is new exactly when the target lists it and the live
    database does not; it is removed exactly when the live database lists
    it, the target does not, and its name does not end in
    [_migration_new]. *)
Theorem new_and_removed_tables_exact (E : Engine) (pristine d : DB E) x :
  let P := Map_of (rows (master_tables E pristine)) in
  let T := Map_of (rows (master_tables E d)) in
  (In x (newTables_of P T) <->
   In x (map name (master_tables E pristine))
   /\ ~ In x (map name (master_tables E d)))
  /\ (In x (removedTables_of P T) <->
      In x (map name (master_tables E d))
      /\ ~ In x (map name (master_tables E pristine))
      /\ endsWith x migration_suffix = false).
Proof.
  intros P T. unfold P, T.
  rewrite In_newTables, In_removedTables, !In_table_keys. tauto.
Qed.

(** ** [logExecute] *)

Lemma spaces_are_blank s :
  forallb Char.is_space s = true -> nonblank (Some s) = false.
Proof.
  intros H. destruct s as [|c r]; [reflexivity|].
  unfold nonblank, trim. now rewrite (drop_while_all _ _ H).
Qed.

(** X15. SQL that is nothing but white space is logged and not run: the
    call returns with the database and [nChanges] as they were. *)
Theorem blank_sql_is_logged_not_run (E : Engine) msg s (st : Run E) :
  forallb Char.is_space s = true ->
  logExecute msg (Some s) st
  = (Ret tt, {| db := db st; nChanges := nChanges st;
                console := console st ++ [entry msg (Some s)] |}).
Proof.
  intros H. unfold logExecute. now rewrite (spaces_are_blank s H).
Qed.

Lemma blank_sql_is_logged_not_run_witness :
  let E := Catalog.engine in
  let st := start E Catalog.empty in
  forallb Char.is_space (js "  ") = true
  /\ logExecute (js "m") (Some (js "  ")) st
     = (Ret tt, {| db := db st; nChanges := nChanges st;
                   console := console st
                              ++ [entry (js "m") (Some (js "  "))] |}).
Proof.
  intros E st. split; [reflexivity|].
  apply (blank_sql_is_logged_not_run Catalog.engine (js "m") (js "  ")
           (start Catalog.engine Catalog.empty)).
  reflexivity.
Defined.

Lemma logExecute_runs {E : Engine} msg s (st : Run E) d :
  nonblank (Some s) = true -> run E (db st) s = Some d ->
  logExecute msg (Some s) st
  = (Ret tt, {| db := d; nChanges := S (nChanges st);
                console := console st ++ [entry msg (Some s)] |}).
Proof.
  intros Hn Hr. unfold logExecute. rewrite Hn. cbn [db]. now rewrite Hr.
Qed.

(** ** Every run is accounted for *)

Lemma refusal_tables allow tables :
  allow = false -> tables <> [] ->
  refusal allow (refusing_to_delete_tables tables).
Proof.
  intros Ha Ht. unfold refusal, refusing_to_delete_tables.
  split; [exact Ha|]. left. exists tables. now split.
Qed.

Lemma refusal_columns allow columns tbl :
  allow = false -> columns <> [] ->
  refusal allow (refusing_to_remove_columns columns tbl).
Proof.
  intros Ha Ht. unfold refusal, refusing_to_remove_columns.
  split; [exact Ha|]. right. exists columns, tbl. now split.
Qed.

Lemma positive_length {A} (l : list A) :
  (0 <? List.length l)%nat = true -> l <> [].
Proof. destruct l; [discriminate | discriminate]. Qed.

Section Accounted.
Context {E : Engine}.
Variable allow : bool.

Lemma accounted_ret {A} (a : A) : accounted allow (@ret E A a).
Proof.
  intros st r st' H. injection H as <- <-. exists [].
  split; [now rewrite app_nil_r | simpl; lia].
Qed.

Lemma accounted_throw {A} e : refusal allow e -> accounted allow (@throw E A e).
Proof.
  intros He st r st' H. injection H as <- <-. exists [].
  split; [now rewrite app_nil_r | exact He].
Qed.

Lemma accounted_get_db : accounted allow (@get_db E).
Proof.
  intros st r st' H. injection H as <- <-. exists [].
  split; [now rewrite app_nil_r | simpl; lia].
Qed.

Lemma accounted_bind {A B} (m : M E A) (k : A -> M E B) :
  accounted allow m -> (forall a, accounted allow (k a)) ->
  accounted allow (bind m k).
Proof.
  intros Hm Hk st r st'. unfold bind.
  destruct (m st) as [[a|e] s1] eqn:H1.
  - intros H2. apply Hm in H1 as (l1 & Hc1 & Hn1).
    apply Hk in H2 as (l2 & Hc2 & Hr).
    exists (l1 ++ l2). split; [now rewrite Hc2, Hc1, app_assoc|].
    destruct r; [|exact Hr].
    rewrite Hr, Hn1, filter_app, length_app. lia.
  - intros H; injection H as <- <-.
    apply Hm in H1 as (l1 & Hc1 & He). exists l1. now split.
Qed.

Lemma accounted_for_of {A} (l : list A) (body : A -> M E unit) :
  (forall x, accounted allow (body x)) -> accounted allow (for_of l body).
Proof.
  intros H. induction l as [|x l IH]; cbn [for_of].
  - apply accounted_ret.
  - apply accounted_bind; auto.
Qed.

Lemma accounted_logExecute msg q : accounted allow (@logExecute E msg q).
Proof.
  intros st r st' H. exists [entry msg q].
  split; [eapply logExecute_console; eauto|].
  destruct r as [[]|e].
  - apply logExecute_ok in H as [Hn _]. rewrite Hn. cbn [filter].
    unfold executed, entry. cbn [log_sql]. now destruct (nonblank q).
  - unfold logExecute in H. destruct q as [s|]; [|discriminate].
    destruct (nonblank (Some s)); [|discriminate].
    destruct (run E _ s); [discriminate|]. injection H as <- _. exact I.
Qed.

Lemma accounted_db_run q : accounted allow (@db_run E q).
Proof.
  intros st r st'. unfold db_run. destruct (run E (db st) q);
    intros H; injection H as <- <-; exists []; cbn [console nChanges];
    (split; [now rewrite app_nil_r|]); [simpl; lia | exact I].
Qed.

Lemma accounted_table_columns d t : accounted allow (table_columns E d t).
Proof.
  unfold table_columns. destruct (table_info_names E d t);
    [apply accounted_ret | now apply accounted_throw].
Qed.

Lemma accounted_log_all ops : accounted allow (@log_all E ops).
Proof. apply accounted_for_of. intros e. apply accounted_logExecute. Qed.

Lemma accounted_rebuild_table pristine P t :
  accounted allow (rebuild_table E pristine allow P t).
Proof.
  unfold rebuild_table.
  destruct (map_get t P) as [[[|c r]|]|]; try apply accounted_ret.
  destruct (retarget_sql E (c :: r) t); [|now apply accounted_throw].
  apply accounted_bind; [apply accounted_logExecute|]. intros _.
  apply accounted_bind; [apply accounted_get_db|]. intros d.
  apply accounted_bind; [apply accounted_table_columns|]. intros cols.
  apply accounted_bind; [apply accounted_table_columns|]. intros pcols.
  destruct (negb allow && _) eqn:G.
  - apply andb_true_iff in G as [Ga Gl]. apply accounted_throw.
    apply refusal_columns.
    + now apply negb_true_iff.
    + now apply positive_length.
  - repeat (apply accounted_bind; [apply accounted_logExecute|]; intros _).
    apply accounted_logExecute.
Qed.

Lemma accounted_migratePragma pristine pragma :
  accounted allow (migratePragma E pristine pragma).
Proof.
  unfold migratePragma. apply accounted_bind; [apply accounted_get_db|].
  intros d. destruct (pragma_get E pristine _); [|apply accounted_ret].
  destruct (pragma_get E d _); [|apply accounted_ret].
  destruct (num_strict_eqb _ _);
    [apply accounted_ret | apply accounted_logExecute].
Qed.

Lemma accounted_check_foreign_keys pristine :
  accounted allow (check_foreign_keys E pristine).
Proof.
  intros st r st' H. rewrite check_foreign_keys_skips in H.
  eapply accounted_ret; eauto.
Qed.

(** What follows the two easy table loops. *)
Lemma accounted_rebuild_onwards pristine P PI modified :
  accounted allow
    (bind (rebuild_modified_tables E pristine allow P modified) (fun _ =>
     bind (migrate_indices E PI) (fun _ =>
     bind (migratePragma E pristine (js "user_version")) (fun _ =>
     check_foreign_keys E pristine)))).
Proof.
  apply accounted_bind.
  { apply accounted_for_of. intros t. apply accounted_rebuild_table. }
  intros _. apply accounted_bind.
  { intros s r s' Hs. rewrite migrate_indices_plan in Hs.
    eapply accounted_log_all; eauto. }
  intros _. apply accounted_bind; [apply accounted_migratePragma|].
  intros _. apply accounted_check_foreign_keys.
Qed.

Lemma accounted_drop_leftover_tables :
  accounted allow (drop_leftover_tables E).
Proof.
  intros s r s' Hs. rewrite drop_leftover_tables_plan in Hs.
  eapply accounted_log_all; eauto.
Qed.

Lemma accounted_apply_plan pristine P PI new removed modified :
  accounted allow (apply_plan E pristine allow P PI new removed modified).
Proof.
  unfold apply_plan.
  apply accounted_bind; [apply accounted_db_run|]. intros _.
  apply accounted_bind.
  { intros s r s' Hs. rewrite create_new_tables_plan in Hs.
    eapply accounted_log_all; eauto. }
  intros _. apply accounted_bind.
  { intros s r s' Hs. rewrite drop_removed_tables_plan in Hs.
    eapply accounted_log_all; eauto. }
  intros _. apply accounted_rebuild_onwards.
Qed.

Lemma accounted_migrate pristine : accounted allow (migrate E pristine allow).
Proof.
  unfold migrate. cbv zeta.
  apply accounted_bind; [apply accounted_get_db|]. intros d.
  destruct ((0 <? _)%nat && negb allow) eqn:G.
  - apply andb_true_iff in G as [Gl Ga]. apply accounted_throw.
    apply refusal_tables.
    + now apply negb_true_iff.
    + now apply positive_length.
  - apply accounted_bind; [apply accounted_apply_plan|]. intros _.
    apply accounted_drop_leftover_tables.
Qed.
End Accounted.

(** X16. Every change is logged and counted: when [migrate] returns,
    [nChanges] has grown by the number of [logExecute] calls it added to
    the console whose SQL was not blank. *)
Theorem migrate_counts_what_it_ran (E : Engine) (pristine : DB E) allow
    (st st' : Run E) :
  migrate E pristine allow st = (Ret tt, st') ->
  exists added,
    console st' = console st ++ added
    /\ nChanges st'
       = (nChanges st + List.length (filter executed added))%nat.
Proof. intros H. now apply accounted_migrate in H. Qed.

Lemma migrate_counts_what_it_ran_witness :
  let E := Catalog.engine in
  let st' := snd (migrate E db_grown_target true (start E db_obsolete)) in
  exists added,
    console st' = console (start E db_obsolete) ++ added
    /\ nChanges st'
       = (nChanges (start E db_obsolete)
          + List.length (filter executed added))%nat.
Proof.
  intros E st'.
  apply (migrate_counts_what_it_ran Catalog.engine db_grown_target true
           (start Catalog.engine db_obsolete)
           (snd (migrate Catalog.engine db_grown_target true
                   (start Catalog.engine db_obsolete)))).
  vm_compute. reflexivity.
Defined.

Lemma positive_count {A} (p : A -> bool) l :
  (0 <? List.length (filter p l))%nat = existsb p l.
Proof.
  induction l as [|x l IH]; [reflexivity|]. cbn [filter existsb].
  destruct (p x); [reflexivity | exact IH].
Qed.

(** X17. [dumbMigrateDb] answers [true] exactly when the run has logged a
    call whose SQL was not blank, and then [nChanges] is the number of
    such calls on the console. *)
Theorem dumbMigrateDb_reports_execution (E : Engine) (d : DB E) schema
    allow changed (st' : Run E) :
  dumbMigrateDb E d schema allow = (Ret changed, st') ->
  changed = existsb executed (console st')
  /\ nChanges st' = List.length (filter executed (console st')).
Proof.
  unfold dumbMigrateDb. destruct (exec_schema E schema) as [pristine|];
    [|discriminate].
  destruct (migrate E pristine allow (start E d)) as [[[]|e] s] eqn:Hm;
    [|discriminate].
  intros H; injection H as <- <-.
  apply (accounted_migrate allow) in Hm as (added & Hc & Hn).
  cbn [start console nChanges app] in Hc, Hn.
  rewrite Hn, Hc. split; [apply positive_count | reflexivity].
Qed.

Lemma dumbMigrateDb_reports_execution_witness :
  let E := Catalog.engine in
  let run := dumbMigrateDb E db_with_leftover (js "CREATE TABLE t(a)") false in
  true = existsb executed (console (snd run))
  /\ nChanges (snd run) = List.length (filter executed (console (snd run))).
Proof.
  intros E run.
  apply (dumbMigrateDb_reports_execution Catalog.engine db_with_leftover
           (js "CREATE TABLE t(a)") false true
           (snd (dumbMigrateDb Catalog.engine db_with_leftover
                   (js "CREATE TABLE t(a)") false))).
  vm_compute. reflexivity.
Defined.

(** X18. [migrate] raises nothing but an error of the engine, an error of
    [RegExp], and, when deletions are not allowed, one of its two
    refusals, each naming at least one table or column. *)
Theorem migrate_raises_only_refusals (E : Engine) (pristine : DB E) allow
    (st st' : Run E) e :
  migrate E pristine allow st = (Throw e, st') -> refusal allow e.
Proof.
  intros H. apply accounted_migrate in H as (_ & _ & H). exact H.
Qed.

Lemma migrate_raises_only_refusals_witness :
  refusal false (refusing_to_delete_tables [js "old"]).
Proof.
  apply (migrate_raises_only_refusals Catalog.engine db_plain_target false
           (start Catalog.engine db_old_and_leftover)
           (snd (migrate Catalog.engine db_plain_target false
                   (start Catalog.engine db_old_and_leftover)))).
  vm_compute. reflexivity.
Defined.

Lemma would_fail_is_no_refusal allow :
  ~ refusal allow would_fail_foreign_key_check.
Proof.
  unfold refusal, would_fail_foreign_key_check,
    refusing_to_delete_tables, refusing_to_remove_columns.
  intros [_ [(l & _ & H)|(l & t & _ & H)]];
    apply (f_equal (fun e => match e with
                             | Error s => nth 20 s 0
                             | _ => 0
                             end)) in H;
    vm_compute in H; discriminate.
Qed.

(** X19. No run of [migrate] ends with the error [Would fail
    foreign_key_check], whatever the engine and the two databases: the
    condition of line 257 reads the property [0] of a row that is keyed by
    column name, so the check of line 258 is never reached. *)
Theorem migrate_never_fails_foreign_key_check (E : Engine)
    (pristine : DB E) allow (st : Run E) :
  fst (migrate E pristine allow st) <> Throw would_fail_foreign_key_check.
Proof.
  destruct (migrate E pristine allow st) as [r st'] eqn:H. cbn [fst].
  intros ->. apply accounted_migrate in H as (_ & _ & H).
  revert H. apply would_fail_is_no_refusal.
Qed.

(** ** The rebuild of a table *)

(** X20. The rebuild of a table stops where it reads the columns: when
    the engine runs the creation of [tbl_migration_new] and then refuses
    the query [PRAGMA table_info(?)] of line 198, as SQLite does with a
    parameter in a [PRAGMA], the rebuild raises the error of the engine
    with the creation logged, run and counted and nothing copied, dropped
    or renamed, whether deletions are allowed or not. *)
Theorem rebuild_stops_at_table_info (E : Engine) (pristine : DB E) allow
    (P : JsMap sqlval) tbl text newTableSql (st : Run E) d1 :
  map_get tbl P = Some (Some text) -> text <> [] ->
  retarget_sql E text tbl = Some newTableSql ->
  nonblank (Some newTableSql) = true ->
  run E (db st) newTableSql = Some d1 ->
  table_info_names E d1 tbl = None ->
  rebuild_table E pristine allow P tbl st
  = (Throw EngineError,
     Build_Run E d1 (S (nChanges st))
       (console st ++ [rebuild_create_entry tbl newTableSql])).
Proof.
  intros Hget Hne Hre Hnb Hrun Hc.
  unfold rebuild_table. rewrite Hget.
  destruct text as [|c r]; [congruence|]. rewrite Hre.
  rewrite (bind_ret_eq _ _ _ _ _
             (logExecute_runs _ newTableSql st d1 Hnb Hrun)).
  unfold bind, get_db, table_columns, ret, throw. cbn [db].
  rewrite Hc. reflexivity.
Qed.

(** A table that would lose a column, deletions allowed. *)
Lemma rebuild_stops_at_table_info_witness :
  let E := Retarget.retargeting_engine in
  let st := start E db_two_columns in
  let newTableSql := js "CREATE TABLE t_migration_new(a)" in
  let d1 := match run E db_two_columns newTableSql with
            | Some d => d
            | None => db_two_columns
            end in
  rebuild_table E db_one_column true
    (Map_of (rows (master_tables E db_one_column))) (js "t") st
  = (Throw EngineError,
     Build_Run E d1 (S (nChanges st))
       (console st ++ [rebuild_create_entry (js "t") newTableSql])).
Proof.
  intros E st newTableSql d1.
  apply (rebuild_stops_at_table_info Retarget.retargeting_engine
           db_one_column true
           (Map_of (rows (master_tables Retarget.retargeting_engine
                            db_one_column)))
           (js "t") (js "CREATE TABLE t(a)")
           (js "CREATE TABLE t_migration_new(a)")
           (start Retarget.retargeting_engine db_two_columns));
    vm_compute; try reflexivity; discriminate.
Defined.





(** ** What a run raises *)

Lemma delete_refusal_is_no_column_refusal tables :
  no_column_refusal (refusing_to_delete_tables tables).
Proof.
  unfold no_column_refusal, refusing_to_delete_tables,
    refusing_to_remove_columns.
  intros columns tbl H.
  apply (f_equal (fun e => match e with
                           | Error s => nth 32 s 0
                           | _ => 0
                           end)) in H;
    vm_compute in H; discriminate.
Qed.

Section Raises.
Context {E : Engine}.
Variable Q : exn -> Prop.
Hypothesis engine_error : Q EngineError.

Lemma raises_only_ret {A} (a : A) : raises_only Q (@ret E A a).
Proof. intros st e st' H. discriminate. Qed.

Lemma raises_only_throw {A} e : Q e -> raises_only Q (@throw E A e).
Proof. intros He st e' st' H. injection H as <- _. exact He. Qed.

Lemma raises_only_get_db : raises_only Q (@get_db E).
Proof. intros st e st' H. discriminate. Qed.

Lemma raises_only_bind {A B} (m : M E A) (k : A -> M E B) :
  raises_only Q m -> (forall a, raises_only Q (k a)) ->
  raises_only Q (bind m k).
Proof.
  intros Hm Hk st e st'. unfold bind.
  destruct (m st) as [[a|e1] s1] eqn:H1.
  - apply Hk.
  - intros H; injection H as <- _. eapply Hm; eauto.
Qed.

Lemma raises_only_for_of {A} (l : list A) (body : A -> M E unit) :
  (forall x, raises_only Q (body x)) -> raises_only Q (for_of l body).
Proof.
  intros H. induction l as [|x l IH]; cbn [for_of].
  - apply raises_only_ret.
  - apply raises_only_bind; auto.
Qed.

Lemma raises_only_logExecute msg q : raises_only Q (@logExecute E msg q).
Proof.
  intros st e st' H. unfold logExecute in H.
  destruct q as [s|]; [|discriminate].
  destruct (nonblank (Some s)); [|discriminate].
  destruct (run E _ s); [discriminate|]. injection H as <- _.
  exact engine_error.
Qed.

Lemma raises_only_db_run q : raises_only Q (@db_run E q).
Proof.
  intros st e st'. unfold db_run. destruct (run E (db st) q);
    intros H; [discriminate|]. injection H as <- _. exact engine_error.
Qed.

Lemma raises_only_log_all ops : raises_only Q (@log_all E ops).
Proof. apply raises_only_for_of. intros e. apply raises_only_logExecute. Qed.

Lemma raises_only_migratePragma pristine pragma :
  raises_only Q (migratePragma E pristine pragma).
Proof.
  unfold migratePragma. apply raises_only_bind; [apply raises_only_get_db|].
  intros d. destruct (pragma_get E pristine _); [|apply raises_only_ret].
  destruct (pragma_get E d _); [|apply raises_only_ret].
  destruct (num_strict_eqb _ _);
    [apply raises_only_ret | apply raises_only_logExecute].
Qed.

Lemma raises_only_check_foreign_keys pristine :
  raises_only Q (check_foreign_keys E pristine).
Proof.
  intros st e st' H. rewrite check_foreign_keys_skips in H. discriminate.
Qed.

(** [migrate] raises what its rebuilds raise, the refusal to delete
    tables, and the errors of the engine. *)
Lemma raises_only_migrate pristine allow :
  (forall tables, Q (refusing_to_delete_tables tables)) ->
  (forall P t, raises_only Q (rebuild_table E pristine allow P t)) ->
  raises_only Q (migrate E pristine allow).
Proof.
  intros Hdel Hreb. unfold migrate. cbv zeta.
  apply raises_only_bind; [apply raises_only_get_db|]. intros d.
  destruct ((0 <? _)%nat && negb allow).
  { apply raises_only_throw, Hdel. }
  apply raises_only_bind.
  2:{ intros _ s e s' Hs. rewrite drop_leftover_tables_plan in Hs.
      eapply raises_only_log_all; eauto. }
  unfold apply_plan.
  apply raises_only_bind; [apply raises_only_db_run|]. intros _.
  apply raises_only_bind.
  { intros s e s' Hs. rewrite create_new_tables_plan in Hs.
    eapply raises_only_log_all; eauto. }
  intros _. apply raises_only_bind.
  { intros s e s' Hs. rewrite drop_removed_tables_plan in Hs.
    eapply raises_only_log_all; eauto. }
  intros _. apply raises_only_bind.
  { apply raises_only_for_of. intros t. apply Hreb. }
  intros _. apply raises_only_bind.
  { intros s e s' Hs. rewrite migrate_indices_plan in Hs.
    eapply raises_only_log_all; eauto. }
  intros _. apply raises_only_bind; [apply raises_only_migratePragma|].
  intros _. apply raises_only_check_foreign_keys.
Qed.
End Raises.

(** A rebuild that cannot read the columns raises an error of the engine
    or of [RegExp], or has no SQL to work with and returns. *)
Lemma rebuild_without_table_info (E : Engine) (pristine : DB E) allow
    (P : JsMap sqlval) tbl (st st' : Run E) r :
  (forall d t, table_info_names E d t = None) ->
  rebuild_table E pristine allow P tbl st = (r, st') ->
  match r with
  | Ret _ => forall text, map_get tbl P = Some (Some text) -> text = []
  | Throw e => e = EngineError \/ e = RegExpError
  end.
Proof.
  intros Hno. unfold rebuild_table.
  destruct (map_get tbl P) as [[[|c t]|]|] eqn:Hget;
    try (intros H; injection H as <- <-; intros text Ht; congruence).
  destruct (retarget_sql E (c :: t) tbl) as [new|].
  2:{ intros H; injection H as <- <-. now right. }
  unfold bind at 1.
  match goal with
  | |- context [logExecute ?m ?q st] =>
      destruct (logExecute m q st) as [[[]|e] s1] eqn:H1
  end.
  2:{ intros H; injection H as <- <-. left.
      eapply (raises_only_logExecute (fun e => e = EngineError)); eauto. }
  unfold bind at 1. unfold get_db. unfold bind at 1.
  unfold table_columns at 1. rewrite Hno.
  intros H; injection H as <- <-. now left.
Qed.

(** X22. With an engine that refuses [PRAGMA table_info(?)], as SQLite
    does, a run of [migrate] with a modified table that has SQL to
    rebuild it from does not return. *)
Theorem modified_table_stops_the_run (E : Engine) (pristine : DB E) allow
    (st : Run E) x text :
  (forall d t, table_info_names E d t = None) ->
  let P := Map_of (rows (master_tables E pristine)) in
  let T := Map_of (rows (master_tables E (db st))) in
  In x (modifiedTables_of P T) ->
  map_get x P = Some (Some text) -> text <> [] ->
  fst (migrate E pristine allow st) <> Ret tt.
Proof.
  intros Hno P T Hin Hget Hne.
  destruct (migrate E pristine allow st) as [r st'] eqn:H. cbn [fst].
  intros ->. apply migrate_ok_inv in H as (s1 & Hplan & _).
  fold P T in Hplan. unfold apply_plan in Hplan.
  apply bind_ret_inv in Hplan as ([] & s0 & _ & Hplan).
  apply bind_ret_inv in Hplan as ([] & s2 & _ & Hplan).
  apply bind_ret_inv in Hplan as ([] & s3 & _ & Hplan).
  apply bind_ret_inv in Hplan as ([] & s4 & Hreb & _).
  unfold rebuild_modified_tables in Hreb.
  revert s3 Hreb Hin.
  induction (modifiedTables_of P T) as [|y l IH]; intros s3 Hreb [];
    cbn [for_of] in Hreb;
    apply bind_ret_inv in Hreb as ([] & s & Hy & Hl).
  - subst y. apply (rebuild_without_table_info _ _ _ _ _ _ _ _ Hno) in Hy.
    apply Hne, Hy, Hget.
  - eapply IH; eauto.
Qed.

(** A table that gains a column, deletions allowed. *)
Lemma modified_table_stops_the_run_witness :
  fst (migrate Retarget.retargeting_engine db_two_columns true
         (start Retarget.retargeting_engine db_one_column)) <> Ret tt.
Proof.
  apply (modified_table_stops_the_run Retarget.retargeting_engine
           db_two_columns true
           (start Retarget.retargeting_engine db_one_column)
           (js "t") (js "CREATE TABLE t(a, b)")).
  - reflexivity.
  - vm_compute. now left.
  - vm_compute. reflexivity.
  - discriminate.
Defined.

(** X25. With an engine that refuses [PRAGMA table_info(?)], no run of
    [migrate] raises the refusal to
    remove columns: the columns are never read, so lines 201-211 are not
    reached. *)
Theorem column_refusal_is_never_raised (E : Engine) (pristine : DB E)
    allow (st st' : Run E) e :
  (forall d t, table_info_names E d t = None) ->
  migrate E pristine allow st = (Throw e, st') ->
  no_column_refusal e.
Proof.
  intros Hno H.
  apply (raises_only_migrate no_column_refusal) in H; [exact H|..].
  - intros columns tbl. discriminate.
  - apply delete_refusal_is_no_column_refusal.
  - intros P t s e' s' Hs.
    apply (rebuild_without_table_info _ _ _ _ _ _ _ _ Hno) in Hs.
    destruct Hs as [->| ->]; intros columns tbl; discriminate.
Qed.

(** A table that would lose a column, deletions not allowed: the run
    ends with the error of the engine. *)
Lemma column_refusal_is_never_raised_witness :
  no_column_refusal EngineError.
Proof.
  apply (column_refusal_is_never_raised Retarget.retargeting_engine
           db_one_column false
           (start Retarget.retargeting_engine db_two_columns)
           (snd (migrate Retarget.retargeting_engine db_one_column false
                   (start Retarget.retargeting_engine db_two_columns)))).
  - reflexivity.
  - vm_compute. reflexivity.
Defined.

(** ** The indices *)

Ltac message_clash H :=
  apply (f_equal log_msg) in H;
  unfold obsolete_index_entry, new_index_entry, changed_index_drop,
    changed_index_create, entry in H;
  cbn [log_msg] in H; head_clash H.

Lemma In_entries_Map_of {V} (l : list (jsstring * V)) k v :
  In (k, v) (Map_of l) <-> map_get k (Map_of l) = Some v.
Proof.
  split; [|apply map_get_In]. intros Hin.
  destruct (proj1 (map_get_In_keys (Map_of l) k)) as [v' Hv'].
  - unfold map_keys. apply in_map_iff. exists (k, v). now split.
  - rewrite Hv'. f_equal. symmetry.
    eapply map_get_unique; eauto. apply Map_of_keys_nodup.
Qed.

(** X23. A completed index phase has logged [DROP INDEX] as obsolete for
    exactly the indices the live database has and the target lacks, and
    the creation of a new index for exactly the indices the target has
    and the live database lacks, with the target's SQL. *)
Theorem obsolete_and_new_indices (E : Engine) (pristine : DB E)
    (st st' : Run E) :
  let PI := Map_of (rows (master_indices E pristine)) in
  let I := Map_of (rows (master_indices E (db st))) in
  migrate_indices E PI st = (Ret tt, st') ->
  exists added,
    console st' = console st ++ added
    /\ (forall idx,
           In (obsolete_index_entry idx) added
           <-> map_has idx I = true /\ map_has idx PI = false)
    /\ (forall idx q,
           In (new_index_entry idx q) added
           <-> map_get idx PI = Some q /\ map_has idx I = false).
Proof.
  intros PI I Hrun. rewrite migrate_indices_plan in Hrun. fold I in Hrun.
  apply log_all_ok in Hrun as [Hc _].
  exists (index_plan I PI). split; [exact Hc|].
  unfold index_plan. split.
  - intros idx. rewrite in_app_iff, !in_flat_map. split.
    + intros [(k & Hk & He)|([k q] & Hin & He)].
      * destruct (map_has k PI) eqn:Hm; cbn [negb In] in He; [tauto|].
        destruct He as [He|[]].
        assert (k = idx).
        { apply (f_equal log_msg) in He.
          unfold obsolete_index_entry, entry in He. cbn [log_msg] in He.
          now apply app_inv_head in He. }
        subst k. split; [now apply map_has_In | exact Hm].
      * exfalso. unfold index_plan_one in He. cbn [fst snd] in He.
        destruct (negb (map_has k I)).
        { destruct He as [He|[]]. message_clash He. }
        destruct (strict_neq q (map_get k I)); [|destruct He].
        destruct He as [He|[He|[]]]; message_clash He.
    + intros [HI HP]. left. exists idx. split; [now apply map_has_In|].
      rewrite HP. now left.
  - intros idx q. rewrite in_app_iff, !in_flat_map. split.
    + intros [(k & Hk & He)|([k q'] & Hin & He)].
      * exfalso. destruct (negb (map_has k PI)); [|destruct He].
        destruct He as [He|[]]. message_clash He.
      * unfold index_plan_one in He. cbn [fst snd] in He.
        destruct (map_has k I) eqn:Hm; cbn [negb] in He.
        { exfalso. destruct (strict_neq q' (map_get k I)); [|destruct He].
          destruct He as [He|[He|[]]]; message_clash He. }
        destruct He as [He|[]].
        assert (k = idx).
        { apply (f_equal log_msg) in He.
          unfold new_index_entry, entry in He. cbn [log_msg] in He.
          now apply app_inv_head in He. }
        assert (q' = q).
        { apply (f_equal log_sql) in He. exact He. }
        subst k q'. split; [|exact Hm]. now apply In_entries_Map_of.
    + intros [Hq HI]. right. exists (idx, q).
      split; [now apply In_entries_Map_of|].
      unfold index_plan_one. cbn [fst snd]. rewrite HI. now left.
Qed.

Lemma obsolete_and_new_indices_witness :
  let E := Catalog.engine in
  let st := start E db_obsolete in
  let st' := snd (migrate_indices E
                    (Map_of (rows (master_indices E db_grown_target))) st) in
  let PI := Map_of (rows (master_indices E db_grown_target)) in
  let I := Map_of (rows (master_indices E (db st))) in
  exists added,
    console st' = console st ++ added
    /\ (forall idx,
           In (obsolete_index_entry idx) added
           <-> map_has idx I = true /\ map_has idx PI = false)
    /\ (forall idx q,
           In (new_index_entry idx q) added
           <-> map_get idx PI = Some q /\ map_has idx I = false).
Proof.
  intros E st st'.
  apply (obsolete_and_new_indices Catalog.engine db_grown_target
           (start Catalog.engine db_obsolete)
           (snd (migrate_indices Catalog.engine
                   (Map_of (rows (master_indices Catalog.engine
                                    db_grown_target)))
                   (start Catalog.engine db_obsolete)))).
  vm_compute. reflexivity.
Defined.

(** ** The order of a run *)

(** X24. A run that returns has first logged the creation of every new
    table that has SQL, in the order of the target's catalog, and then the
    [DROP TABLE] of every removed table; and there are removed tables
    only when deletions are allowed. *)
Theorem creations_precede_deletions (E : Engine) (pristine : DB E) allow
    (st st' : Run E) :
  let P := Map_of (rows (master_tables E pristine)) in
  let T := Map_of (rows (master_tables E (db st))) in
  migrate E pristine allow st = (Ret tt, st') ->
  exists rest,
    console st'
    = console st ++ create_plan P (newTables_of P T)
      ++ map drop_entry (removedTables_of P T) ++ rest
    /\ (allow = false -> removedTables_of P T = []).
Proof.
  intros P T. unfold migrate. cbv zeta. unfold bind at 1. unfold get_db.
  fold P T.
  destruct ((0 <? _)%nat && negb allow) eqn:G; [discriminate|].
  intros H. apply bind_ret_inv in H as ([] & s4 & H & Hclean).
  unfold apply_plan in H.
  apply bind_ret_inv in H as ([] & s1 & H1 & H).
  apply bind_ret_inv in H as ([] & s2 & H2 & H).
  apply bind_ret_inv in H as ([] & s3 & H3 & H).
  apply db_run_console in H1.
  rewrite create_new_tables_plan in H2. apply log_all_ok in H2 as [H2 _].
  rewrite drop_removed_tables_plan in H3. apply log_all_ok in H3 as [H3 _].
  apply (accounted_rebuild_onwards allow) in H as (l1 & Hl1 & _).
  apply (accounted_drop_leftover_tables allow) in Hclean as (l2 & Hl2 & _).
  exists (l1 ++ l2). split.
  - rewrite Hl2, Hl1, H3, H2, H1. now rewrite <- !app_assoc.
  - intros ->. cbn [negb] in G. rewrite andb_true_r in G.
    destruct (removedTables_of P T); [reflexivity | discriminate].
Qed.

Lemma creations_precede_deletions_witness :
  let E := Catalog.engine in
  let st := start E db_obsolete in
  let st' := snd (migrate E db_grown_target true st) in
  let P := Map_of (rows (master_tables E db_grown_target)) in
  let T := Map_of (rows (master_tables E (db st))) in
  exists rest,
    console st'
    = console st ++ create_plan P (newTables_of P T)
      ++ map drop_entry (removedTables_of P T) ++ rest
    /\ (true = false -> removedTables_of P T = []).
Proof.
  intros E st st'.
  apply (creations_precede_deletions Catalog.engine db_grown_target true
           (start Catalog.engine db_obsolete)
           (snd (migrate Catalog.engine db_grown_target true
                   (start Catalog.engine db_obsolete)))).
  vm_compute. reflexivity.
Defined.
